(** * Letter: tokenizer and recursive-descent parser

    A shallow embedding of [Tokenizer.js] and [Parser.js] of the Letter
    repository, and the properties of the two that its specification
    states.

    - JavaScript strings are sequences of UTF-16 code units: [list N].
    - The tokenizer object is a record [{_string; _cursor}]; every method
      takes the record and returns the record it leaves behind.
    - The parser object holds the tokenizer and the one-token lookahead;
      its methods live in a state-and-exception monad.
    - A [throw] is a [Throw] completion; reading a property of [null]
      throws a [TypeError], as the language does.
    - Recursion that is not structural runs on fuel.  The tokenizer's
      fuel is fixed by the text that is left and is proved sufficient;
      the parser's productions take the fuel as an argument. *)

From Stdlib Require Import String Ascii List NArith Arith Bool Lia.
Import ListNotations.

Set Implicit Arguments.

(* ================================================================== *)
(** * JavaScript strings, errors and completions *)
(* ================================================================== *)

Module JS.

(** A string is its sequence of UTF-16 code units. *)
Definition jsstring := list N.

(** The code units of an ASCII literal of the source. *)
Definition str (s : string) : jsstring :=
  map N_of_ascii (list_ascii_of_string s).

Definition jsstring_eqb (a b : jsstring) : bool :=
  if list_eq_dec N.eq_dec a b then true else false.

(** [s.slice(from)] for [0 <= from]. *)
Definition slice (s : jsstring) (from : nat) : jsstring := skipn from s.

(** The two error classes met in the program.  [SyntaxError] is the one
    the source throws itself; [TypeError] is what the language throws
    when a property of [null] is read (its message depends on the
    engine and is left out). *)
Inductive Error : Type :=
| SyntaxError (message : jsstring)
| TypeError.

(** How a call ends: it returns, it throws, or the model ran out of
    fuel. *)
Inductive Completion (A : Type) : Type :=
| Return (a : A)
| Throw (e : Error)
| OutOfFuel.

Arguments Throw {A} e.
Arguments OutOfFuel {A}.

(** ** Character classes of the regular expressions *)

(** [\d] *)
Definition is_digit (c : N) : bool := ((48 <=? c) && (c <=? 57))%N.

(** [\w]: [A-Za-z0-9_] *)
Definition is_word (c : N) : bool :=
  (is_digit c
   || ((65 <=? c) && (c <=? 90))
   || ((97 <=? c) && (c <=? 122))
   || (c =? 95))%N.

(** Line terminators: LF, CR, LS, PS.  The dot matches all but these. *)
Definition is_line_terminator (c : N) : bool :=
  ((c =? 10) || (c =? 13) || (c =? 8232) || (c =? 8233))%N.

(** [\s]: white space (TAB, VT, FF, the Zs category, ZWNBSP) and the
    line terminators. *)
Definition is_space (c : N) : bool :=
  ((c =? 9) || (c =? 11) || (c =? 12) || (c =? 32) || (c =? 160)
   || (c =? 5760) || ((8192 <=? c) && (c <=? 8202))
   || (c =? 8239) || (c =? 8287) || (c =? 12288) || (c =? 65279)
   || is_line_terminator c)%N.

(** [.] *)
Definition is_dot (c : N) : bool := negb (is_line_terminator c).

Definition is_one_of (cs : jsstring) (c : N) : bool :=
  existsb (N.eqb c) cs.

Definition is_not (q : N) (c : N) : bool := negb (c =? q)%N.

(** ** Matching at the start of a string *)

(** The longest prefix of characters of a class, and what follows. *)
Fixpoint span (cls : N -> bool) (s : jsstring) : jsstring * jsstring :=
  match s with
  | [] => ([], [])
  | c :: r =>
      if cls c then (c :: fst (span cls r), snd (span cls r))
      else ([], s)
  end.

(** [strip_prefix pre s] is what follows [pre] at the start of [s]. *)
Fixpoint strip_prefix (pre s : jsstring) : option jsstring :=
  match pre, s with
  | [], _ => Some s
  | _ :: _, [] => None
  | a :: pre', c :: s' => if (a =? c)%N then strip_prefix pre' s' else None
  end.

(** The text before the first ["*/"], if there is one. *)
Fixpoint before_close (s : jsstring) : option jsstring :=
  match s with
  | [] => None
  | c :: r =>
      match r with
      | d :: _ =>
          if ((c =? 42) && (d =? 47))%N then Some []
          else option_map (cons c) (before_close r)
      | [] => None
      end
  end.

(** [\b] between two positions: exactly one side is a word character
    (the start and the end of the string count as non-word). *)
Definition at_word_boundary (prev next : option N) : bool :=
  xorb (match prev with Some c => is_word c | None => false end)
       (match next with Some c => is_word c | None => false end).

(** The shapes of regular expression the tokenizer's table uses.  All
    are anchored at the start ([^]) and none has flags. *)
Inductive RegExp : Type :=
| re_plus (cls : N -> bool)        (* /^[cls]+/          *)
| re_line_comment                  (* /^\/\/.*/          *)
| re_block_comment                 (* /^\/\*[\s\S]*?\*\// *)
| re_lit (lit : jsstring)          (* /^lit/             *)
| re_cls (cls : N -> bool)         (* /^[cls]/           *)
| re_cls_opt (cls : N -> bool) (c : N)   (* /^[cls]c?/   *)
| re_cls_lit (cls : N -> bool) (c : N)   (* /^[cls]c/    *)
| re_word (kw : jsstring)          (* /^\bkw\b/          *)
| re_quoted (q : N).               (* /^q[^q]*q/         *)

(** [regexp.exec(string)]: [matched[0]] or [null]. *)
Definition exec (regexp : RegExp) (s : jsstring) : option jsstring :=
  match regexp with
  | re_plus cls =>
      match fst (span cls s) with
      | [] => None
      | m => Some m
      end
  | re_line_comment =>
      match strip_prefix [47; 47]%N s with
      | Some r => Some ([47; 47]%N ++ fst (span is_dot r))
      | None => None
      end
  | re_block_comment =>
      match strip_prefix [47; 42]%N s with
      | Some r =>
          match before_close r with
          | Some body => Some ([47; 42]%N ++ body ++ [42; 47]%N)
          | None => None
          end
      | None => None
      end
  | re_lit lit =>
      match strip_prefix lit s with
      | Some _ => Some lit
      | None => None
      end
  | re_cls cls =>
      match s with
      | c :: _ => if cls c then Some [c] else None
      | [] => None
      end
  | re_cls_opt cls d =>
      match s with
      | c :: r =>
          if cls c then
            match r with
            | e :: _ => if (e =? d)%N then Some [c; e] else Some [c]
            | [] => Some [c]
            end
          else None
      | [] => None
      end
  | re_cls_lit cls d =>
      match s with
      | c :: e :: _ => if cls c && (e =? d)%N then Some [c; e] else None
      | _ => None
      end
  | re_word kw =>
      if at_word_boundary None (hd_error s) then
        match strip_prefix kw s with
        | Some r =>
            if at_word_boundary (hd_error (rev kw)) (hd_error r)
            then Some kw else None
        | None => None
        end
      else None
  | re_quoted q =>
      match s with
      | c :: r =>
          if (c =? q)%N then
            match snd (span (is_not q) r) with
            | e :: _ => Some (c :: fst (span (is_not q) r) ++ [e])
            | [] => None
            end
          else None
      | [] => None
      end
  end.

End JS.

(* ================================================================== *)
(** * Tokenizer.js *)
(* ================================================================== *)

Module Tokenizer.
Import JS.

(** ** Tokenizer spec: the ordered rule table *)

Definition Spec : list (RegExp * option jsstring) :=
  [ (* Whitespace *)
    (re_plus is_space, None);
    (* Single-line and multi-line comments *)
    (re_line_comment, None);
    (re_block_comment, None);
    (* Symbols and delimiters *)
    (re_lit (str ";"), Some (str ";"));
    (re_lit (str "{"), Some (str "{"));
    (re_lit (str "}"), Some (str "}"));
    (re_lit (str "("), Some (str "("));
    (re_lit (str ")"), Some (str ")"));
    (re_lit (str "["), Some (str "["));
    (re_lit (str "]"), Some (str "]"));
    (re_lit (str ","), Some (str ","));
    (re_lit (str "."), Some (str "."));
    (* Relational and equality operators *)
    (re_cls_opt (is_one_of (str "<>")) 61, Some (str "RELATIONAL_OPERATOR"));
    (re_cls_lit (is_one_of (str "=!")) 61, Some (str "EQUALITY_OPERATOR"));
    (* Logical operators *)
    (re_lit (str "&&"), Some (str "LOGICAL_AND"));
    (re_lit (str "||"), Some (str "LOGICAL_OR"));
    (re_lit (str "!"), Some (str "LOGICAL_NOT"));
    (* Keywords *)
    (re_word (str "let"), Some (str "let"));
    (re_word (str "if"), Some (str "if"));
    (re_word (str "else"), Some (str "else"));
    (re_word (str "true"), Some (str "true"));
    (re_word (str "false"), Some (str "false"));
    (re_word (str "null"), Some (str "null"));
    (* OOP keywords *)
    (re_word (str "class"), Some (str "class"));
    (re_word (str "this"), Some (str "this"));
    (re_word (str "extends"), Some (str "extends"));
    (re_word (str "super"), Some (str "super"));
    (re_word (str "new"), Some (str "new"));
    (* Iterators *)
    (re_word (str "while"), Some (str "while"));
    (re_word (str "do"), Some (str "do"));
    (re_word (str "for"), Some (str "for"));
    (re_word (str "def"), Some (str "def"));
    (re_word (str "return"), Some (str "return"));
    (* Assignment operators; the class of the second one is
       [\*\\/\+\-]: star, backslash, slash, plus, minus *)
    (re_lit (str "="), Some (str "SIMPLE_ASSIGN"));
    (re_cls_lit (is_one_of [42; 92; 47; 43; 45]%N) 61,
      Some (str "COMPLEX_ASSIGN"));
    (* Math operators *)
    (re_cls (is_one_of (str "+-")), Some (str "ADDITIVE_OPERATOR"));
    (re_cls (is_one_of (str "*/")), Some (str "MULTIPLICATIVE_OPERATOR"));
    (* Numbers *)
    (re_plus is_digit, Some (str "NUMBER"));
    (* Double and single quoted strings *)
    (re_quoted 34, Some (str "STRING"));
    (re_quoted 39, Some (str "STRING"));
    (* Identifier *)
    (re_plus is_word, Some (str "IDENTIFIER")) ].

(** ** The tokenizer object *)

Record Token : Type := mkToken { type : jsstring; value : jsstring }.

Record Tokenizer : Type := mkTokenizer { _string : jsstring; _cursor : nat }.

Definition init (string : jsstring) : Tokenizer :=
  {| _string := string; _cursor := 0 |}.

Definition isEOF (t : Tokenizer) : bool :=
  _cursor t =? length (_string t).

Definition hasMoreTokens (t : Tokenizer) : bool :=
  _cursor t <? length (_string t).

(** [_match]: on a match the cursor moves past it. *)
Definition _match (regexp : RegExp) (string : jsstring) (t : Tokenizer)
  : option jsstring * Tokenizer :=
  match exec regexp string with
  | None => (None, t)
  | Some matched =>
      (Some matched,
       {| _string := _string t; _cursor := _cursor t + length matched |})
  end.

(** The message [`Unexpected token: "${string[0]}"`]. *)
Definition unexpected_token (string : jsstring) : jsstring :=
  str "Unexpected token: " ++ [34%N]
    ++ match string with c :: _ => [c] | [] => str "undefined" end
    ++ [34%N].

(** The [for ... of Spec] loop of [getNextToken]; [self] is the
    recursive call made after a skipped match. *)
Fixpoint scan_rules
    (self : Tokenizer -> Completion (option Token) * Tokenizer)
    (rules : list (RegExp * option jsstring))
    (string : jsstring) (t : Tokenizer)
  : Completion (option Token) * Tokenizer :=
  match rules with
  | [] => (Throw (SyntaxError (unexpected_token string)), t)
  | (regexp, tokenType) :: rules' =>
      match _match regexp string t with
      | (None, t') => scan_rules self rules' string t'
      | (Some tokenValue, t') =>
          match tokenType with
          | None => self t'
          | Some ty =>
              (Return (Some {| type := ty; value := tokenValue |}), t')
          end
      end
  end.

Fixpoint getNextToken_fuel (fuel : nat) (t : Tokenizer)
  : Completion (option Token) * Tokenizer :=
  if negb (hasMoreTokens t) then (Return None, t)
  else
    match fuel with
    | 0 => (OutOfFuel, t)
    | S fuel' =>
        scan_rules (getNextToken_fuel fuel') Spec
          (slice (_string t) (_cursor t)) t
    end.

(** Every recursive call follows a match of at least one character, so
    the number of characters left is fuel enough (see
    [getNextToken_unfold] and [getNextToken_total]). *)
Definition getNextToken (t : Tokenizer)
  : Completion (option Token) * Tokenizer :=
  getNextToken_fuel (length (_string t) - _cursor t) t.

(** The driver's loop: all tokens up to the end-of-input sentinel. *)
Fixpoint tokens_fuel (fuel : nat) (t : Tokenizer)
  : Completion (list Token) :=
  match fuel with
  | 0 => OutOfFuel
  | S fuel' =>
      match getNextToken t with
      | (Return None, _) => Return []
      | (Return (Some token), t') =>
          match tokens_fuel fuel' t' with
          | Return l => Return (token :: l)
          | Throw e => Throw e
          | OutOfFuel => OutOfFuel
          end
      | (Throw e, _) => Throw e
      | (OutOfFuel, _) => OutOfFuel
      end
  end.

(** Each token takes at least one character: one call more than there
    are characters reaches the sentinel. *)
Definition tokenize (string : jsstring) : Completion (list Token) :=
  tokens_fuel (S (length string)) (init string).

(** ** Definitions used to state the tokenizer's properties *)

(** The characters not yet scanned: [_string.slice(_cursor)]. *)
Definition rest (t : Tokenizer) : jsstring :=
  slice (_string t) (_cursor t).

(** The tokenizer after a match [m]. *)
Definition moved (t : Tokenizer) (m : jsstring) : Tokenizer :=
  {| _string := _string t; _cursor := _cursor t + length m |}.

(** The first rule of a table that matches a text, as the pair of the
    matched prefix and the rule's token type. *)
Fixpoint first_match (rules : list (RegExp * option jsstring))
    (string : jsstring) : option (jsstring * option jsstring) :=
  match rules with
  | [] => None
  | (regexp, tokenType) :: rules' =>
      match exec regexp string with
      | Some m => Some (m, tokenType)
      | None => first_match rules' string
      end
  end.

(** The tokenizer left behind by [n] calls of [getNextToken]. *)
Fixpoint after_calls (n : nat) (t : Tokenizer) : Tokenizer :=
  match n with
  | 0 => t
  | S n' => snd (getNextToken (after_calls n' t))
  end.

(** [s.slice(from, to)] for [0 <= from <= to]. *)
Definition substring (s : jsstring) (from to : nat) : jsstring :=
  firstn (to - from) (skipn from s).

(** A text has no ["*/"] in it. *)
Definition no_close (body : jsstring) : Prop :=
  forall a b, body <> a ++ [42; 47]%N ++ b.

(** Texts made of white space and comments only.  A line comment runs
    to the end of its line, a block comment to the first ["*/"]. *)
Inductive Skippable : jsstring -> Prop :=
| skip_nothing : Skippable []
| skip_space c r :
    is_space c = true ->
    Skippable r ->
    Skippable (c :: r)
| skip_line_comment body r :
    forallb is_dot body = true ->
    match r with [] => True | c :: _ => is_line_terminator c = true end ->
    Skippable r ->
    Skippable ([47; 47]%N ++ body ++ r)
| skip_block_comment body r :
    no_close body ->
    Skippable r ->
    Skippable ([47; 42]%N ++ body ++ [42; 47]%N ++ r).

(** A text as the tokens found in it and the skipped parts before,
    between and after them. *)
Inductive Interleaves : list Token -> jsstring -> Prop :=
| interleaves_end skipped :
    Skippable skipped ->
    Interleaves [] skipped
| interleaves_token skipped token tokens r :
    Skippable skipped ->
    value token <> [] ->
    first_match Spec (value token ++ r)
    = Some (value token, Some (type token)) ->
    Interleaves tokens r ->
    Interleaves (token :: tokens) (skipped ++ value token ++ r).

(** The tokens that the calls of [getNextToken] give from a tokenizer
    on, up to the end-of-input sentinel. *)
Inductive stream : Tokenizer -> list Token -> Prop :=
| stream_end t :
    fst (getNextToken t) = Return None ->
    stream t []
| stream_token t token tokens :
    fst (getNextToken t) = Return (Some token) ->
    stream (snd (getNextToken t)) tokens ->
    stream t (token :: tokens).

(** The words of the keyword rules, in the order of the table. *)
Definition keywords : list string :=
  [ "let"; "if"; "else"; "true"; "false"; "null";
    "class"; "this"; "extends"; "super"; "new";
    "while"; "do"; "for"; "def"; "return" ]%string.

(** The first character of a text is [d]. *)
Definition next_is (d : N) (r : jsstring) : bool :=
  match r with e :: _ => (e =? d)%N | [] => false end.

(** The text starts at a word boundary's far side: it is empty or its
    first character is not a word character. *)
Definition not_word_next (r : jsstring) : Prop :=
  match r with [] => True | c :: _ => is_word c = false end.

End Tokenizer.

(* ================================================================== *)
(** * Parser.js *)
(* ================================================================== *)

Module Parser.
Import JS.

(** ** AST nodes: plain JavaScript objects

    A node is an object literal; its fields are kept in the order the
    literal lists them, so that a field the literal leaves out is
    absent here too. *)

#[warnings="-register-all"]
Inductive value : Type :=
| Null
| Bool (b : bool)
| Num (n : N)
| Str (s : jsstring)
| Arr (elements : list value)
| Obj (fields : list (string * value)).

(** [node ty fields] is [{ type: ty, ...fields }]. *)
Definition node (ty : string) (fields : list (string * value)) : value :=
  Obj (("type"%string, Str (str ty)) :: fields).

(** [v[key]]; [None] is [undefined]. *)
Fixpoint lookup (key : string) (fields : list (string * value))
  : option value :=
  match fields with
  | [] => None
  | (k, v) :: rest => if String.eqb k key then Some v else lookup key rest
  end.

Definition get (key : string) (v : value) : option value :=
  match v with
  | Obj fields => lookup key fields
  | _ => None
  end.

(** [Number(digits)] for a non-empty run of decimal digits (exact below
    2^53, where JavaScript numbers are). *)
Definition Number (digits : jsstring) : N :=
  fold_left (fun acc c => (10 * acc + (c - 48))%N) digits 0%N.

(** [s.slice(1, -1)] *)
Definition slice_1_m1 (s : jsstring) : jsstring :=
  removelast (tl s).

(** ** The parser object and its monad *)

Record Parser : Type := mkParser {
  _string : jsstring;
  _tokenizer : Tokenizer.Tokenizer;
  _lookahead : option Tokenizer.Token
}.

Definition M (A : Type) : Type := Parser -> Completion (A * Parser).

Definition ret {A} (a : A) : M A := fun p => Return (a, p).

Definition bind {A B} (m : M A) (k : A -> M B) : M B :=
  fun p =>
    match m p with
    | Return (a, p') => k a p'
    | Throw e => Throw e
    | OutOfFuel => OutOfFuel
    end.

Definition throw {A} (e : Error) : M A := fun _ => Throw e.

Definition out_of_fuel {A} : M A := fun _ => OutOfFuel.

Declare Scope parser_scope.
Delimit Scope parser_scope with parser.
Notation "x <- m ;; k" := (bind m (fun x => k))
  (at level 61, m at next level, right associativity) : parser_scope.
Notation "m ;; k" := (bind m (fun _ => k))
  (at level 61, right associativity) : parser_scope.
Notation "a === b" := (jsstring_eqb a (str b)) (at level 70) : parser_scope.
Local Open Scope parser_scope.

(** [this._lookahead] *)
Definition lookahead : M (option Tokenizer.Token) :=
  fun p => Return (_lookahead p, p).

(** [this._lookahead.type]: a [TypeError] when the lookahead is [null]. *)
Definition lookahead_type : M jsstring :=
  la <- lookahead ;;
  match la with
  | Some token => ret (Tokenizer.type token)
  | None => throw TypeError
  end.

(** [this._lookahead = this._tokenizer.getNextToken()] *)
Definition advance : M unit :=
  fun p =>
    match Tokenizer.getNextToken (_tokenizer p) with
    | (Return next, t') =>
        Return (tt, {| _string := _string p;
                       _tokenizer := t';
                       _lookahead := next |})
    | (Throw e, _) => Throw e
    | (OutOfFuel, _) => OutOfFuel
    end.

Definition quoted (s : jsstring) : jsstring := [34%N] ++ s ++ [34%N].

(** Expects a token of a given type. *)
Definition _eat (tokenType : jsstring) : M Tokenizer.Token :=
  la <- lookahead ;;
  match la with
  | None =>
      throw (SyntaxError
               (str "Unexpected end of input, expected: " ++ quoted tokenType))
  | Some token =>
      if negb (jsstring_eqb (Tokenizer.type token) tokenType) then
        throw (SyntaxError
                 (str "Unexpected token: " ++ quoted (Tokenizer.value token)
                  ++ str ", expected: " ++ quoted tokenType))
      else
        advance ;;
        ret token
  end.

Definition eat (tokenType : string) : M Tokenizer.Token :=
  _eat (str tokenType).

(** ** Productions that call no other production *)

Definition Identifier : M value :=
  token <- eat "IDENTIFIER" ;;
  ret (node "Identifier" [("name"%string, Str (Tokenizer.value token))]).

Definition EmptyStatement : M value :=
  eat ";" ;;
  ret (node "EmptyStatement" []).

Definition ClassExtends : M value :=
  eat "extends" ;;
  Identifier.

Definition ThisExpression : M value :=
  eat "this" ;;
  ret (node "ThisExpression" []).

Definition Super : M value :=
  eat "super" ;;
  ret (node "Super" []).

Definition _isLiteral (tokenType : jsstring) : bool :=
  (tokenType === "NUMBER") || (tokenType === "STRING")
  || (tokenType === "true") || (tokenType === "false")
  || (tokenType === "null").

Definition NumericLiteral : M value :=
  token <- eat "NUMBER" ;;
  ret (node "NumericLiteral"
         [("value"%string, Num (Number (Tokenizer.value token)))]).

Definition StringLiteral : M value :=
  token <- eat "STRING" ;;
  ret (node "StringLiteral"
         [("value"%string, Str (slice_1_m1 (Tokenizer.value token)))]).

Definition BooleanLiteral (b : bool) : M value :=
  eat (if b then "true" else "false") ;;
  ret (node "BooleanLiteral" [("value"%string, Bool b)]).

Definition NullLiteral : M value :=
  eat "null" ;;
  ret (node "NullLiteral" [("value"%string, Null)]).

Definition Literal : M value :=
  ty <- lookahead_type ;;
  if ty === "NUMBER" then NumericLiteral
  else if ty === "STRING" then StringLiteral
  else if ty === "true" then BooleanLiteral true
  else if ty === "false" then BooleanLiteral false
  else if ty === "null" then NullLiteral
  else throw (SyntaxError (str "Literal: unexpected literal production.")).

(** Extra check whether it's a valid assignment target. *)
Definition _checkValidAssignmentTarget (node : value) : M value :=
  match node with
  | Null => throw TypeError
  | _ =>
      match get "type" node with
      | Some (Str ty) =>
          if (ty === "Identifier") || (ty === "MemberExpression")
          then ret node
          else throw (SyntaxError
                        (str "Invalid left-hand side in assignment expression"))
      | _ =>
          throw (SyntaxError
                   (str "Invalid left-hand side in assignment expression"))
      end
  end.

(** Whether the token is an assignment operator. *)
Definition _isAssignmentOperator (tokenType : jsstring) : bool :=
  (tokenType === "SIMPLE_ASSIGN") || (tokenType === "COMPLEX_ASSIGN").

Definition AssignmentOperator : M Tokenizer.Token :=
  ty <- lookahead_type ;;
  if ty === "SIMPLE_ASSIGN" then eat "SIMPLE_ASSIGN"
  else eat "COMPLEX_ASSIGN".

(** [do { params.push(this.Identifier()) }
     while (this._lookahead.type === ',' && this._eat(','))] *)
Fixpoint FormalParameterList_do (fuel : nat) (params : list value)
  {struct fuel} : M (list value) :=
  match fuel with
  | 0 => out_of_fuel
  | S fuel =>
      id <- Identifier ;;
      let params := params ++ [id] in
      ty <- lookahead_type ;;
      if ty === "," then eat "," ;; FormalParameterList_do fuel params
      else ret params
  end.

Definition FormalParameterList (fuel : nat) : M (list value) :=
  FormalParameterList_do fuel [].

(** ** The recursive productions

    One function per method.  A [while] or [do ... while] loop of a
    method is the function named after it with the suffix [_while] or
    [_do]; it carries the variable the loop updates.  The productions
    of expressions call one another, and so do those of statements;
    each such call costs one unit of fuel.  The productions in between
    are not recursive and pass their fuel on. *)

(** *** Expressions *)

Fixpoint Expression (fuel : nat) {struct fuel} : M value :=
  match fuel with
  | 0 => out_of_fuel
  | S fuel => AssignmentExpression fuel
  end

with AssignmentExpression (fuel : nat) {struct fuel} : M value :=
  match fuel with
  | 0 => out_of_fuel
  | S fuel =>
      left <- LogicalORExpression fuel ;;
      ty <- lookahead_type ;;
      if negb (_isAssignmentOperator ty) then ret left
      else
        operator <- AssignmentOperator ;;
        target <- _checkValidAssignmentTarget left ;;
        right <- AssignmentExpression fuel ;;
        ret (node "AssignmentExpression"
               [("operator"%string, Str (Tokenizer.value operator));
                ("left"%string, target);
                ("right"%string, right)])
  end

with LogicalORExpression (fuel : nat) {struct fuel} : M value :=
  match fuel with
  | 0 => out_of_fuel
  | S fuel =>
      left <- LogicalANDExpression fuel ;;
      LogicalORExpression_while fuel left
  end

with LogicalORExpression_while (fuel : nat) (left : value) {struct fuel} : M value :=
  match fuel with
  | 0 => out_of_fuel
  | S fuel =>
      ty <- lookahead_type ;;
      if ty === "LOGICAL_OR" then
        operator <- eat "LOGICAL_OR" ;;
        right <- LogicalANDExpression fuel ;;
        LogicalORExpression_while fuel
          (node "LogicalExpression"
             [("operator"%string, Str (Tokenizer.value operator));
              ("left"%string, left);
              ("right"%string, right)])
      else ret left
  end

with LogicalANDExpression (fuel : nat) {struct fuel} : M value :=
  match fuel with
  | 0 => out_of_fuel
  | S fuel =>
      left <- EqualityExpression fuel ;;
      LogicalANDExpression_while fuel left
  end

with LogicalANDExpression_while (fuel : nat) (left : value) {struct fuel} : M value :=
  match fuel with
  | 0 => out_of_fuel
  | S fuel =>
      ty <- lookahead_type ;;
      if ty === "LOGICAL_AND" then
        operator <- eat "LOGICAL_AND" ;;
        right <- EqualityExpression fuel ;;
        LogicalANDExpression_while fuel
          (node "LogicalExpression"
             [("operator"%string, Str (Tokenizer.value operator));
              ("left"%string, left);
              ("right"%string, right)])
      else ret left
  end

with EqualityExpression (fuel : nat) {struct fuel} : M value :=
  match fuel with
  | 0 => out_of_fuel
  | S fuel =>
      left <- RelationalExpression fuel ;;
      EqualityExpression_while fuel left
  end

with EqualityExpression_while (fuel : nat) (left : value) {struct fuel} : M value :=
  match fuel with
  | 0 => out_of_fuel
  | S fuel =>
      ty <- lookahead_type ;;
      if ty === "EQUALITY_OPERATOR" then
        operator <- eat "EQUALITY_OPERATOR" ;;
        right <- RelationalExpression fuel ;;
        EqualityExpression_while fuel
          (node "BinaryExpression"
             [("operator"%string, Str (Tokenizer.value operator));
              ("right"%string, right)])
      else ret left
  end

with RelationalExpression (fuel : nat) {struct fuel} : M value :=
  match fuel with
  | 0 => out_of_fuel
  | S fuel =>
      left <- AdditiveExpression fuel ;;
      RelationalExpression_while fuel left
  end

with RelationalExpression_while (fuel : nat) (left : value) {struct fuel} : M value :=
  match fuel with
  | 0 => out_of_fuel
  | S fuel =>
      ty <- lookahead_type ;;
      if ty === "RELATIONAL_OPERATOR" then
        operator <- eat "RELATIONAL_OPERATOR" ;;
        right <- AdditiveExpression fuel ;;
        RelationalExpression_while fuel
          (node "BinaryExpression"
             [("operator"%string, Str (Tokenizer.value operator));
              ("left"%string, left);
              ("right"%string, right)])
      else ret left
  end

with AdditiveExpression (fuel : nat) {struct fuel} : M value :=
  match fuel with
  | 0 => out_of_fuel
  | S fuel =>
      left <- MultiplicativeExpression fuel ;;
      AdditiveExpression_while fuel left
  end

with AdditiveExpression_while (fuel : nat) (left : value) {struct fuel} : M value :=
  match fuel with
  | 0 => out_of_fuel
  | S fuel =>
      ty <- lookahead_type ;;
      if ty === "ADDITIVE_OPERATOR" then
        operator <- eat "ADDITIVE_OPERATOR" ;;
        right <- MultiplicativeExpression fuel ;;
        AdditiveExpression_while fuel
          (node "BinaryExpression"
             [("operator"%string, Str (Tokenizer.value operator));
              ("left"%string, left);
              ("right"%string, right)])
      else ret left
  end

with MultiplicativeExpression (fuel : nat) {struct fuel} : M value :=
  match fuel with
  | 0 => out_of_fuel
  | S fuel =>
      left <- UnaryExpression fuel ;;
      MultiplicativeExpression_while fuel left
  end

with MultiplicativeExpression_while (fuel : nat) (left : value) {struct fuel} : M value :=
  match fuel with
  | 0 => out_of_fuel
  | S fuel =>
      ty <- lookahead_type ;;
      if ty === "MULTIPLICATIVE_OPERATOR" then
        operator <- eat "MULTIPLICATIVE_OPERATOR" ;;
        right <- UnaryExpression fuel ;;
        MultiplicativeExpression_while fuel
          (node "BinaryExpression"
             [("operator"%string, Str (Tokenizer.value operator));
              ("left"%string, left);
              ("right"%string, right)])
      else ret left
  end

with UnaryExpression (fuel : nat) {struct fuel} : M value :=
  match fuel with
  | 0 => out_of_fuel
  | S fuel =>
      ty <- lookahead_type ;;
      operator <-
        (if ty === "ADDITIVE_OPERATOR" then
           token <- eat "ADDITIVE_OPERATOR" ;;
           ret (Some (Tokenizer.value token))
         else if ty === "LOGICAL_NOT" then
           token <- eat "LOGICAL_NOT" ;;
           ret (Some (Tokenizer.value token))
         else ret None) ;;
      match operator with
      | Some operator =>
          argument <- UnaryExpression fuel ;;
          ret (node "UnaryExpression"
                 [("operator"%string, Str operator);
                  ("argument"%string, argument)])
      | None => LeftHandSideExpression fuel
      end
  end

with LeftHandSideExpression (fuel : nat) {struct fuel} : M value :=
  match fuel with
  | 0 => out_of_fuel
  | S fuel => CallMemberExpression fuel
  end

with CallMemberExpression (fuel : nat) {struct fuel} : M value :=
  match fuel with
  | 0 => out_of_fuel
  | S fuel =>
      ty <- lookahead_type ;;
      if ty === "super" then
        callee <- Super ;;
        _CallExpression fuel callee
      else
        member <- MemberExpression fuel ;;
        ty <- lookahead_type ;;
        if ty === "(" then _CallExpression fuel member
        else ret member
  end

with _CallExpression (fuel : nat) (callee : value) {struct fuel} : M value :=
  match fuel with
  | 0 => out_of_fuel
  | S fuel =>
      arguments <- Arguments fuel ;;
      let callExpression :=
        node "CallExpression"
          [("callee"%string, callee); ("arguments"%string, Arr arguments)] in
      ty <- lookahead_type ;;
      if ty === "(" then _CallExpression fuel callExpression
      else ret callExpression
  end

with Arguments (fuel : nat) {struct fuel} : M (list value) :=
  match fuel with
  | 0 => out_of_fuel
  | S fuel =>
      eat "(" ;;
      ty <- lookahead_type ;;
      argumentList <- (if negb (ty === ")") then ArgumentList fuel
                       else ret []) ;;
      eat ")" ;;
      ret argumentList
  end

with ArgumentList (fuel : nat) {struct fuel} : M (list value) :=
  match fuel with
  | 0 => out_of_fuel
  | S fuel => ArgumentList_do fuel []
  end

with ArgumentList_do (fuel : nat) (argumentList : list value)
  {struct fuel} : M (list value) :=
  match fuel with
  | 0 => out_of_fuel
  | S fuel =>
      argument <- AssignmentExpression fuel ;;
      let argumentList := argumentList ++ [argument] in
      ty <- lookahead_type ;;
      if ty === "," then eat "," ;; ArgumentList_do fuel argumentList
      else ret argumentList
  end

with MemberExpression (fuel : nat) {struct fuel} : M value :=
  match fuel with
  | 0 => out_of_fuel
  | S fuel =>
      object <- PrimaryExpression fuel ;;
      MemberExpression_while fuel object
  end

with MemberExpression_while (fuel : nat) (object : value) {struct fuel} : M value :=
  match fuel with
  | 0 => out_of_fuel
  | S fuel =>
      ty <- lookahead_type ;;
      if (ty === ".") || (ty === "[") then
        if ty === "." then
          eat "." ;;
          property <- Identifier ;;
          MemberExpression_while fuel
            (node "MemberExpression"
               [("computed"%string, Bool false);
                ("object"%string, object);
                ("property"%string, property)])
        else
          eat "[" ;;
          property <- Expression fuel ;;
          eat "]" ;;
          MemberExpression_while fuel
            (node "MemberExpression"
               [("computed"%string, Bool true);
                ("object"%string, object);
                ("property"%string, property)])
      else ret object
  end

with PrimaryExpression (fuel : nat) {struct fuel} : M value :=
  match fuel with
  | 0 => out_of_fuel
  | S fuel =>
      ty <- lookahead_type ;;
      if _isLiteral ty then Literal
      else if ty === "(" then ParenthesizedExpression fuel
      else if ty === "IDENTIFIER" then Identifier
      else if ty === "this" then ThisExpression
      else if ty === "new" then NewExpression fuel
      else throw (SyntaxError (str "Unexpected primary expression."))
  end

with NewExpression (fuel : nat) {struct fuel} : M value :=
  match fuel with
  | 0 => out_of_fuel
  | S fuel =>
      eat "new" ;;
      callee <- MemberExpression fuel ;;
      arguments <- Arguments fuel ;;
      ret (node "NewExpression"
             [("callee"%string, callee); ("arguments"%string, Arr arguments)])
  end

with ParenthesizedExpression (fuel : nat) {struct fuel} : M value :=
  match fuel with
  | 0 => out_of_fuel
  | S fuel =>
      eat "(" ;;
      expression <- Expression fuel ;;
      eat ")" ;;
      ret expression
  end.

(** *** Declarations and the statements made of expressions only *)

Definition VariableInitializer (fuel : nat) : M value :=
  eat "SIMPLE_ASSIGN" ;;
  AssignmentExpression fuel.

Definition VariableDeclaration (fuel : nat) : M value :=
  id <- Identifier ;;
  ty <- lookahead_type ;;
  init <- (if negb (ty === ";") && negb (ty === ",")
           then VariableInitializer fuel else ret Null) ;;
  ret (node "VariableDeclaration"
         [("id"%string, id); ("init"%string, init)]).

Fixpoint VariableDeclarationList_do (fuel : nat) (declarations : list value)
  {struct fuel} : M (list value) :=
  match fuel with
  | 0 => out_of_fuel
  | S fuel =>
      declaration <- VariableDeclaration fuel ;;
      let declarations := declarations ++ [declaration] in
      ty <- lookahead_type ;;
      if ty === "," then eat "," ;; VariableDeclarationList_do fuel declarations
      else ret declarations
  end.

Definition VariableDeclarationList (fuel : nat) : M (list value) :=
  VariableDeclarationList_do fuel [].

Definition VariableStatementInit (fuel : nat) : M value :=
  eat "let" ;;
  declarations <- VariableDeclarationList fuel ;;
  ret (node "VariableStatement"
         [("declarations"%string, Arr declarations)]).

Definition VariableStatement (fuel : nat) : M value :=
  variableStatement <- VariableStatementInit fuel ;;
  eat ";" ;;
  ret variableStatement.

Definition ForStatementInit (fuel : nat) : M value :=
  ty <- lookahead_type ;;
  if ty === "let" then VariableStatementInit fuel
  else Expression fuel.

Definition ReturnStatement (fuel : nat) : M value :=
  eat "return" ;;
  ty <- lookahead_type ;;
  argument <- (if negb (ty === ";") then Expression fuel else ret Null) ;;
  eat ";" ;;
  ret (node "ReturnStatement" [("argument"%string, argument)]).

Definition ExpressionStatement (fuel : nat) : M value :=
  expression <- Expression fuel ;;
  eat ";" ;;
  ret (node "ExpressionStatement" [("expression"%string, expression)]).

(** *** Statements *)

Fixpoint StatementList (fuel : nat) (stopLookAhead : option jsstring)
  {struct fuel} : M (list value) :=
  match fuel with
  | 0 => out_of_fuel
  | S fuel =>
      first <- Statement fuel ;;
      StatementList_while fuel stopLookAhead [first]
  end

with StatementList_while (fuel : nat) (stopLookAhead : option jsstring)
    (statementList : list value) {struct fuel} : M (list value) :=
  match fuel with
  | 0 => out_of_fuel
  | S fuel =>
      la <- lookahead ;;
      match la with
      | None => ret statementList
      | Some token =>
          if match stopLookAhead with
             | None => true
             | Some stop => negb (jsstring_eqb (Tokenizer.type token) stop)
             end
          then
            next <- Statement fuel ;;
            StatementList_while fuel stopLookAhead (statementList ++ [next])
          else ret statementList
      end
  end

with Statement (fuel : nat) {struct fuel} : M value :=
  match fuel with
  | 0 => out_of_fuel
  | S fuel =>
      ty <- lookahead_type ;;
      if ty === "{" then BlockStatement fuel
      else if ty === ";" then EmptyStatement
      else if ty === "let" then VariableStatement fuel
      else if ty === "if" then IfStatement fuel
      else if ty === "def" then FunctionDeclaration fuel
      else if ty === "return" then ReturnStatement fuel
      else if ty === "class" then ClassDeclaration fuel
      else if (ty === "while") || (ty === "do") || (ty === "for")
      then IterationStatement fuel
      else ExpressionStatement fuel
  end

with IfStatement (fuel : nat) {struct fuel} : M value :=
  match fuel with
  | 0 => out_of_fuel
  | S fuel =>
      eat "if" ;;
      eat "(" ;;
      test <- Expression fuel ;;
      eat ")" ;;
      consequent <- Statement fuel ;;
      la <- lookahead ;;
      alternate <-
        match la with
        | Some token =>
            if Tokenizer.type token === "else"
            then eat "else" ;; Statement fuel
            else ret Null
        | None => ret Null
        end ;;
      ret (node "IfStatement"
             [("test"%string, test);
              ("consequent"%string, consequent);
              ("alternate"%string, alternate)])
  end

with FunctionDeclaration (fuel : nat) {struct fuel} : M value :=
  match fuel with
  | 0 => out_of_fuel
  | S fuel =>
      eat "def" ;;
      name <- Identifier ;;
      eat "(" ;;
      ty <- lookahead_type ;;
      params <- (if negb (ty === ")") then FormalParameterList fuel
                 else ret []) ;;
      eat ")" ;;
      body <- BlockStatement fuel ;;
      ret (node "FunctionDeclaration"
             [("name"%string, name);
              ("params"%string, Arr params);
              ("body"%string, body)])
  end

with ClassDeclaration (fuel : nat) {struct fuel} : M value :=
  match fuel with
  | 0 => out_of_fuel
  | S fuel =>
      eat "class" ;;
      id <- Identifier ;;
      ty <- lookahead_type ;;
      superClass <- (if ty === "extends" then ClassExtends else ret Null) ;;
      body <- BlockStatement fuel ;;
      ret (node "ClassDeclaration"
             [("id"%string, id);
              ("superClass"%string, superClass);
              ("body"%string, body)])
  end

with IterationStatement (fuel : nat) {struct fuel} : M value :=
  match fuel with
  | 0 => out_of_fuel
  | S fuel =>
      ty <- lookahead_type ;;
      if ty === "while" then WhileStatement fuel
      else if ty === "do" then DoStatement fuel
      else if ty === "for" then ForStatement fuel
      else ret Null
  end

with WhileStatement (fuel : nat) {struct fuel} : M value :=
  match fuel with
  | 0 => out_of_fuel
  | S fuel =>
      eat "while" ;;
      eat "(" ;;
      test <- Expression fuel ;;
      eat ")" ;;
      body <- Statement fuel ;;
      ret (node "WhileStatement"
             [("test"%string, test); ("body"%string, body)])
  end

with DoStatement (fuel : nat) {struct fuel} : M value :=
  match fuel with
  | 0 => out_of_fuel
  | S fuel =>
      eat "do" ;;
      body <- Statement fuel ;;
      eat "while" ;;
      eat "(" ;;
      test <- Expression fuel ;;
      eat ")" ;;
      eat ";" ;;
      ret (node "DoStatement"
             [("body"%string, body); ("test"%string, test)])
  end

with ForStatement (fuel : nat) {struct fuel} : M value :=
  match fuel with
  | 0 => out_of_fuel
  | S fuel =>
      eat "for" ;;
      eat "(" ;;
      ty <- lookahead_type ;;
      init <- (if negb (ty === ";") then ForStatementInit fuel
               else ret Null) ;;
      eat ";" ;;
      ty <- lookahead_type ;;
      test <- (if negb (ty === ";") then Expression fuel else ret Null) ;;
      eat ";" ;;
      ty <- lookahead_type ;;
      update <- (if negb (ty === ")") then Expression fuel else ret Null) ;;
      eat ")" ;;
      body <- Statement fuel ;;
      ret (node "ForStatement"
             [("init"%string, init);
              ("test"%string, test);
              ("update"%string, update);
              ("body"%string, body)])
  end

with BlockStatement (fuel : nat) {struct fuel} : M value :=
  match fuel with
  | 0 => out_of_fuel
  | S fuel =>
      eat "{" ;;
      ty <- lookahead_type ;;
      body <- (if negb (ty === "}") then StatementList fuel (Some (str "}"))
               else ret []) ;;
      eat "}" ;;
      ret (node "BlockStatement" [("body"%string, Arr body)])
  end.

(** Main entry point. *)
Definition Program (fuel : nat) : M value :=
  body <- StatementList fuel None ;;
  ret (node "Program" [("body"%string, Arr body)]).

(** Parses a string into an AST. *)
Definition parse (fuel : nat) (string : jsstring) : Completion value :=
  match Tokenizer.getNextToken (Tokenizer.init string) with
  | (Return first, tokenizer) =>
      match Program fuel {| _string := string;
                            _tokenizer := tokenizer;
                            _lookahead := first |} with
      | Return (ast, _) => Return ast
      | Throw e => Throw e
      | OutOfFuel => OutOfFuel
      end
  | (Throw e, _) => Throw e
  | (OutOfFuel, _) => OutOfFuel
  end.

(** ** Definitions used to state the parser's properties

    The object literals of the productions, by name. *)

Definition program (body : list value) : value :=
  node "Program" [("body"%string, Arr body)].

Definition expression_statement (expression : value) : value :=
  node "ExpressionStatement" [("expression"%string, expression)].

Definition identifier (name : string) : value :=
  node "Identifier" [("name"%string, Str (str name))].

Definition numeric_literal (n : N) : value :=
  node "NumericLiteral" [("value"%string, Num n)].

Definition binary_expression (operator : string) (left right : value) : value :=
  node "BinaryExpression"
    [("operator"%string, Str (str operator));
     ("left"%string, left);
     ("right"%string, right)].

(** The object literal of [EqualityExpression]: it has no [left]. *)
Definition equality_expression (operator : string) (right : value) : value :=
  node "BinaryExpression"
    [("operator"%string, Str (str operator));
     ("right"%string, right)].

Definition assignment_expression (operator : string) (left right : value)
  : value :=
  node "AssignmentExpression"
    [("operator"%string, Str (str operator));
     ("left"%string, left);
     ("right"%string, right)].

Definition call_expression (callee : value) (arguments : list value) : value :=
  node "CallExpression"
    [("callee"%string, callee); ("arguments"%string, Arr arguments)].

Definition if_statement (test consequent alternate : value) : value :=
  node "IfStatement"
    [("test"%string, test);
     ("consequent"%string, consequent);
     ("alternate"%string, alternate)].

(** The node kinds an assignment may have on its left. *)
Definition is_assignment_target (v : value) : bool :=
  match get "type" v with
  | Some (Str ty) => (ty === "Identifier") || (ty === "MemberExpression")
  | _ => false
  end.

(** The parser with the cursor at [cursor] in [text] and the lookahead
    [la]. *)
Definition parser_at (text : jsstring) (cursor : nat)
    (la : option Tokenizer.Token) : Parser :=
  {| _string := text;
     _tokenizer := Tokenizer.mkTokenizer text cursor;
     _lookahead := la |}.

Definition token (ty value : string) : option Tokenizer.Token :=
  Some (Tokenizer.mkToken (str ty) (str value)).

(** The statement [if (b) c(); else d();]. *)
Definition if_b_c_else_d : value :=
  if_statement (identifier "b")
    (expression_statement (call_expression (identifier "c") []))
    (expression_statement (call_expression (identifier "d") [])).

(** [n] nested [if (a)] around a statement, none with an [else]. *)
Fixpoint if_a_nest (n : nat) (inner : value) : value :=
  match n with
  | 0 => inner
  | S n' => if_statement (identifier "a") (if_a_nest n' inner) Null
  end.

(** ** Definitions used to state where an [else] goes *)

(** The lookahead is an [else]. *)
Definition else_next (p : Parser) : Prop :=
  exists token,
    _lookahead p = Some token /\ Tokenizer.type token = str "else".

(** A statement whose text ends with an [if] that has no [else]: an
    [else] right after it could be read as belonging to that [if]. *)
Inductive Dangling : value -> Prop :=
| dangling_if test consequent :
    Dangling (if_statement test consequent Null)
| dangling_alternate test consequent alternate :
    Dangling alternate ->
    Dangling (if_statement test consequent alternate)
| dangling_while test body :
    Dangling body ->
    Dangling (node "WhileStatement"
                [("test"%string, test); ("body"%string, body)])
| dangling_for init test update body :
    Dangling body ->
    Dangling (node "ForStatement"
                [("init"%string, init);
                 ("test"%string, test);
                 ("update"%string, update);
                 ("body"%string, body)]).

(** [Inside u v]: the statement [u] is [v] or one of the statements
    inside [v].  (Expressions hold no statements.) *)
Inductive Inside (u : value) : value -> Prop :=
| inside_here : Inside u u
| inside_consequent test consequent alternate :
    Inside u consequent ->
    Inside u (if_statement test consequent alternate)
| inside_alternate test consequent alternate :
    Inside u alternate ->
    Inside u (if_statement test consequent alternate)
| inside_while test body :
    Inside u body ->
    Inside u (node "WhileStatement"
                [("test"%string, test); ("body"%string, body)])
| inside_do body test :
    Inside u body ->
    Inside u (node "DoStatement"
                [("body"%string, body); ("test"%string, test)])
| inside_for init test update body :
    Inside u body ->
    Inside u (node "ForStatement"
                [("init"%string, init);
                 ("test"%string, test);
                 ("update"%string, update);
                 ("body"%string, body)])
| inside_block body statement :
    In statement body -> Inside u statement ->
    Inside u (node "BlockStatement" [("body"%string, Arr body)])
| inside_function name params body :
    Inside u body ->
    Inside u (node "FunctionDeclaration"
                [("name"%string, name);
                 ("params"%string, Arr params);
                 ("body"%string, body)])
| inside_class id superClass body :
    Inside u body ->
    Inside u (node "ClassDeclaration"
                [("id"%string, id);
                 ("superClass"%string, superClass);
                 ("body"%string, body)])
| inside_program body statement :
    In statement body -> Inside u statement ->
    Inside u (program body).

(** Every [else] in the tree is with the nearest [if]: no [if] that
    has an [else] has a consequent that ends with an [if] without one,
    which is nearer to that [else]. *)
Definition Nearest (v : value) : Prop :=
  forall test consequent alternate,
    Inside (if_statement test consequent alternate) v ->
    alternate <> Null ->
    ~ Dangling consequent.

(** A statement [v] returned in the state [q]: it is a node, every
    [else] in it is with the nearest [if], and when an [else] comes
    next it does not end with an [if] that could take it. *)
Definition Settled (v : value) (q : Parser) : Prop :=
  v <> Null /\ Nearest v /\ (else_next q -> ~ Dangling v).

(** ** The shape of the trees

    The nodes the productions can return, as predicates on values:
    [Expr] for expressions, [Stmt] for statements.  The field lists are
    those of the object literals of the source, in their order. *)

Definition IsIdentifier (v : value) : Prop :=
  exists name, v = node "Identifier" [("name"%string, Str name)].

Definition IsSuper (v : value) : Prop := v = node "Super" [].

#[warnings="-register-all"]
Inductive Expr : value -> Prop :=
| Expr_Identifier name :
    Expr (node "Identifier" [("name"%string, Str name)])
| Expr_This :
    Expr (node "ThisExpression" [])
| Expr_Numeric n :
    Expr (node "NumericLiteral" [("value"%string, Num n)])
| Expr_String s :
    Expr (node "StringLiteral" [("value"%string, Str s)])
| Expr_Boolean b :
    Expr (node "BooleanLiteral" [("value"%string, Bool b)])
| Expr_Null :
    Expr (node "NullLiteral" [("value"%string, Null)])
| Expr_New callee arguments :
    Expr callee ->
    Forall Expr arguments ->
    Expr (node "NewExpression"
            [("callee"%string, callee); ("arguments"%string, Arr arguments)])
| Expr_Member_dot object property :
    Expr object ->
    IsIdentifier property ->
    Expr (node "MemberExpression"
            [("computed"%string, Bool false);
             ("object"%string, object);
             ("property"%string, property)])
| Expr_Member_bracket object property :
    Expr object ->
    Expr property ->
    Expr (node "MemberExpression"
            [("computed"%string, Bool true);
             ("object"%string, object);
             ("property"%string, property)])
| Expr_Call callee arguments :
    Expr callee \/ IsSuper callee ->
    Forall Expr arguments ->
    Expr (node "CallExpression"
            [("callee"%string, callee); ("arguments"%string, Arr arguments)])
| Expr_Unary operator argument :
    Expr argument ->
    Expr (node "UnaryExpression"
            [("operator"%string, Str operator);
             ("argument"%string, argument)])
| Expr_Binary operator left right :
    Expr left ->
    Expr right ->
    Expr (node "BinaryExpression"
            [("operator"%string, Str operator);
             ("left"%string, left);
             ("right"%string, right)])
| Expr_Equality operator right :
    Expr right ->
    Expr (node "BinaryExpression"
            [("operator"%string, Str operator);
             ("right"%string, right)])
| Expr_Logical operator left right :
    Expr left ->
    Expr right ->
    Expr (node "LogicalExpression"
            [("operator"%string, Str operator);
             ("left"%string, left);
             ("right"%string, right)])
| Expr_Assignment operator left right :
    Expr left ->
    is_assignment_target left = true ->
    Expr right ->
    Expr (node "AssignmentExpression"
            [("operator"%string, Str operator);
             ("left"%string, left);
             ("right"%string, right)]).

Definition OptExpr (v : value) : Prop := v = Null \/ Expr v.

Definition Decl (v : value) : Prop :=
  exists id init,
    v = node "VariableDeclaration"
          [("id"%string, id); ("init"%string, init)]
    /\ IsIdentifier id /\ OptExpr init.

Definition VarStmt (v : value) : Prop :=
  exists declarations,
    v = node "VariableStatement"
          [("declarations"%string, Arr declarations)]
    /\ declarations <> [] /\ Forall Decl declarations.

#[warnings="-register-all"]
Inductive Stmt : value -> Prop :=
| Stmt_Block body :
    Forall Stmt body ->
    Stmt (node "BlockStatement" [("body"%string, Arr body)])
| Stmt_Empty :
    Stmt (node "EmptyStatement" [])
| Stmt_Expression expression :
    Expr expression ->
    Stmt (node "ExpressionStatement" [("expression"%string, expression)])
| Stmt_Variable v :
    VarStmt v ->
    Stmt v
| Stmt_If test consequent alternate :
    Expr test ->
    Stmt consequent ->
    alternate = Null \/ Stmt alternate ->
    Stmt (node "IfStatement"
            [("test"%string, test);
             ("consequent"%string, consequent);
             ("alternate"%string, alternate)])
| Stmt_While test body :
    Expr test ->
    Stmt body ->
    Stmt (node "WhileStatement"
            [("test"%string, test); ("body"%string, body)])
| Stmt_Do body test :
    Stmt body ->
    Expr test ->
    Stmt (node "DoStatement"
            [("body"%string, body); ("test"%string, test)])
| Stmt_For init test update body :
    init = Null \/ Expr init \/ VarStmt init ->
    OptExpr test ->
    OptExpr update ->
    Stmt body ->
    Stmt (node "ForStatement"
            [("init"%string, init);
             ("test"%string, test);
             ("update"%string, update);
             ("body"%string, body)])
| Stmt_Function name params body :
    IsIdentifier name ->
    Forall IsIdentifier params ->
    Forall Stmt body ->
    Stmt (node "FunctionDeclaration"
            [("name"%string, name);
             ("params"%string, Arr params);
             ("body"%string,
              node "BlockStatement" [("body"%string, Arr body)])])
| Stmt_Return argument :
    OptExpr argument ->
    Stmt (node "ReturnStatement" [("argument"%string, argument)])
| Stmt_Class id superClass body :
    IsIdentifier id ->
    superClass = Null \/ IsIdentifier superClass ->
    Forall Stmt body ->
    Stmt (node "ClassDeclaration"
            [("id"%string, id);
             ("superClass"%string, superClass);
             ("body"%string,
              node "BlockStatement" [("body"%string, Arr body)])]).

Definition IsBlock (v : value) : Prop :=
  exists body,
    v = node "BlockStatement" [("body"%string, Arr body)]
    /\ Forall Stmt body.

(** A [Program] node over at least one statement. *)
Definition IsProgram (v : value) : Prop :=
  exists body, v = program body /\ body <> [] /\ Forall Stmt body.

(** ** Definitions used to state that the parser terminates *)

(** What is left to read: the lookahead and the text behind it. *)
Definition left_to_read (p : Parser) : nat :=
  match _lookahead p with
  | Some _ => S (length (Tokenizer.rest (_tokenizer p)))
  | None => 0
  end.

(** From a state with at most [n] left to read, the computation does
    not run out of fuel, and what it returns and leaves to read
    satisfy [Q]. *)
Definition within {A} (n : nat) (Q : A -> nat -> Prop) (c : M A) : Prop :=
  forall p,
    left_to_read p <= n ->
    c p <> OutOfFuel
    /\ forall a p', c p = Return (a, p') -> Q a (left_to_read p').

(** With more fuel the computation ends as before, if it ended. *)
Definition extends {A} (c c' : M A) : Prop :=
  forall p, c p <> OutOfFuel -> c' p = c p.

(** Fuel that is enough to parse a text. *)
Definition enough_fuel (s : jsstring) : nat := 20 * length s + 16.

(** The computation reads at least one token (resp. reads on), given
    [20 * n + rank] units of fuel for [n] left to read. *)
Definition consumes {A} (rank fuel : nat) (c : M A) : Prop :=
  forall n, 20 * n + rank <= fuel -> within n (fun _ k => k < n) c.

Definition reads_on {A} (rank fuel : nat) (c : M A) : Prop :=
  forall n, 20 * n + rank <= fuel -> within n (fun _ k => k <= n) c.

(** ** Definitions used to state what the parser depends on *)

(** Two runs go the same way: they return the same value in states
    that are related by [R], or throw the same error, of which [E]
    holds. *)
Definition agree_by {A} (R : Parser -> Parser -> Prop) (E : Error -> Prop)
    (c c' : Completion (A * Parser)) : Prop :=
  match c, c' with
  | Return (a, q), Return (a', q') => a = a' /\ R q q'
  | Throw e, Throw e' => e = e' /\ E e
  | OutOfFuel, OutOfFuel => True
  | _, _ => False
  end.

Definition simulates {A} (R : Parser -> Parser -> Prop) (E : Error -> Prop)
    (m : M A) : Prop :=
  forall p p', R p p' -> agree_by R E (m p) (m p').

(** Two parser states with the same lookahead and the same tokens to
    come. *)
Definition same_tokens (p p' : Parser) : Prop :=
  _lookahead p = _lookahead p'
  /\ exists tokens,
       Tokenizer.stream (_tokenizer p) tokens
       /\ Tokenizer.stream (_tokenizer p') tokens.

(** A parser state on the way through a text [s] all of which can be
    tokenized if what is left of it can; a state without lookahead is
    at the end of the text. *)
Definition on_the_way (s : jsstring) (p : Parser) : Prop :=
  (_lookahead p = None ->
   fst (Tokenizer.getNextToken (_tokenizer p)) = Return None)
  /\ ((exists tokens, Tokenizer.stream (_tokenizer p) tokens) ->
      exists tokens, Tokenizer.tokenize s = Return tokens).

Definition same_on_the_way (s : jsstring) (p p' : Parser) : Prop :=
  p = p' /\ on_the_way s p.

(** The whole text has been tokenized when this error is thrown, if it
    is a [TypeError]. *)
Definition TypeError_at_end (s : jsstring) (e : Error) : Prop :=
  e = TypeError -> exists tokens, Tokenizer.tokenize s = Return tokens.

(** ** Definitions used to state which tokens a tree is made of *)

(** [Reads p tokens q]: the state [q] is [p] after the tokens [tokens]
    have been eaten, one after the other. *)
Inductive Reads : Parser -> list Tokenizer.Token -> Parser -> Prop :=
| reads_nothing p : Reads p [] p
| reads_token p token p1 tokens q :
    _lookahead p = Some token ->
    advance p = Return (tt, p1) ->
    Reads p1 tokens q ->
    Reads p (token :: tokens) q.

(** What a computation returns, [P] holds of it and of the tokens that
    were eaten before ([pre]) and by the computation. *)
Definition eats {A} (pre : list Tokenizer.Token)
    (P : A -> list Tokenizer.Token -> Prop) (m : M A) : Prop :=
  forall p a q,
    m p = Return (a, q) ->
    exists tokens, Reads p tokens q /\ P a (pre ++ tokens).

Definition is_a (ty : string) (t : Tokenizer.Token) : Prop :=
  Tokenizer.type t = str ty.

(** A part that may be missing: [null] and no token, or a [Y]. *)
Definition Optional (Y : value -> list Tokenizer.Token -> Prop)
    (v : value) (c : list Tokenizer.Token) : Prop :=
  (v = Null /\ c = []) \/ Y v c.

Definition OptionalList (Y : list value -> list Tokenizer.Token -> Prop)
    (l : list value) (c : list Tokenizer.Token) : Prop :=
  (l = [] /\ c = []) \/ Y l c.

(** A [Y] after a token of type [ty]. *)
Definition After (ty : string) (Y : value -> list Tokenizer.Token -> Prop)
    (v : value) (c : list Tokenizer.Token) : Prop :=
  exists t c', is_a ty t /\ Y v c' /\ c = t :: c'.

(** One [Y] or more, one after the other. *)
Inductive Sequence (Y : value -> list Tokenizer.Token -> Prop)
  : list value -> list Tokenizer.Token -> Prop :=
| sequence_one v c : Y v c -> Sequence Y [v] c
| sequence_more l c v c' :
    Sequence Y l c -> Y v c' -> Sequence Y (l ++ [v]) (c ++ c').

(** One [Y] or more, with a token of type [sep] between two of them. *)
Inductive Separated (Y : value -> list Tokenizer.Token -> Prop)
    (sep : string) : list value -> list Tokenizer.Token -> Prop :=
| separated_one v c : Y v c -> Separated Y sep [v] c
| separated_more l c t v c' :
    Separated Y sep l c -> is_a sep t -> Y v c' ->
    Separated Y sep (l ++ [v]) (c ++ t :: c').

(** The state of a [do ... while] loop over such a list: nothing yet,
    or some elements and a separator. *)
Definition SoFar (Y : value -> list Tokenizer.Token -> Prop) (sep : string)
    (l : list value) (pre : list Tokenizer.Token) : Prop :=
  (l = [] /\ pre = [])
  \/ exists c t, Separated Y sep l c /\ is_a sep t /\ pre = c ++ [t].

Definition IdentifierOf (v : value) (c : list Tokenizer.Token) : Prop :=
  exists t,
    is_a "IDENTIFIER" t
    /\ v = node "Identifier" [("name"%string, Str (Tokenizer.value t))]
    /\ c = [t].

Definition SuperOf (v : value) (c : list Tokenizer.Token) : Prop :=
  exists t, is_a "super" t /\ v = node "Super" [] /\ c = [t].

(** The productions of expressions, from the one that binds tightest
    to the one that binds loosest.  [CallMember] is also the level of
    [LeftHandSideExpression], and [Assignment] that of [Expression]. *)
Inductive Level : Type :=
| Primary | Member | CallMember | Unary | Multiplicative | Additive
| Relational | Equality | LogicalAND | LogicalOR | Assignment.

(** [Below l l']: the production [l'] starts with the production [l]. *)
Inductive Below : Level -> Level -> Prop :=
| below_Member : Below Primary Member
| below_CallMember : Below Member CallMember
| below_Unary : Below CallMember Unary
| below_Multiplicative : Below Unary Multiplicative
| below_Additive : Below Multiplicative Additive
| below_Relational : Below Additive Relational
| below_Equality : Below Relational Equality
| below_LogicalAND : Below Equality LogicalAND
| below_LogicalOR : Below LogicalAND LogicalOR
| below_Assignment : Below LogicalOR Assignment.

(** [ExprOf l v c]: the tree [v] is an expression of the production
    [l] made of the tokens [c], in their order.  These are the rules
    of the grammar in the comments of the source, with the trees that
    the methods build.  Parentheses leave no trace in the tree, and the
    node of an equality has no place for its left operand.  The value
    of a numeric literal is the number that its digits denote as long
    as that is below 2^53; from there on [Number] rounds in the program,
    and the rule leaves the value open. *)
#[warnings="-register-all"]
Inductive ExprOf : Level -> value -> list Tokenizer.Token -> Prop :=
| of_tighter l l' v c :
    Below l l' -> ExprOf l v c ->
    ExprOf l' v c
| of_Identifier v c :
    IdentifierOf v c ->
    ExprOf Primary v c
| of_NumericLiteral t n :
    is_a "NUMBER" t ->
    ((Number (Tokenizer.value t) < 2 ^ 53)%N ->
     n = Number (Tokenizer.value t)) ->
    ExprOf Primary (node "NumericLiteral" [("value"%string, Num n)]) [t]
| of_StringLiteral t :
    is_a "STRING" t ->
    ExprOf Primary
      (node "StringLiteral"
         [("value"%string, Str (slice_1_m1 (Tokenizer.value t)))]) [t]
| of_BooleanLiteral (b : bool) t :
    is_a (if b then "true" else "false") t ->
    ExprOf Primary (node "BooleanLiteral" [("value"%string, Bool b)]) [t]
| of_NullLiteral t :
    is_a "null" t ->
    ExprOf Primary (node "NullLiteral" [("value"%string, Null)]) [t]
| of_ThisExpression t :
    is_a "this" t ->
    ExprOf Primary (node "ThisExpression" []) [t]
| of_ParenthesizedExpression l v c r :
    is_a "(" l -> ExprOf Assignment v c -> is_a ")" r ->
    ExprOf Primary v (l :: c ++ [r])
| of_NewExpression n callee c arguments c' :
    is_a "new" n -> ExprOf Member callee c -> ArgumentsOf arguments c' ->
    ExprOf Primary
      (node "NewExpression"
         [("callee"%string, callee);
          ("arguments"%string, Arr arguments)])
      (n :: c ++ c')
| of_MemberExpression object c d property c' :
    ExprOf Member object c -> is_a "." d -> IdentifierOf property c' ->
    ExprOf Member
      (node "MemberExpression"
         [("computed"%string, Bool false);
          ("object"%string, object);
          ("property"%string, property)])
      (c ++ d :: c')
| of_computed_MemberExpression object c l property c' r :
    ExprOf Member object c -> is_a "[" l ->
    ExprOf Assignment property c' -> is_a "]" r ->
    ExprOf Member
      (node "MemberExpression"
         [("computed"%string, Bool true);
          ("object"%string, object);
          ("property"%string, property)])
      (c ++ l :: c' ++ [r])
| of_CallExpression callee c arguments c' :
    ExprOf CallMember callee c \/ SuperOf callee c ->
    ArgumentsOf arguments c' ->
    ExprOf CallMember
      (node "CallExpression"
         [("callee"%string, callee);
          ("arguments"%string, Arr arguments)])
      (c ++ c')
| of_UnaryExpression t argument c :
    is_a "ADDITIVE_OPERATOR" t \/ is_a "LOGICAL_NOT" t ->
    ExprOf Unary argument c ->
    ExprOf Unary
      (node "UnaryExpression"
         [("operator"%string, Str (Tokenizer.value t));
          ("argument"%string, argument)])
      (t :: c)
| of_MultiplicativeExpression left c t right c' :
    ExprOf Multiplicative left c -> is_a "MULTIPLICATIVE_OPERATOR" t ->
    ExprOf Unary right c' ->
    ExprOf Multiplicative
      (node "BinaryExpression"
         [("operator"%string, Str (Tokenizer.value t));
          ("left"%string, left);
          ("right"%string, right)])
      (c ++ t :: c')
| of_AdditiveExpression left c t right c' :
    ExprOf Additive left c -> is_a "ADDITIVE_OPERATOR" t ->
    ExprOf Multiplicative right c' ->
    ExprOf Additive
      (node "BinaryExpression"
         [("operator"%string, Str (Tokenizer.value t));
          ("left"%string, left);
          ("right"%string, right)])
      (c ++ t :: c')
| of_RelationalExpression left c t right c' :
    ExprOf Relational left c -> is_a "RELATIONAL_OPERATOR" t ->
    ExprOf Additive right c' ->
    ExprOf Relational
      (node "BinaryExpression"
         [("operator"%string, Str (Tokenizer.value t));
          ("left"%string, left);
          ("right"%string, right)])
      (c ++ t :: c')
| of_EqualityExpression left c t right c' :
    ExprOf Equality left c -> is_a "EQUALITY_OPERATOR" t ->
    ExprOf Relational right c' ->
    ExprOf Equality
      (node "BinaryExpression"
         [("operator"%string, Str (Tokenizer.value t));
          ("right"%string, right)])
      (c ++ t :: c')
| of_LogicalANDExpression left c t right c' :
    ExprOf LogicalAND left c -> is_a "LOGICAL_AND" t ->
    ExprOf Equality right c' ->
    ExprOf LogicalAND
      (node "LogicalExpression"
         [("operator"%string, Str (Tokenizer.value t));
          ("left"%string, left);
          ("right"%string, right)])
      (c ++ t :: c')
| of_LogicalORExpression left c t right c' :
    ExprOf LogicalOR left c -> is_a "LOGICAL_OR" t ->
    ExprOf LogicalAND right c' ->
    ExprOf LogicalOR
      (node "LogicalExpression"
         [("operator"%string, Str (Tokenizer.value t));
          ("left"%string, left);
          ("right"%string, right)])
      (c ++ t :: c')
| of_AssignmentExpression left c t right c' :
    ExprOf LogicalOR left c -> is_assignment_target left = true ->
    is_a "SIMPLE_ASSIGN" t \/ is_a "COMPLEX_ASSIGN" t ->
    ExprOf Assignment right c' ->
    ExprOf Assignment
      (node "AssignmentExpression"
         [("operator"%string, Str (Tokenizer.value t));
          ("left"%string, left);
          ("right"%string, right)])
      (c ++ t :: c')

with ArgumentsOf : list value -> list Tokenizer.Token -> Prop :=
| of_Arguments l arguments c r :
    is_a "(" l ->
    OptionalList (Separated (ExprOf Assignment) ",") arguments c ->
    is_a ")" r ->
    ArgumentsOf arguments (l :: c ++ [r]).

Inductive DeclarationOf : value -> list Tokenizer.Token -> Prop :=
| of_VariableDeclaration id c init c' :
    IdentifierOf id c ->
    Optional (After "SIMPLE_ASSIGN" (ExprOf Assignment)) init c' ->
    DeclarationOf (node "VariableDeclaration"
                     [("id"%string, id); ("init"%string, init)])
      (c ++ c').

(** [let] and the declarations, without the [;]. *)
Inductive VariableOf : value -> list Tokenizer.Token -> Prop :=
| of_VariableStatementInit l declarations c :
    is_a "let" l -> Separated DeclarationOf "," declarations c ->
    VariableOf (node "VariableStatement"
                  [("declarations"%string, Arr declarations)])
      (l :: c).

Definition ForInitOf (v : value) (c : list Tokenizer.Token) : Prop :=
  VariableOf v c \/ ExprOf Assignment v c.

(** [StmtOf v c]: the tree [v] is a statement made of the tokens [c]. *)
#[warnings="-register-all"]
Inductive StmtOf : value -> list Tokenizer.Token -> Prop :=
| of_EmptyStatement t :
    is_a ";" t ->
    StmtOf (node "EmptyStatement" []) [t]
| of_ExpressionStatement expression c t :
    ExprOf Assignment expression c -> is_a ";" t ->
    StmtOf (node "ExpressionStatement" [("expression"%string, expression)])
      (c ++ [t])
| of_VariableStatement v c t :
    VariableOf v c -> is_a ";" t ->
    StmtOf v (c ++ [t])
| of_Block v c :
    BlockOf v c ->
    StmtOf v c
| of_IfStatement i l test c r consequent c' alternate c'' :
    is_a "if" i -> is_a "(" l -> ExprOf Assignment test c ->
    is_a ")" r -> StmtOf consequent c' ->
    Optional (After "else" StmtOf) alternate c'' ->
    StmtOf (node "IfStatement"
              [("test"%string, test);
               ("consequent"%string, consequent);
               ("alternate"%string, alternate)])
      (i :: l :: c ++ r :: c' ++ c'')
| of_WhileStatement w l test c r body c' :
    is_a "while" w -> is_a "(" l -> ExprOf Assignment test c ->
    is_a ")" r -> StmtOf body c' ->
    StmtOf (node "WhileStatement"
              [("test"%string, test); ("body"%string, body)])
      (w :: l :: c ++ r :: c')
| of_DoStatement d body c w l test c' r s :
    is_a "do" d -> StmtOf body c -> is_a "while" w -> is_a "(" l ->
    ExprOf Assignment test c' -> is_a ")" r -> is_a ";" s ->
    StmtOf (node "DoStatement"
              [("body"%string, body); ("test"%string, test)])
      (d :: c ++ w :: l :: c' ++ [r; s])
| of_ForStatement f l init c s test c' s' update c'' r body c''' :
    is_a "for" f -> is_a "(" l ->
    Optional ForInitOf init c -> is_a ";" s ->
    Optional (ExprOf Assignment) test c' -> is_a ";" s' ->
    Optional (ExprOf Assignment) update c'' -> is_a ")" r ->
    StmtOf body c''' ->
    StmtOf (node "ForStatement"
              [("init"%string, init);
               ("test"%string, test);
               ("update"%string, update);
               ("body"%string, body)])
      (f :: l :: c ++ s :: c' ++ s' :: c'' ++ r :: c''')
| of_FunctionDeclaration d name c l params c' r body c'' :
    is_a "def" d -> IdentifierOf name c -> is_a "(" l ->
    OptionalList (Separated IdentifierOf ",") params c' -> is_a ")" r ->
    BlockOf body c'' ->
    StmtOf (node "FunctionDeclaration"
              [("name"%string, name);
               ("params"%string, Arr params);
               ("body"%string, body)])
      (d :: c ++ l :: c' ++ r :: c'')
| of_ClassDeclaration k id c superClass c' body c'' :
    is_a "class" k -> IdentifierOf id c ->
    Optional (After "extends" IdentifierOf) superClass c' ->
    BlockOf body c'' ->
    StmtOf (node "ClassDeclaration"
              [("id"%string, id);
               ("superClass"%string, superClass);
               ("body"%string, body)])
      (k :: c ++ c' ++ c'')
| of_ReturnStatement r argument c s :
    is_a "return" r -> Optional (ExprOf Assignment) argument c -> is_a ";" s ->
    StmtOf (node "ReturnStatement" [("argument"%string, argument)])
      (r :: c ++ [s])

with BlockOf : value -> list Tokenizer.Token -> Prop :=
| of_BlockStatement l body c r :
    is_a "{" l -> OptionalList (Sequence StmtOf) body c -> is_a "}" r ->
    BlockOf (node "BlockStatement" [("body"%string, Arr body)])
      (l :: c ++ [r]).

Definition ProgramOf (v : value) (c : list Tokenizer.Token) : Prop :=
  exists body,
    v = node "Program" [("body"%string, Arr body)]
    /\ Sequence StmtOf body c.

(** The last of the tokens is a [;] or a [}]. *)
Definition Ends (c : list Tokenizer.Token) : Prop :=
  exists front t, c = front ++ [t] /\ (is_a ";" t \/ is_a "}" t).

(** Two parser states with the same lookahead and the same text left
    to scan. *)
Definition related (p p' : Parser) : Prop :=
  _lookahead p = _lookahead p'
  /\ Tokenizer.rest (_tokenizer p) = Tokenizer.rest (_tokenizer p').

Definition agree {A} (c c' : Completion (A * Parser)) : Prop :=
  match c, c' with
  | Return (a, q), Return (a', q') => a = a' /\ related q q'
  | Throw e, Throw e' => e = e'
  | OutOfFuel, OutOfFuel => True
  | _, _ => False
  end.

(** A computation that looks at nothing but the lookahead and the text
    left. *)
Definition respects {A} (m : M A) : Prop :=
  forall p p', related p p' -> agree (m p) (m p').

(** A computation whose returned values all satisfy [P]. *)
Definition returns {A} (P : A -> Prop) (m : M A) : Prop :=
  forall p a p', m p = Return (a, p') -> P a.

Definition is_node (v : value) : Prop := exists fields, v = Obj fields.

(** The source text of [n] times ["if (a) "]. *)
Fixpoint if_a_text (n : nat) (inner : jsstring) : jsstring :=
  match n with
  | 0 => inner
  | S n' => str "if (a) " ++ if_a_text n' inner
  end.

End Parser.

(* ================================================================== *)
(** * Properties of the tokenizer *)
(* ================================================================== *)

Unset Implicit Arguments.

Section TokenizerFacts.
Import JS Tokenizer.


(** ** The matchers *)

Lemma span_app cls s : s = fst (span cls s) ++ snd (span cls s).
Proof.
  induction s as [|c r IH]; simpl; [reflexivity|].
  destruct (cls c); simpl; [f_equal; exact IH | reflexivity].
Qed.

Lemma span_all cls s : forallb cls (fst (span cls s)) = true.
Proof.
  induction s as [|c r IH]; simpl; [reflexivity|].
  destruct (cls c) eqn:E; simpl; [rewrite E; exact IH | reflexivity].
Qed.

Lemma span_stop cls s :
  match snd (span cls s) with [] => True | c :: _ => cls c = false end.
Proof.
  induction s as [|c r IH]; simpl; [exact I|].
  destruct (cls c) eqn:E; simpl; [exact IH | exact E].
Qed.

(** A run of the class that is followed by nothing of the class is the
    longest one. *)
Lemma span_longest cls body r :
  forallb cls body = true ->
  match r with [] => True | c :: _ => cls c = false end ->
  span cls (body ++ r) = (body, r).
Proof.
  intros Hb Hr. induction body as [|c b IH]; simpl in *.
  - destruct r as [|c r]; [reflexivity|]. simpl. rewrite Hr. reflexivity.
  - apply andb_true_iff in Hb as [Hc Hb]. rewrite Hc, (IH Hb). reflexivity.
Qed.

Lemma strip_prefix_app pre s r :
  strip_prefix pre s = Some r -> s = pre ++ r.
Proof.
  revert s. induction pre as [|a pre IH]; intros s H; simpl in *.
  - destruct s; inversion H; reflexivity.
  - destruct s as [|c s]; [discriminate|].
    destruct (N.eqb_spec a c); [|discriminate].
    subst. f_equal. apply IH. exact H.
Qed.

Lemma strip_prefix_here pre r : strip_prefix pre (pre ++ r) = Some r.
Proof.
  induction pre as [|a pre IH]; simpl.
  - destruct r; reflexivity.
  - rewrite N.eqb_refl. exact IH.
Qed.

Lemma before_close_app s body :
  before_close s = Some body -> exists r, s = body ++ [42; 47]%N ++ r.
Proof.
  revert body. induction s as [|c s IH]; intros body H.
  - discriminate.
  - cbn [before_close] in H. destruct s as [|d s']; [discriminate|].
    destruct ((c =? 42) && (d =? 47))%N eqn:E.
    + inversion H; subst. apply andb_true_iff in E as [E1 E2].
      apply N.eqb_eq in E1, E2. subst. exists s'. reflexivity.
    + destruct (before_close (d :: s')) as [b|] eqn:Eb; [|discriminate].
      inversion H; subst. destruct (IH b eq_refl) as [r Hr].
      exists r. simpl. rewrite Hr. reflexivity.
Qed.

Lemma no_close_tail c body : no_close (c :: body) -> no_close body.
Proof.
  intros H a b E. apply (H (c :: a) b). simpl. rewrite E. reflexivity.
Qed.

(** A block comment ends at the first ["*/"]. *)
Lemma before_close_here body r :
  no_close body -> before_close (body ++ [42; 47]%N ++ r) = Some body.
Proof.
  induction body as [|c body IH]; intros H.
  - reflexivity.
  - change ((c :: body) ++ [42; 47]%N ++ r)
      with (c :: (body ++ [42; 47]%N ++ r)).
    cbn [before_close].
    destruct (body ++ [42; 47]%N ++ r) as [|d s'] eqn:E.
    + destruct body; discriminate.
    + destruct ((c =? 42) && (d =? 47))%N eqn:E1.
      * exfalso. apply andb_true_iff in E1 as [E1 E2].
        apply N.eqb_eq in E1, E2. subst c d.
        destruct body as [|d body].
        -- simpl in E. discriminate.
        -- simpl in E. inversion E; subst. apply (H [] body). reflexivity.
      * rewrite (IH (no_close_tail _ _ H)). reflexivity.
Qed.

(** Whatever [exec] matches is a prefix of the text. *)
Lemma exec_prefix regexp s m :
  exec regexp s = Some m -> exists r, s = m ++ r.
Proof.
  destruct regexp as [cls| | |lit|cls|cls d|cls d|kw|q]; cbn [exec]; intros H.
  - destruct (fst (span cls s)) eqn:E; [discriminate|].
    inversion H; subst. exists (snd (span cls s)).
    rewrite <- E. apply span_app.
  - destruct (strip_prefix [47; 47]%N s) as [r|] eqn:E; [|discriminate].
    inversion H; subst. apply strip_prefix_app in E. subst.
    exists (snd (span is_dot r)). simpl. do 2 f_equal. apply span_app.
  - destruct (strip_prefix [47; 42]%N s) as [r|] eqn:E; [|discriminate].
    destruct (before_close r) as [body|] eqn:Eb; [|discriminate].
    inversion H; subst. apply strip_prefix_app in E. subst.
    destruct (before_close_app _ _ Eb) as [r' Hr]. exists r'.
    rewrite Hr. simpl. rewrite <- app_assoc. reflexivity.
  - destruct (strip_prefix lit s) as [r|] eqn:E; [|discriminate].
    inversion H; subst. exists r. apply strip_prefix_app. exact E.
  - destruct s as [|c r]; [discriminate|].
    destruct (cls c); [|discriminate]. inversion H. exists r. reflexivity.
  - destruct s as [|c r]; [discriminate|].
    destruct (cls c); [|discriminate].
    destruct r as [|e r'].
    + inversion H. exists []. reflexivity.
    + destruct (e =? d)%N; inversion H;
        [exists r' | exists (e :: r')]; reflexivity.
  - destruct s as [|c [|e r']]; try discriminate.
    destruct (cls c && (e =? d)%N); [|discriminate].
    inversion H. exists r'. reflexivity.
  - destruct (at_word_boundary None (hd_error s)); [|discriminate].
    destruct (strip_prefix kw s) as [r|] eqn:E; [|discriminate].
    destruct (at_word_boundary _ _); [|discriminate].
    inversion H; subst. exists r. apply strip_prefix_app. exact E.
  - destruct s as [|c r]; [discriminate|].
    destruct (c =? q)%N; [|discriminate].
    destruct (snd (span (is_not q) r)) as [|e r'] eqn:E; [discriminate|].
    inversion H; subst. exists r'. simpl. f_equal.
    rewrite <- app_assoc. simpl. rewrite <- E. apply span_app.
Qed.

(** ** The rule table *)

Lemma first_match_prefix rules s m ty :
  first_match rules s = Some (m, ty) -> exists r, s = m ++ r.
Proof.
  induction rules as [|[regexp tokenType] rules IH]; cbn [first_match];
    [discriminate|].
  destruct (exec regexp s) as [m'|] eqn:E.
  - intros H; inversion H; subst. eapply exec_prefix; eassumption.
  - exact IH.
Qed.

Lemma first_match_in rules s m ty :
  first_match rules s = Some (m, ty) ->
  exists regexp, In (regexp, ty) rules /\ exec regexp s = Some m.
Proof.
  induction rules as [|[regexp tokenType] rules IH]; cbn [first_match In];
    [discriminate|].
  destruct (exec regexp s) as [m'|] eqn:E.
  - intros H; inversion H; subst. exists regexp. split; [left|]; auto.
  - intros H. destruct (IH H) as [re [Hin He]]. exists re. split; [right|]; auto.
Qed.

Lemma first_match_none rules s :
  first_match rules s = None <->
  (forall regexp ty, In (regexp, ty) rules -> exec regexp s = None).
Proof.
  induction rules as [|[regexp tokenType] rules IH]; cbn [first_match In].
  - split; [intros _ ? ? [] | reflexivity].
  - destruct (exec regexp s) as [m'|] eqn:E.
    + split; [discriminate|]. intros H.
      rewrite (H regexp tokenType (or_introl eq_refl)) in E. discriminate.
    + rewrite IH. split.
      * intros H re ty [Heq|Hin]; [inversion Heq; subst; exact E | eauto].
      * intros H re ty Hin. apply (H re ty). right. exact Hin.
Qed.

(** A regular expression of one of these shapes matches the empty
    string only if it is an empty literal or an empty word. *)
Lemma exec_nonempty regexp s :
  match regexp with
  | re_lit lit => lit <> []
  | re_word kw => kw <> []
  | _ => True
  end ->
  exec regexp s <> Some [].
Proof.
  destruct regexp as [cls| | |lit|cls|cls d|cls d|kw|q]; cbn [exec]; intros Hne.
  - destruct (fst (span cls s)); discriminate.
  - destruct (strip_prefix [47; 47]%N s); discriminate.
  - destruct (strip_prefix [47; 42]%N s); [|discriminate].
    destruct (before_close j); discriminate.
  - destruct (strip_prefix lit s); [|discriminate].
    intros H. inversion H. contradiction.
  - destruct s as [|c r]; [discriminate|]. destruct (cls c); discriminate.
  - destruct s as [|c r]; [discriminate|]. destruct (cls c); [|discriminate].
    destruct r as [|e r]; [discriminate|]. destruct (e =? d)%N; discriminate.
  - destruct s as [|c [|e r]]; try discriminate.
    destruct (cls c && (e =? d)%N); discriminate.
  - destruct (at_word_boundary None (hd_error s)); [|discriminate].
    destruct (strip_prefix kw s); [|discriminate].
    destruct (at_word_boundary _ _); [|discriminate].
    intros H. inversion H. contradiction.
  - destruct s as [|c r]; [discriminate|]. destruct (c =? q)%N; [|discriminate].
    destruct (snd (span (is_not q) r)); discriminate.
Qed.

(** No rule of the table matches the empty string. *)
Lemma Spec_nonempty regexp ty s :
  In (regexp, ty) Spec -> exec regexp s <> Some [].
Proof.
  intros H. apply exec_nonempty.
  unfold Spec in H. cbn [In] in H.
  repeat (destruct H as [H|H]; [inversion H; subst; clear H|]);
    try contradiction; try exact I; discriminate.
Qed.

Lemma first_match_Spec s m ty :
  first_match Spec s = Some (m, ty) ->
  m <> [] /\ exists r, s = m ++ r.
Proof.
  intros H. split.
  - destruct (first_match_in _ _ _ _ H) as [re [Hin He]].
    intros ->. eapply Spec_nonempty; eassumption.
  - eapply first_match_prefix; eassumption.
Qed.

(** ** [getNextToken] *)

(** The loop over the rules stops at the first rule that matches. *)
Lemma scan_rules_first_match self rules s t :
  scan_rules self rules s t =
  match first_match rules s with
  | None => (Throw (SyntaxError (unexpected_token s)), t)
  | Some (m, None) => self (moved t m)
  | Some (m, Some ty) =>
      (Return (Some {| type := ty; value := m |}), moved t m)
  end.
Proof.
  induction rules as [|[regexp tokenType] rules IH];
    cbn [scan_rules first_match]; [reflexivity|].
  unfold _match. destruct (exec regexp s) as [m|]; [reflexivity | exact IH].
Qed.

Lemma length_rest t : length (rest t) = length (_string t) - _cursor t.
Proof. unfold rest, slice. apply length_skipn. Qed.

Lemma hasMoreTokens_rest t : hasMoreTokens t = false <-> rest t = [].
Proof.
  unfold hasMoreTokens. rewrite Nat.ltb_ge.
  pose proof (length_rest t) as L. split; intros H.
  - apply length_zero_iff_nil. lia.
  - rewrite H in L. simpl in L. lia.
Qed.

(** After a match [m] the text left is what followed [m]. *)
Lemma rest_moved t m r : rest t = m ++ r -> rest (moved t m) = r.
Proof.
  unfold rest, slice, moved. simpl. intros H.
  rewrite Nat.add_comm, <- skipn_skipn, H.
  rewrite skipn_app, skipn_all, Nat.sub_diag. reflexivity.
Qed.

Lemma moved_le t m r :
  rest t = m ++ r ->
  _cursor t <= length (_string t) ->
  _cursor (moved t m) <= length (_string (moved t m)).
Proof.
  intros H Hc. simpl.
  assert (L : length (rest t) = length m + length r)
    by (rewrite H; apply length_app).
  rewrite length_rest in L. lia.
Qed.

Lemma getNextToken_fuel_0 t :
  getNextToken_fuel 0 t =
  if negb (hasMoreTokens t) then (Return None, t) else (OutOfFuel, t).
Proof. reflexivity. Qed.

Lemma getNextToken_fuel_S fuel t :
  getNextToken_fuel (S fuel) t =
  if negb (hasMoreTokens t) then (Return None, t)
  else scan_rules (getNextToken_fuel fuel) Spec (rest t) t.
Proof. reflexivity. Qed.

(** Fuel beyond the number of characters left changes nothing. *)
Lemma getNextToken_fuel_enough fuel1 : forall fuel2 t,
  length (rest t) <= fuel1 ->
  length (rest t) <= fuel2 ->
  getNextToken_fuel fuel1 t = getNextToken_fuel fuel2 t.
Proof.
  induction fuel1 as [|fuel1 IH]; intros fuel2 t H1 H2.
  - assert (E : rest t = []) by (apply length_zero_iff_nil; lia).
    apply hasMoreTokens_rest in E.
    destruct fuel2;
      rewrite getNextToken_fuel_0, ?getNextToken_fuel_S, E; reflexivity.
  - destruct fuel2 as [|fuel2].
    + assert (E : rest t = []) by (apply length_zero_iff_nil; lia).
      apply hasMoreTokens_rest in E.
      rewrite getNextToken_fuel_0, getNextToken_fuel_S, E. reflexivity.
    + rewrite !getNextToken_fuel_S.
      destruct (hasMoreTokens t); [|reflexivity]. cbn [negb].
      rewrite !scan_rules_first_match.
      destruct (first_match Spec (rest t)) as [[m [ty|]]|] eqn:E;
        try reflexivity.
      destruct (first_match_Spec _ _ _ E) as [Hne [r Hr]].
      assert (L : length (rest (moved t m)) < length (rest t)).
      { rewrite (rest_moved _ _ _ Hr), Hr, length_app.
        destruct m; [contradiction | simpl; lia]. }
      apply IH; lia.
Qed.

(** The recursion of the source: [getNextToken] calls itself after a
    skipped match. *)
Lemma getNextToken_unfold t :
  getNextToken t =
  if negb (hasMoreTokens t) then (Return None, t)
  else scan_rules getNextToken Spec (rest t) t.
Proof.
  unfold getNextToken at 1. rewrite <- length_rest.
  destruct (length (rest t)) as [|n] eqn:L.
  - apply length_zero_iff_nil, hasMoreTokens_rest in L.
    rewrite getNextToken_fuel_0, L. reflexivity.
  - rewrite getNextToken_fuel_S.
    destruct (hasMoreTokens t); [|reflexivity]. cbn [negb].
    rewrite !scan_rules_first_match.
    destruct (first_match Spec (rest t)) as [[m [ty|]]|] eqn:E;
      try reflexivity.
    destruct (first_match_Spec _ _ _ E) as [Hne [r Hr]].
    assert (L' : length (rest (moved t m)) < length (rest t)).
    { rewrite (rest_moved _ _ _ Hr), Hr, length_app.
      destruct m; [contradiction | simpl; lia]. }
    unfold getNextToken. rewrite <- length_rest.
    apply getNextToken_fuel_enough; lia.
Qed.

(** What one call does, by induction on the number of characters left:
    the source text is kept, the cursor only moves forward and stays
    within the text, the call never runs out of fuel, the only error is
    a [SyntaxError], and a token is found right after a skipped part. *)
Lemma getNextToken_step n : forall t,
  length (rest t) <= n ->
  _cursor t <= length (_string t) ->
  let (result, t') := getNextToken t in
  _string t' = _string t
  /\ _cursor t <= _cursor t'
  /\ _cursor t' <= length (_string t)
  /\ result <> OutOfFuel
  /\ (forall e, result = Throw e -> exists message, e = SyntaxError message)
  /\ (forall token, result = Return (Some token) ->
      value token <> []
      /\ exists skipped,
           rest t = skipped ++ value token ++ rest t'
           /\ _cursor t' = _cursor t + length skipped + length (value token)).
Proof.
  induction n as [|n IH]; intros t Hn Hc; rewrite getNextToken_unfold.
  - assert (E : rest t = []) by (apply length_zero_iff_nil; lia).
    apply hasMoreTokens_rest in E. rewrite E. simpl.
    repeat split; try lia; try discriminate.
  - destruct (hasMoreTokens t) eqn:Hm; cbn [negb].
    2:{ repeat split; try lia; try discriminate. }
    rewrite scan_rules_first_match.
    destruct (first_match Spec (rest t)) as [[m [ty|]]|] eqn:E.
    + destruct (first_match_Spec _ _ _ E) as [Hne [r Hr]].
      pose proof (moved_le _ _ _ Hr Hc) as Hle. simpl in Hle.
      refine (conj _ (conj _ (conj _ (conj _ (conj _ _)))));
        simpl; try reflexivity; try lia; try discriminate;
        try (intros ? ?; discriminate).
      intros token H. inversion H; subst; clear H. simpl.
      split; [exact Hne|].
      exists []. simpl. rewrite (rest_moved _ _ _ Hr).
      split; [exact Hr | lia].
    + destruct (first_match_Spec _ _ _ E) as [Hne [r Hr]].
      pose proof (moved_le _ _ _ Hr Hc) as Hle.
      pose proof (rest_moved _ _ _ Hr) as Hrest.
      assert (L : length (rest (moved t m)) <= n).
      { rewrite Hrest. rewrite Hr, length_app in Hn.
        destruct m; [contradiction | simpl in Hn; lia]. }
      specialize (IH (moved t m) L Hle).
      destruct (getNextToken (moved t m)) as [result t'].
      destruct IH as (Hs & Hlo & Hhi & Hfuel & Herr & Htok).
      cbn [moved _string _cursor] in *.
      refine (conj _ (conj _ (conj _ (conj _ (conj _ _)))));
        try assumption; try lia.
      intros token H. destruct (Htok token H) as [Hv [skipped [H1 H2]]].
      split; [exact Hv|].
      rewrite Hrest in H1.
      exists (m ++ skipped). rewrite Hr, H1, length_app, <- app_assoc.
      split; [reflexivity | lia].
    + repeat split; try lia; try discriminate.
      intros e H. inversion H. eexists. reflexivity.
Qed.

Lemma getNextToken_total t : fst (getNextToken t) <> OutOfFuel.
Proof.
  destruct (le_lt_dec (_cursor t) (length (_string t))) as [Hc|Hc].
  - pose proof (getNextToken_step _ t (le_n _) Hc) as H.
    destruct (getNextToken t). simpl. tauto.
  - rewrite getNextToken_unfold.
    assert (E : hasMoreTokens t = false)
      by (unfold hasMoreTokens; apply Nat.ltb_ge; lia).
    rewrite E. discriminate.
Qed.

Lemma getNextToken_throws t e :
  fst (getNextToken t) = Throw e -> exists message, e = SyntaxError message.
Proof.
  destruct (le_lt_dec (_cursor t) (length (_string t))) as [Hc|Hc].
  - pose proof (getNextToken_step _ t (le_n _) Hc) as H.
    destruct (getNextToken t). simpl. intros; apply H; assumption.
  - rewrite getNextToken_unfold.
    assert (E : hasMoreTokens t = false)
      by (unfold hasMoreTokens; apply Nat.ltb_ge; lia).
    rewrite E. discriminate.
Qed.

(** Calls on an [init]-ed tokenizer keep the text and stay within it. *)
Lemma after_calls_inv s n :
  _string (after_calls n (init s)) = s
  /\ _cursor (after_calls n (init s)) <= length s.
Proof.
  induction n as [|n [IHs IHc]]; simpl.
  - split; [reflexivity | lia].
  - rewrite <- IHs in IHc at 2.
    pose proof (getNextToken_step _ _ (le_n _) IHc) as H.
    destruct (getNextToken (after_calls n (init s))) as [result t'].
    simpl. destruct H as (Hs & _ & Hhi & _). rewrite Hs, IHs in *.
    split; [reflexivity | exact Hhi].
Qed.

(** ** White space and comments *)

Lemma Skippable_space_inv c r :
  Skippable (c :: r) -> is_space c = true -> Skippable r.
Proof.
  intros H Hc. inversion H; subst.
  - assumption.
  - vm_compute in Hc. discriminate.
  - vm_compute in Hc. discriminate.
Qed.

Lemma Skippable_after_spaces r :
  Skippable r -> Skippable (snd (span is_space r)).
Proof.
  induction r as [|c r IH]; intros H; simpl; [exact H|].
  destruct (is_space c) eqn:E; simpl; [|exact H].
  apply IH. exact (Skippable_space_inv _ _ H E).
Qed.

Lemma first_match_hit regexp ty rules s m :
  exec regexp s = Some m ->
  first_match ((regexp, ty) :: rules) s = Some (m, ty).
Proof. intros H. cbn [first_match]. rewrite H. reflexivity. Qed.

Lemma first_match_miss regexp ty rules s :
  exec regexp s = None ->
  first_match ((regexp, ty) :: rules) s = first_match rules s.
Proof. intros H. cbn [first_match]. rewrite H. reflexivity. Qed.

Lemma first_match_space c r :
  is_space c = true ->
  first_match Spec (c :: r) = Some (c :: fst (span is_space r), None).
Proof.
  intros H. unfold Spec. apply first_match_hit.
  cbn [exec span]. rewrite H. reflexivity.
Qed.

Lemma first_match_line_comment body r :
  forallb is_dot body = true ->
  match r with [] => True | c :: _ => is_line_terminator c = true end ->
  first_match Spec ([47; 47]%N ++ body ++ r) = Some ([47; 47]%N ++ body, None).
Proof.
  intros Hb Hr. unfold Spec.
  rewrite first_match_miss by reflexivity.
  apply first_match_hit.
  cbn [exec]. rewrite strip_prefix_here, span_longest; [reflexivity | exact Hb |].
  destruct r as [|c r]; [exact I|]. unfold is_dot. rewrite Hr. reflexivity.
Qed.

Lemma first_match_block_comment body r :
  no_close body ->
  first_match Spec ([47; 42]%N ++ body ++ [42; 47]%N ++ r)
  = Some ([47; 42]%N ++ body ++ [42; 47]%N, None).
Proof.
  intros Hb. unfold Spec.
  rewrite first_match_miss by reflexivity.
  rewrite first_match_miss by reflexivity.
  apply first_match_hit.
  cbn [exec]. rewrite strip_prefix_here, (before_close_here _ _ Hb).
  reflexivity.
Qed.

(** The first rule that matches a non-empty skippable text is a skip
    rule, and what it leaves is skippable. *)
Lemma Skippable_first_match s :
  Skippable s -> s <> [] ->
  exists m r,
    first_match Spec s = Some (m, None) /\ s = m ++ r /\ Skippable r.
Proof.
  intros H Hne. destruct H as [|c r Hc Hr|body r Hb Hend Hr|body r Hb Hr].
  - contradiction.
  - exists (c :: fst (span is_space r)), (snd (span is_space r)).
    split; [apply first_match_space; exact Hc|].
    split; [simpl; f_equal; apply span_app|].
    apply Skippable_after_spaces. exact Hr.
  - exists ([47; 47]%N ++ body), r.
    split; [apply first_match_line_comment; assumption|].
    split; [rewrite <- app_assoc; reflexivity | exact Hr].
  - exists ([47; 42]%N ++ body ++ [42; 47]%N), r.
    split; [apply first_match_block_comment; assumption|].
    split; [rewrite <- !app_assoc; reflexivity | exact Hr].
Qed.

Lemma getNextToken_skippable n : forall t,
  length (rest t) <= n ->
  _cursor t <= length (_string t) ->
  Skippable (rest t) ->
  getNextToken t
  = (Return None, {| _string := _string t; _cursor := length (_string t) |}).
Proof.
  induction n as [|n IH]; intros t Hn Hc Hs; rewrite getNextToken_unfold;
    destruct (hasMoreTokens t) eqn:Hm; cbn [negb].
  - assert (E : rest t = []) by (apply length_zero_iff_nil; lia).
    apply hasMoreTokens_rest in E. congruence.
  - apply hasMoreTokens_rest in Hm.
    pose proof (length_rest t) as L. rewrite Hm in L. simpl in L.
    destruct t as [str cur]; simpl in *. do 2 f_equal. lia.
  - rewrite scan_rules_first_match.
    destruct (Skippable_first_match _ Hs) as (m & r' & Hf & Hr & Hs').
    { intros E. apply hasMoreTokens_rest in E. congruence. }
    rewrite Hf.
    destruct (first_match_Spec _ _ _ Hf) as [Hne _].
    rewrite IH.
    + reflexivity.
    + rewrite (rest_moved _ _ _ Hr). rewrite Hr, length_app in Hn.
      destruct m; [contradiction | simpl in Hn; lia].
    + exact (moved_le _ _ _ Hr Hc).
    + rewrite (rest_moved _ _ _ Hr). exact Hs'.
  - apply hasMoreTokens_rest in Hm.
    pose proof (length_rest t) as L. rewrite Hm in L. simpl in L.
    destruct t as [str cur]; simpl in *. do 2 f_equal. lia.
Qed.

(** ** The driver's loop *)

(** One call more than there are characters left reaches the
    sentinel: the loop does not run out of fuel. *)
Lemma tokens_fuel_total fuel : forall t,
  _cursor t <= length (_string t) ->
  length (rest t) < fuel ->
  tokens_fuel fuel t <> OutOfFuel.
Proof.
  induction fuel as [|fuel IH]; intros t Hc Hfuel; [lia|].
  cbn [tokens_fuel].
  pose proof (getNextToken_step _ t (le_n _) Hc) as H.
  destruct (getNextToken t) as [result t'].
  destruct H as (Hs & Hlo & Hhi & Hresult & _ & Htok).
  destruct result as [[token|]|e|]; try discriminate; try contradiction.
  destruct (Htok token eq_refl) as [Hv [skipped [H1 H2]]].
  assert (IH' : tokens_fuel fuel t' <> OutOfFuel).
  { apply IH.
    - rewrite Hs. exact Hhi.
    - rewrite length_rest in *. rewrite Hs.
      destruct (value token); [contradiction | simpl in H2; lia]. }
  destruct (tokens_fuel fuel t'); try discriminate. contradiction.
Qed.

Lemma tokenize_total s : tokenize s <> OutOfFuel.
Proof.
  unfold tokenize. apply tokens_fuel_total.
  - simpl. lia.
  - rewrite length_rest. simpl. lia.
Qed.

(** ** Keywords and identifiers *)

(** [let] followed by a word character is not the keyword: the first
    rule that matches is the identifier rule, on the whole word. *)
Lemma first_match_let_word c w r :
  is_word c = true ->
  forallb is_word w = true ->
  match r with [] => True | d :: _ => is_word d = false end ->
  first_match Spec (str "let" ++ c :: w ++ r)
  = Some (str "let" ++ c :: w, Some (str "IDENTIFIER")).
Proof.
  intros Hc Hw Hr. unfold Spec.
  repeat (rewrite first_match_miss by reflexivity).
  rewrite first_match_miss.
  2:{ cbn [exec]. change (str "let" ++ c :: w ++ r)
        with (108 :: 101 :: 116 :: c :: w ++ r)%N.
      change (strip_prefix (str "let") (108 :: 101 :: 116 :: c :: w ++ r)%N)
        with (Some (c :: w ++ r)).
      cbn [hd_error]. unfold at_word_boundary at 2. rewrite Hc.
      reflexivity. }
  repeat (rewrite first_match_miss by reflexivity).
  apply first_match_hit. cbn [exec].
  change (str "let" ++ c :: w ++ r) with ((str "let" ++ c :: w) ++ r).
  rewrite span_longest.
  - reflexivity.
  - cbn [forallb str app]. simpl. rewrite Hc, Hw. reflexivity.
  - exact Hr.
Qed.

(** [let] followed by the end of the text or by a character that is not
    a word character is the keyword. *)
Lemma first_match_let r :
  match r with [] => True | d :: _ => is_word d = false end ->
  first_match Spec (str "let" ++ r) = Some (str "let", Some (str "let")).
Proof.
  intros Hr. unfold Spec.
  repeat (rewrite first_match_miss by reflexivity).
  apply first_match_hit. cbn [exec].
  change (str "let" ++ r) with (108 :: 101 :: 116 :: r)%N.
  change (strip_prefix (str "let") (108 :: 101 :: 116 :: r)%N)
    with (Some r).
  destruct r as [|d r]; [reflexivity|].
  cbn [hd_error]. unfold at_word_boundary at 2. rewrite Hr. reflexivity.
Qed.

(* ------------------------------------------------------------------ *)
(** ** The claims about the tokenizer *)
(* ------------------------------------------------------------------ *)

(** C6.  The text ["let"] is one token of kind [let], and the text
    ["letter"] is one token of kind [IDENTIFIER] whose value is the
    whole word. *)
Theorem C6_let_is_keyword_letter_is_identifier :
  tokenize (str "let")
  = Return [ {| type := str "let"; value := str "let" |} ]
  /\ tokenize (str "letter")
     = Return [ {| type := str "IDENTIFIER"; value := str "letter" |} ].
Proof. split; vm_compute; reflexivity. Qed.

(** C7.  On a text of white space and comments only, [getNextToken]
    returns the end-of-input sentinel, with the cursor at the end of the
    text; it neither throws nor runs out of fuel. *)
Theorem C7_skippable_text_gives_sentinel s :
  Skippable s ->
  getNextToken (init s)
  = (Return None, {| _string := s; _cursor := length s |}).
Proof.
  intros H.
  apply (getNextToken_skippable (length (rest (init s))) (init s)).
  - apply le_n.
  - simpl. lia.
  - exact H.
Qed.

Lemma C7_witness :
  getNextToken (init (str "  // note
 /* a * b */ "))
  = (Return None,
     {| _string := str "  // note
 /* a * b */ ";
        _cursor := 23 |}).
Proof.
  apply (C7_skippable_text_gives_sentinel (str "  // note
 /* a * b */ ")).
  apply skip_space; [reflexivity|]. apply skip_space; [reflexivity|].
  apply (@skip_line_comment (str " note") (str "
 /* a * b */ ")); [reflexivity | reflexivity |].
  apply skip_space; [reflexivity|]. apply skip_space; [reflexivity|].
  apply (@skip_block_comment (str " a * b ") (str " ")).
  - intros a b E. vm_compute in E.
    repeat (destruct a as [|? a]; [discriminate|];
            injection E as <- E).
    destruct a; discriminate.
  - apply skip_space; [reflexivity|]. apply skip_nothing.
Defined.

(** C8, as the code has it.  When no rule matches the text at the
    cursor, [getNextToken] throws a [SyntaxError] whose message is
    [Unexpected token: "c"] for the character [c] at the cursor; the
    cursor stays on that character. *)
Theorem C8_unmatched_text_throws_SyntaxError t c r :
  rest t = c :: r ->
  (forall regexp ty, In (regexp, ty) Spec -> exec regexp (c :: r) = None) ->
  getNextToken t
  = (Throw (SyntaxError (str "Unexpected token: " ++ [34%N; c; 34%N])), t).
Proof.
  intros Hr Hnone. rewrite getNextToken_unfold.
  destruct (hasMoreTokens t) eqn:Hm.
  - cbn [negb]. rewrite scan_rules_first_match, Hr.
    apply first_match_none in Hnone. rewrite Hnone. reflexivity.
  - apply hasMoreTokens_rest in Hm. congruence.
Qed.

Lemma C8_witness :
  getNextToken {| _string := str "a @"; _cursor := 2 |}
  = (Throw (SyntaxError (str "Unexpected token: " ++ [34%N; 64%N; 34%N])),
     {| _string := str "a @"; _cursor := 2 |}).
Proof.
  apply (C8_unmatched_text_throws_SyntaxError
           {| _string := str "a @"; _cursor := 2 |} 64%N []).
  - reflexivity.
  - apply first_match_none. vm_compute. reflexivity.
Defined.

(** C9.  Every call of [getNextToken] on an [init]-ed tokenizer keeps
    the source text, never moves the cursor back and never moves it past
    the end of the text.  When the call returns a token, the cursor has
    moved over a skipped part and then over the token's value: the value
    is the substring of the source that ends at the new cursor. *)
Theorem C9_cursor_invariant s n :
  let t := after_calls n (init s) in
  let t' := snd (getNextToken t) in
  _string t = s
  /\ _string t' = s
  /\ _cursor t <= _cursor t'
  /\ _cursor t' <= length s
  /\ forall token,
       fst (getNextToken t) = Return (Some token) ->
       (exists skipped,
           rest t = skipped ++ value token ++ rest t'
           /\ _cursor t' = _cursor t + length skipped + length (value token))
       /\ value token
          = substring s (_cursor t' - length (value token)) (_cursor t').
Proof.
  cbv zeta. destruct (after_calls_inv s n) as [Hs Hc].
  rewrite <- Hs in Hc at 2.
  pose proof (getNextToken_step _ _ (le_n _) Hc) as H.
  destruct (getNextToken (after_calls n (init s))) as [result t'].
  cbn [fst snd]. destruct H as (Hs' & Hlo & Hhi & _ & _ & Htok).
  rewrite Hs in Hs', Hhi.
  repeat split; try assumption.
  - apply Htok. assumption.
  - destruct (Htok token H) as [_ [skipped [H1 H2]]].
    unfold substring.
    replace (_cursor t' - (_cursor t' - length (value token)))
      with (length (value token)) by lia.
    replace (_cursor t' - length (value token))
      with (length skipped + _cursor (after_calls n (init s))) by lia.
    assert (R : skipn (_cursor (after_calls n (init s))) s
                = rest (after_calls n (init s)))
      by (unfold rest, slice; rewrite Hs; reflexivity).
    rewrite <- skipn_skipn, R.
    rewrite H1, skipn_app, skipn_all, Nat.sub_diag. cbn [skipn app].
    rewrite firstn_app, firstn_all, Nat.sub_diag. cbn [firstn].
    rewrite app_nil_r. reflexivity.
Qed.

(** C10.  Once the cursor is at (or past) the end of the text, every
    further call returns the sentinel and leaves the tokenizer as it
    was, however often it is repeated. *)
Theorem C10_exhausted_tokenizer_is_stable t n :
  length (_string t) <= _cursor t ->
  after_calls n t = t
  /\ getNextToken (after_calls n t) = (Return None, t).
Proof.
  intros H.
  assert (E : getNextToken t = (Return None, t)).
  { rewrite getNextToken_unfold.
    assert (Hm : hasMoreTokens t = false)
      by (unfold hasMoreTokens; apply Nat.ltb_ge; exact H).
    rewrite Hm. reflexivity. }
  assert (A : after_calls n t = t).
  { induction n as [|n IH]; simpl; [reflexivity|]. rewrite IH, E. reflexivity. }
  rewrite A. split; [reflexivity | exact E].
Qed.

Lemma C10_witness :
  after_calls 5 (after_calls 2 (init (str "x;"))) = after_calls 2 (init (str "x;"))
  /\ getNextToken (after_calls 5 (after_calls 2 (init (str "x;"))))
     = (Return None, after_calls 2 (init (str "x;"))).
Proof.
  apply (C10_exhausted_tokenizer_is_stable (after_calls 2 (init (str "x;"))) 5).
  vm_compute. reflexivity.
Defined.

(* ------------------------------------------------------------------ *)
(** ** What is skipped, what is returned, what is reported *)
(* ------------------------------------------------------------------ *)

Lemma before_close_no_close s body :
  before_close s = Some body -> no_close body.
Proof.
  revert body. induction s as [|c s IH]; intros body H; [discriminate|].
  cbn [before_close] in H. destruct s as [|d s']; [discriminate|].
  destruct ((c =? 42) && (d =? 47))%N eqn:E.
  - inversion H; subst. intros a b Hab. destruct a; discriminate.
  - destruct (before_close (d :: s')) as [b'|] eqn:Eb; [|discriminate].
    inversion H; subst. intros a b Hab.
    destruct a as [|x a]; simpl in Hab.
    + inversion Hab; subst.
      destruct (before_close_app _ _ Eb) as [r Hr]. simpl in Hr.
      inversion Hr; subst. discriminate.
    + inversion Hab; subst. exact (IH _ eq_refl a b eq_refl).
Qed.

Lemma no_close_before_close body : no_close body -> before_close body = None.
Proof.
  intros H. destruct (before_close body) as [b|] eqn:E; [|reflexivity].
  destruct (before_close_app _ _ E) as [r Hr]. destruct (H b r Hr).
Qed.

Lemma Skippable_spaces_app m x :
  forallb is_space m = true -> Skippable x -> Skippable (m ++ x).
Proof.
  induction m as [|c m IH]; simpl; intros Hm Hx; [exact Hx|].
  apply andb_true_iff in Hm as [Hc Hm]. apply skip_space; auto.
Qed.

(** The rules without a token type are the first three. *)
Lemma Spec_skip_rule regexp :
  In (regexp, None) Spec ->
  regexp = re_plus is_space \/ regexp = re_line_comment
  \/ regexp = re_block_comment.
Proof.
  unfold Spec. cbn [In]. intros H.
  repeat (destruct H as [H|H]; [inversion H; subst; auto|]).
  contradiction.
Qed.

(** What a skip rule matches, followed by more skippable text, is
    skippable. *)
Lemma Skippable_skip_match s m ty skipped z :
  first_match Spec s = Some (m, ty) ->
  ty = None ->
  s = m ++ skipped ++ z ->
  Skippable skipped ->
  Skippable (m ++ skipped).
Proof.
  intros F -> Hs Hsk.
  destruct (first_match_in _ _ _ _ F) as [regexp [Hin He]].
  destruct (Spec_skip_rule _ Hin) as [-> | [-> | ->]]; cbn [exec] in He.
  - destruct (fst (span is_space s)) as [|c m'] eqn:E; [discriminate|].
    inversion He; subst m. apply Skippable_spaces_app; [|exact Hsk].
    rewrite <- E. apply span_all.
  - destruct (strip_prefix [47; 47]%N s) as [r0|] eqn:E; [|discriminate].
    inversion He; subst m. apply strip_prefix_app in E.
    rewrite E in Hs. simpl in Hs. injection Hs as Hs.
    rewrite (span_app is_dot r0) in Hs at 1. apply app_inv_head in Hs.
    change (Skippable ([47; 47]%N ++ fst (span is_dot r0) ++ skipped)).
    apply skip_line_comment.
    + apply span_all.
    + pose proof (span_stop is_dot r0) as Hstop. rewrite Hs in Hstop.
      destruct skipped as [|c sk]; [exact I|]. simpl in Hstop.
      unfold is_dot in Hstop. destruct (is_line_terminator c);
        [reflexivity | discriminate].
    + exact Hsk.
  - destruct (strip_prefix [47; 42]%N s) as [r0|] eqn:E; [|discriminate].
    destruct (before_close r0) as [body|] eqn:Eb; [|discriminate].
    inversion He; subst m.
    assert (R : (47 :: 42 :: body ++ [42; 47])%N ++ skipped
                = [47; 42]%N ++ body ++ [42; 47]%N ++ skipped)
      by (simpl; rewrite <- app_assoc; reflexivity).
    rewrite R. apply skip_block_comment; [|exact Hsk].
    eapply before_close_no_close. exact Eb.
Qed.

(** One call, told by the text: a skippable part is passed over, and
    then either a rule with a token type matches, or the text is at its
    end, or no rule matches. *)
Lemma getNextToken_skips n : forall t,
  length (rest t) <= n ->
  exists skipped,
    Skippable skipped
    /\ rest t = skipped ++ rest (moved t skipped)
    /\ match first_match Spec (rest (moved t skipped)) with
       | Some (m, Some ty) =>
           getNextToken t
           = (Return (Some {| type := ty; value := m |}),
              moved (moved t skipped) m)
       | Some (m, None) => False
       | None =>
           match rest (moved t skipped) with
           | [] => fst (getNextToken t) = Return None
                   /\ rest (snd (getNextToken t)) = []
           | c :: r =>
               getNextToken t
               = (Throw (SyntaxError
                           (str "Unexpected token: " ++ [34%N; c; 34%N])),
                  moved t skipped)
           end
       end.
Proof.
  assert (moved_nil : forall t, moved t [] = t).
  { intros [s c]. unfold moved. simpl. rewrite Nat.add_0_r. reflexivity. }
  assert (moved_app : forall t a b, moved t (a ++ b) = moved (moved t a) b).
  { intros t a b. unfold moved. simpl. rewrite length_app, Nat.add_assoc.
    reflexivity. }
  induction n as [|n IH]; intros t Hn; rewrite getNextToken_unfold;
    destruct (hasMoreTokens t) eqn:Hm; cbn [negb].
  - assert (E : rest t = []) by (apply length_zero_iff_nil; lia).
    apply hasMoreTokens_rest in E. congruence.
  - apply hasMoreTokens_rest in Hm. exists []. rewrite moved_nil, Hm.
    change (first_match Spec []) with (@None (jsstring * option jsstring)).
    split; [constructor | split; [reflexivity | split; [reflexivity|]]].
    exact Hm.
  - rewrite scan_rules_first_match.
    destruct (first_match Spec (rest t)) as [[m [ty|]]|] eqn:F.
    + exists []. rewrite moved_nil, F.
      split; [constructor | split; reflexivity].
    + destruct (first_match_Spec _ _ _ F) as [Hne [r Hr]].
      pose proof (rest_moved _ _ _ Hr) as Hrest.
      destruct (IH (moved t m)) as (skipped & Hsk & Hsplit & Hcase).
      { rewrite Hrest. rewrite Hr, length_app in Hn.
        destruct m; [contradiction | simpl in Hn; lia]. }
      exists (m ++ skipped). rewrite moved_app.
      split; [|split].
      * eapply Skippable_skip_match with (z := rest (moved (moved t m) skipped));
          [exact F | reflexivity | | exact Hsk].
        rewrite Hr, <- Hsplit, Hrest. reflexivity.
      * rewrite Hr, <- app_assoc, <- Hsplit, Hrest. reflexivity.
      * exact Hcase.
    + exists []. rewrite moved_nil, F.
      split; [constructor | split; [reflexivity|]].
      destruct (rest t) as [|c r] eqn:E.
      * apply hasMoreTokens_rest in E. congruence.
      * reflexivity.
  - apply hasMoreTokens_rest in Hm. exists []. rewrite moved_nil, Hm.
    change (first_match Spec []) with (@None (jsstring * option jsstring)).
    split; [constructor | split; [reflexivity | split; [reflexivity|]]].
    exact Hm.
Qed.

Lemma getNextToken_token t token :
  fst (getNextToken t) = Return (Some token) ->
  exists skipped,
    Skippable skipped
    /\ value token <> []
    /\ rest t = skipped ++ value token ++ rest (snd (getNextToken t))
    /\ first_match Spec (value token ++ rest (snd (getNextToken t)))
       = Some (value token, Some (type token)).
Proof.
  intros H.
  destruct (getNextToken_skips _ t (le_n _)) as (skipped & Hsk & Hsplit & Hcase).
  exists skipped. split; [exact Hsk|].
  destruct (first_match Spec (rest (moved t skipped))) as [[m [ty|]]|] eqn:F.
  - rewrite Hcase in *. cbn [fst snd] in *. inversion H; subst. cbn [value type].
    destruct (first_match_Spec _ _ _ F) as [Hne [r Hr]].
    rewrite (rest_moved _ _ _ Hr), <- Hr.
    split; [exact Hne | split; [exact Hsplit | exact F]].
  - contradiction.
  - destruct (rest (moved t skipped)).
    + destruct Hcase as [Hcase _]. congruence.
    + rewrite Hcase in H. discriminate.
Qed.

(** X1.  A token is found right after a skippable part of the text:
    nothing but white space and comments is passed over, the token's
    value is not empty and is what the first matching rule of the table
    matches there, and the text left starts right after the value. *)
Theorem token_follows_skipped_text t token :
  fst (getNextToken t) = Return (Some token) ->
  exists skipped,
    Skippable skipped
    /\ value token <> []
    /\ rest t = skipped ++ value token ++ rest (snd (getNextToken t))
    /\ first_match Spec (value token ++ rest (snd (getNextToken t)))
       = Some (value token, Some (type token)).
Proof. exact (getNextToken_token t token). Qed.

Lemma token_follows_skipped_text_witness :
  exists skipped,
    Skippable skipped
    /\ str "x" <> []
    /\ str " /*c*/ x;" = skipped ++ str "x" ++ str ";"
    /\ first_match Spec (str "x" ++ str ";")
       = Some (str "x", Some (str "IDENTIFIER")).
Proof.
  apply (token_follows_skipped_text (init (str " /*c*/ x;"))
           {| type := str "IDENTIFIER"; value := str "x" |}).
  vm_compute. reflexivity.
Defined.

Lemma getNextToken_sentinel t :
  fst (getNextToken t) = Return None <-> Skippable (rest t).
Proof.
  split; intros H.
  - destruct (getNextToken_skips _ t (le_n _))
      as (skipped & Hsk & Hsplit & Hcase).
    destruct (first_match Spec (rest (moved t skipped))) as [[m [ty|]]|] eqn:F.
    + rewrite Hcase in H. discriminate.
    + contradiction.
    + destruct (rest (moved t skipped)) as [|c r].
      * rewrite Hsplit, app_nil_r. exact Hsk.
      * rewrite Hcase in H. discriminate.
  - destruct (le_lt_dec (_cursor t) (length (_string t))) as [Hc|Hc].
    + rewrite (getNextToken_skippable _ t (le_n _) Hc H). reflexivity.
    + rewrite getNextToken_unfold.
      assert (E : hasMoreTokens t = false)
        by (unfold hasMoreTokens; apply Nat.ltb_ge; lia).
      rewrite E. reflexivity.
Qed.

(** X2.  [getNextToken] returns the end-of-input sentinel exactly when
    the text left is white space and comments only. *)
Theorem sentinel_iff_skippable t :
  fst (getNextToken t) = Return None <-> Skippable (rest t).
Proof. exact (getNextToken_sentinel t). Qed.

(** X3.  When [getNextToken] throws, it has passed over a skippable
    part of the text and stands on a character at which no rule of the
    table matches; the error is the [SyntaxError] naming that character,
    and the cursor is left on it. *)
Theorem error_names_first_unmatched_character t e :
  fst (getNextToken t) = Throw e ->
  exists skipped c r,
    Skippable skipped
    /\ rest t = skipped ++ c :: r
    /\ first_match Spec (c :: r) = None
    /\ e = SyntaxError (str "Unexpected token: " ++ [34%N; c; 34%N])
    /\ snd (getNextToken t) = moved t skipped.
Proof.
  intros H.
  destruct (getNextToken_skips _ t (le_n _)) as (skipped & Hsk & Hsplit & Hcase).
  destruct (first_match Spec (rest (moved t skipped))) as [[m [ty|]]|] eqn:F.
  - rewrite Hcase in H. discriminate.
  - contradiction.
  - destruct (rest (moved t skipped)) as [|c r].
    + destruct Hcase as [Hcase _]. congruence.
    + rewrite Hcase in *. cbn [fst snd] in *. inversion H; subst.
      exists skipped, c, r. repeat split; assumption.
Qed.

Lemma error_names_first_unmatched_character_witness :
  exists skipped c r,
    Skippable skipped
    /\ str "  // note
 #1" = skipped ++ c :: r
    /\ first_match Spec (c :: r) = None
    /\ SyntaxError (str "Unexpected token: " ++ [34%N; 35%N; 34%N])
       = SyntaxError (str "Unexpected token: " ++ [34%N; c; 34%N])
    /\ snd (getNextToken (init (str "  // note
 #1")))
       = moved (init (str "  // note
 #1")) skipped.
Proof.
  apply (error_names_first_unmatched_character
           (init (str "  // note
 #1"))
           (SyntaxError (str "Unexpected token: " ++ [34%N; 35%N; 34%N]))).
  vm_compute. reflexivity.
Defined.

(** The driver's loop, from any tokenizer. *)
Lemma tokens_fuel_interleaves fuel : forall t tokens,
  tokens_fuel fuel t = Return tokens -> Interleaves tokens (rest t).
Proof.
  induction fuel as [|fuel IH]; intros t tokens H; [discriminate|].
  cbn [tokens_fuel] in H.
  pose proof (getNextToken_token t) as Htok.
  pose proof (proj1 (getNextToken_sentinel t)) as Hend.
  destruct (getNextToken t) as [[[token|]|e|] t']; cbn [fst snd] in *;
    try discriminate.
  - destruct (tokens_fuel fuel t') as [l| |] eqn:E; try discriminate.
    inversion H; subst.
    destruct (Htok token eq_refl) as (skipped & Hsk & Hne & Hsplit & F).
    rewrite Hsplit. apply interleaves_token; auto.
  - inversion H; subst. apply interleaves_end. apply Hend. reflexivity.
Qed.

(** X4.  The tokens the driver's loop collects, with skippable text
    before, between and after them, make up the source text: apart from
    white space and comments the tokenizer loses nothing, and each
    token is the first-rule match where it stands. *)
Theorem tokenize_interleaves s tokens :
  tokenize s = Return tokens -> Interleaves tokens s.
Proof.
  intros H. apply tokens_fuel_interleaves in H. exact H.
Qed.

Lemma tokenize_interleaves_witness :
  Interleaves
    [ {| type := str "IDENTIFIER"; value := str "X" |};
      {| type := str "ADDITIVE_OPERATOR"; value := str "+" |};
      {| type := str "NUMBER"; value := str "5" |};
      {| type := str ";"; value := str ";" |} ]
    (str " X + 5; // end").
Proof.
  apply (tokenize_interleaves (str " X + 5; // end")).
  vm_compute. reflexivity.
Defined.

(* ------------------------------------------------------------------ *)
(** ** The rules, one kind of text at a time *)
(* ------------------------------------------------------------------ *)

(** A call on a text whose first matching rule has a token type. *)
Lemma getNextToken_first_match t m ty :
  first_match Spec (rest t) = Some (m, Some ty) ->
  getNextToken t = (Return (Some {| type := ty; value := m |}), moved t m).
Proof.
  intros F. rewrite getNextToken_unfold.
  destruct (hasMoreTokens t) eqn:Hm; cbn [negb].
  - rewrite scan_rules_first_match, F. reflexivity.
  - apply hasMoreTokens_rest in Hm. rewrite Hm in F. discriminate.
Qed.

(** A call on a text that no rule matches. *)
Lemma getNextToken_no_match t c r :
  rest t = c :: r ->
  first_match Spec (c :: r) = None ->
  getNextToken t
  = (Throw (SyntaxError (str "Unexpected token: " ++ [34%N; c; 34%N])), t).
Proof.
  intros Hr F. rewrite getNextToken_unfold.
  destruct (hasMoreTokens t) eqn:Hm; cbn [negb].
  - rewrite scan_rules_first_match, Hr, F. reflexivity.
  - apply hasMoreTokens_rest in Hm. congruence.
Qed.

Lemma hd_error_rev_word kw :
  forallb is_word kw = true -> kw <> [] ->
  exists l, hd_error (rev kw) = Some l /\ is_word l = true.
Proof.
  intros Hw Hne. destruct (rev kw) as [|l k] eqn:E.
  - apply (f_equal (@rev N)) in E. rewrite rev_involutive in E.
    simpl in E. contradiction.
  - exists l. split; [reflexivity|].
    rewrite forallb_forall in Hw. apply Hw. apply in_rev. rewrite E.
    left. reflexivity.
Qed.

(** [/^\bkw\b/] on a text that starts with the word [kw]: it matches
    unless a word character follows. *)
Lemma exec_word_boundary kw x :
  forallb is_word kw = true -> kw <> [] ->
  exec (re_word kw) (kw ++ x)
  = match x with
    | [] => Some kw
    | c :: _ => if is_word c then None else Some kw
    end.
Proof.
  intros Hw Hne. cbn [exec].
  destruct (hd_error_rev_word kw Hw Hne) as [l [Hl Hwl]].
  rewrite strip_prefix_here, Hl.
  destruct kw as [|k kw']; [contradiction|].
  simpl in Hw. apply andb_true_iff in Hw as [Hk _].
  cbn [app hd_error]. unfold at_word_boundary. rewrite Hk, Hwl. cbn [xorb].
  destruct x as [|c x]; [reflexivity|]. cbn [hd_error].
  destruct (is_word c); reflexivity.
Qed.

Ltac miss_rule :=
  solve [ reflexivity
        | match goal with
          | |- exec _ (_ :: ?r) = None => destruct r; reflexivity
          end ].

Ltac miss_rules := repeat (rewrite first_match_miss by miss_rule).

Lemma first_match_keyword kw r :
  In kw keywords ->
  not_word_next r ->
  first_match Spec (str kw ++ r) = Some (str kw, Some (str kw)).
Proof.
  intros Hin Hr. unfold keywords in Hin. cbn [In] in Hin.
  assert (E : forall k, forallb is_word k = true -> k <> [] ->
                        exec (re_word k) (k ++ r) = Some k).
  { intros k Hw Hne. rewrite (exec_word_boundary k r Hw Hne).
    destruct r as [|c r]; [reflexivity|]. simpl in Hr. rewrite Hr.
    reflexivity. }
  repeat (destruct Hin as [<-|Hin];
          [unfold Spec; miss_rules; apply first_match_hit;
           apply E; [reflexivity | discriminate]|]).
  contradiction.
Qed.

Lemma first_match_keyword_prefix kw c w r :
  In kw keywords ->
  is_word c = true ->
  forallb is_word w = true ->
  not_word_next r ->
  first_match Spec (str kw ++ c :: w ++ r)
  = Some (str kw ++ c :: w, Some (str "IDENTIFIER")).
Proof.
  intros Hin Hc Hw Hr. unfold keywords in Hin. cbn [In] in Hin.
  assert (E : forall k, forallb is_word k = true -> k <> [] ->
                        exec (re_word k) (k ++ c :: w ++ r) = None).
  { intros k Hk Hne. rewrite (exec_word_boundary k _ Hk Hne), Hc.
    reflexivity. }
  assert (I : forall k, forallb is_word k = true ->
                        exec (re_plus is_word) (k ++ c :: w ++ r)
                        = Some (k ++ c :: w)).
  { intros k Hk. cbn [exec].
    replace (k ++ c :: w ++ r) with ((k ++ c :: w) ++ r)
      by (rewrite <- app_assoc; reflexivity).
    rewrite span_longest.
    - cbn [fst]. destruct k; reflexivity.
    - rewrite forallb_app. simpl. rewrite Hk, Hc, Hw. reflexivity.
    - exact Hr. }
  repeat (destruct Hin as [<-|Hin];
          [unfold Spec; miss_rules;
           rewrite first_match_miss by (apply E; [reflexivity | discriminate]);
           miss_rules; apply first_match_hit; apply I; reflexivity|]).
  contradiction.
Qed.

(** X5.  Each of the sixteen keywords is a keyword token exactly when
    no word character follows it; followed by word characters it is the
    beginning of one [IDENTIFIER] token that takes the whole word. *)
Theorem keyword_needs_word_boundary t kw :
  In kw keywords ->
  (forall r,
      rest t = str kw ++ r ->
      not_word_next r ->
      getNextToken t
      = (Return (Some {| type := str kw; value := str kw |}),
         moved t (str kw)))
  /\ (forall c w r,
        rest t = str kw ++ c :: w ++ r ->
        is_word c = true ->
        forallb is_word w = true ->
        not_word_next r ->
        getNextToken t
        = (Return (Some {| type := str "IDENTIFIER";
                           value := str kw ++ c :: w |}),
           moved t (str kw ++ c :: w))).
Proof.
  intros Hin. split.
  - intros r Hrest Hr. apply getNextToken_first_match. rewrite Hrest.
    apply first_match_keyword; assumption.
  - intros c w r Hrest Hc Hw Hr. apply getNextToken_first_match.
    rewrite Hrest. apply first_match_keyword_prefix; assumption.
Qed.

Lemma keyword_needs_word_boundary_witness :
  getNextToken (init (str "do{"))
  = (Return (Some {| type := str "do"; value := str "do" |}),
     moved (init (str "do{")) (str "do"))
  /\ getNextToken (init (str "double x"))
     = (Return (Some {| type := str "IDENTIFIER"; value := str "double" |}),
        moved (init (str "double x")) (str "double")).
Proof.
  destruct (keyword_needs_word_boundary (init (str "do{")) "do") as [K _].
  { vm_compute. tauto. }
  destruct (keyword_needs_word_boundary (init (str "double x")) "do")
    as [_ I].
  { vm_compute. tauto. }
  split.
  - apply (K (str "{")); reflexivity.
  - apply (I 117%N (str "ble") (str " x")); reflexivity.
Defined.

(** X6.  A string literal that is not closed is a lexical error at its
    opening quote, for both kinds of quote. *)
Theorem unterminated_string_is_rejected t q body :
  q = 34%N \/ q = 39%N ->
  rest t = q :: body ->
  forallb (is_not q) body = true ->
  getNextToken t
  = (Throw (SyntaxError (str "Unexpected token: " ++ [34%N; q; 34%N])), t).
Proof.
  intros Hq Hrest Hbody. apply (getNextToken_no_match t q body Hrest).
  assert (E : exec (re_quoted q) (q :: body) = None).
  { cbn [exec]. rewrite N.eqb_refl.
    replace body with (body ++ []) by apply app_nil_r.
    rewrite span_longest; [reflexivity | exact Hbody | exact I]. }
  destruct Hq as [-> | ->]; unfold Spec; miss_rules;
    rewrite first_match_miss by exact E; miss_rules; reflexivity.
Qed.

Lemma unterminated_string_is_rejected_witness :
  getNextToken {| _string := str "x = 'abc;"; _cursor := 4 |}
  = (Throw (SyntaxError (str "Unexpected token: " ++ [34%N; 39%N; 34%N])),
     {| _string := str "x = 'abc;"; _cursor := 4 |}).
Proof.
  apply (unterminated_string_is_rejected
           {| _string := str "x = 'abc;"; _cursor := 4 |} 39%N (str "abc;")).
  - right. reflexivity.
  - reflexivity.
  - reflexivity.
Defined.

(** X7.  A block comment that is not closed is not skipped and not
    reported: its opening [/] is returned as a
    [MULTIPLICATIVE_OPERATOR] token. *)
Theorem unterminated_block_comment_is_an_operator t body :
  rest t = [47; 42]%N ++ body ->
  no_close body ->
  getNextToken t
  = (Return (Some {| type := str "MULTIPLICATIVE_OPERATOR";
                     value := str "/" |}),
     moved t (str "/")).
Proof.
  intros Hrest Hbody. apply getNextToken_first_match. rewrite Hrest.
  assert (E : exec re_block_comment ([47; 42]%N ++ body) = None).
  { cbn [exec]. rewrite strip_prefix_here, (no_close_before_close _ Hbody).
    reflexivity. }
  unfold Spec. miss_rules. rewrite first_match_miss by exact E. miss_rules.
  apply first_match_hit. reflexivity.
Qed.

Lemma unterminated_block_comment_is_an_operator_witness :
  getNextToken (init (str "/* no end"))
  = (Return (Some {| type := str "MULTIPLICATIVE_OPERATOR";
                     value := str "/" |}),
     moved (init (str "/* no end")) (str "/")).
Proof.
  apply (unterminated_block_comment_is_an_operator
           (init (str "/* no end")) (str " no end")).
  - reflexivity.
  - intros a b E. vm_compute in E.
    repeat (destruct a as [|? a]; [discriminate|]; injection E as <- E).
    destruct a; discriminate.
Defined.

(** X8.  The sign [=] is the first half of [==] when another [=]
    follows and a [SIMPLE_ASSIGN] otherwise; [!] is the first half of
    [!=] when [=] follows and a [LOGICAL_NOT] otherwise. *)
Theorem equals_and_bang t c r :
  c = 61%N \/ c = 33%N ->
  rest t = c :: r ->
  getNextToken t
  = if next_is 61 r then
      (Return (Some {| type := str "EQUALITY_OPERATOR";
                       value := [c; 61%N] |}),
       moved t [c; 61%N])
    else
      (Return (Some {| type := if (c =? 61)%N then str "SIMPLE_ASSIGN"
                               else str "LOGICAL_NOT";
                       value := [c] |}),
       moved t [c]).
Proof.
  intros Hc Hrest. destruct (next_is 61 r) eqn:D;
    apply getNextToken_first_match; rewrite Hrest.
  - destruct r as [|d r']; [discriminate|]. simpl in D.
    apply N.eqb_eq in D. subst d.
    destruct Hc as [-> | ->]; unfold Spec; miss_rules;
      apply first_match_hit; reflexivity.
  - assert (E : exec (re_cls_lit (is_one_of (str "=!")) 61) (c :: r)
                = None).
    { cbn [exec]. destruct r as [|d r']; [reflexivity|]. simpl in D.
      rewrite D, andb_false_r. reflexivity. }
    destruct Hc as [-> | ->]; unfold Spec; miss_rules;
      rewrite first_match_miss by exact E; miss_rules;
      apply first_match_hit; reflexivity.
Qed.

Lemma equals_and_bang_witness :
  getNextToken {| _string := str "a != b"; _cursor := 2 |}
  = (Return (Some {| type := str "EQUALITY_OPERATOR"; value := str "!=" |}),
     {| _string := str "a != b"; _cursor := 4 |}).
Proof.
  apply (equals_and_bang {| _string := str "a != b"; _cursor := 2 |}
           33%N (str "= b")).
  - right. reflexivity.
  - reflexivity.
Defined.

(** X9.  One of [*], [\], [/], [+], [-] with [=] right after it is a
    [COMPLEX_ASSIGN] token; the backslash is in the rule's character
    class along with the four operators. *)
Theorem complex_assign_tokens t c r :
  In c [42; 92; 47; 43; 45]%N ->
  rest t = c :: 61%N :: r ->
  getNextToken t
  = (Return (Some {| type := str "COMPLEX_ASSIGN"; value := [c; 61%N] |}),
     moved t [c; 61%N]).
Proof.
  intros Hc Hrest. apply getNextToken_first_match. rewrite Hrest.
  cbn [In] in Hc.
  repeat (destruct Hc as [<-|Hc];
          [unfold Spec; miss_rules; apply first_match_hit; reflexivity|]).
  contradiction.
Qed.

Lemma complex_assign_tokens_witness :
  getNextToken (init [92; 61; 49]%N)
  = (Return (Some {| type := str "COMPLEX_ASSIGN"; value := [92; 61]%N |}),
     moved (init [92; 61; 49]%N) [92; 61]%N).
Proof.
  apply (complex_assign_tokens (init [92; 61; 49]%N) 92%N [49%N]).
  - vm_compute. tauto.
  - reflexivity.
Defined.

(** X10.  A single [&] or [|] is a lexical error: only the doubled
    signs are tokens. *)
Theorem single_ampersand_or_bar_is_rejected t c r :
  c = 38%N \/ c = 124%N ->
  rest t = c :: r ->
  match r with [] => True | d :: _ => d <> c end ->
  getNextToken t
  = (Throw (SyntaxError (str "Unexpected token: " ++ [34%N; c; 34%N])), t).
Proof.
  intros Hc Hrest Hr. apply (getNextToken_no_match t c r Hrest).
  assert (E : exec (re_lit [c; c]) (c :: r) = None).
  { cbn [exec strip_prefix]. rewrite N.eqb_refl.
    destruct r as [|d r']; [reflexivity|].
    destruct (N.eqb_spec c d); [subst; contradiction | reflexivity]. }
  destruct Hc as [-> | ->]; unfold Spec; miss_rules;
    rewrite first_match_miss by exact E; miss_rules; reflexivity.
Qed.

Lemma single_ampersand_or_bar_is_rejected_witness :
  getNextToken {| _string := str "a & b"; _cursor := 2 |}
  = (Throw (SyntaxError (str "Unexpected token: " ++ [34%N; 38%N; 34%N])),
     {| _string := str "a & b"; _cursor := 2 |}).
Proof.
  apply (single_ampersand_or_bar_is_rejected
           {| _string := str "a & b"; _cursor := 2 |} 38%N (str " b")).
  - left. reflexivity.
  - reflexivity.
  - discriminate.
Defined.

(** The rules behind the token types of the literals and identifiers. *)
Lemma Spec_literal_rules regexp ty :
  In (regexp, Some ty) Spec ->
  (ty = str "NUMBER" -> regexp = re_plus is_digit)
  /\ (ty = str "IDENTIFIER" -> regexp = re_plus is_word)
  /\ (ty = str "STRING" -> regexp = re_quoted 34 \/ regexp = re_quoted 39).
Proof.
  unfold Spec. cbn [In]. intros H.
  repeat (destruct H as [H|H];
          [first [ discriminate H
                 | injection H as <- <-;
                   repeat split; intros E;
                   try (vm_compute in E; discriminate); auto ]|]).
  contradiction.
Qed.

Lemma exec_plus_all cls s m :
  exec (re_plus cls) s = Some m -> forallb cls m = true.
Proof.
  cbn [exec]. destruct (fst (span cls s)) as [|c m'] eqn:E; [discriminate|].
  intros H. inversion H; subst. rewrite <- E. apply span_all.
Qed.

Lemma exec_quoted_shape q s m :
  exec (re_quoted q) s = Some m ->
  exists body, m = q :: body ++ [q] /\ forallb (is_not q) body = true.
Proof.
  cbn [exec]. destruct s as [|c r]; [discriminate|].
  destruct (N.eqb_spec c q); [subst c | discriminate].
  pose proof (span_stop (is_not q) r) as Hstop.
  destruct (snd (span (is_not q) r)) as [|e r']; [discriminate|].
  intros H. inversion H; subst. exists (fst (span (is_not q) r)).
  split; [|apply span_all].
  unfold is_not in Hstop. apply negb_false_iff, N.eqb_eq in Hstop.
  subst e. reflexivity.
Qed.

(** X11.  The value of a [NUMBER] token is made of digits, the value of
    an [IDENTIFIER] token of word characters, and the value of a
    [STRING] token is a text without the quote character between two
    quote characters of the same kind. *)
Theorem literal_token_values t token :
  fst (getNextToken t) = Return (Some token) ->
  (type token = str "NUMBER" -> forallb is_digit (value token) = true)
  /\ (type token = str "IDENTIFIER" -> forallb is_word (value token) = true)
  /\ (type token = str "STRING" ->
      exists q body,
        (q = 34%N \/ q = 39%N)
        /\ value token = q :: body ++ [q]
        /\ forallb (is_not q) body = true).
Proof.
  intros H.
  destruct (getNextToken_token t token H) as (skipped & _ & _ & _ & F).
  destruct (first_match_in _ _ _ _ F) as [regexp [Hin He]].
  destruct (Spec_literal_rules _ _ Hin) as (Hn & Hi & Hs).
  repeat split; intros Hty.
  - rewrite (Hn Hty) in He. eapply exec_plus_all. exact He.
  - rewrite (Hi Hty) in He. eapply exec_plus_all. exact He.
  - destruct (Hs Hty) as [-> | ->];
      destruct (exec_quoted_shape _ _ _ He) as [body [Hm Hb]];
      eexists _, body; eauto.
Qed.

Lemma literal_token_values_witness :
  (str "STRING" = str "NUMBER" -> forallb is_digit (str "'a b'") = true)
  /\ (str "STRING" = str "IDENTIFIER" ->
      forallb is_word (str "'a b'") = true)
  /\ (str "STRING" = str "STRING" ->
      exists q body,
        (q = 34%N \/ q = 39%N)
        /\ str "'a b'" = q :: body ++ [q]
        /\ forallb (is_not q) body = true).
Proof.
  apply (literal_token_values (init (str " 'a b';"))
           {| type := str "STRING"; value := str "'a b'" |}).
  vm_compute. reflexivity.
Defined.

(** X12.  On an [init]-ed tokenizer, after any number of calls,
    [isEOF()] is the negation of [hasMoreTokens()]: the cursor never
    passes the end of the text, so [===] and [<] tell the same. *)
Theorem isEOF_is_not_hasMoreTokens s n :
  isEOF (after_calls n (init s))
  = negb (hasMoreTokens (after_calls n (init s))).
Proof.
  destruct (after_calls_inv s n) as [Hs Hc].
  unfold isEOF, hasMoreTokens. rewrite Hs.
  destruct (Nat.eqb_spec (_cursor (after_calls n (init s))) (length s)),
    (Nat.ltb_spec (_cursor (after_calls n (init s))) (length s));
    simpl; try reflexivity; lia.
Qed.

(** ** The stream of tokens *)

Lemma getNextToken_at_end t :
  hasMoreTokens t = false -> getNextToken t = (Return None, t).
Proof. intros H. rewrite getNextToken_unfold, H. reflexivity. Qed.

(** After the sentinel comes the sentinel. *)
Lemma getNextToken_sentinel_stable t :
  fst (getNextToken t) = Return None ->
  fst (getNextToken (snd (getNextToken t))) = Return None.
Proof.
  intros H. apply getNextToken_sentinel in H.
  destruct (le_lt_dec (_cursor t) (length (_string t))) as [Hc|Hc].
  - rewrite (getNextToken_skippable _ t (le_n _) Hc H). cbn [snd].
    rewrite getNextToken_at_end; [reflexivity|].
    unfold hasMoreTokens. cbn [_cursor _string]. apply Nat.ltb_irrefl.
  - assert (E : hasMoreTokens t = false)
      by (unfold hasMoreTokens; apply Nat.ltb_ge; lia).
    rewrite (getNextToken_at_end t E). cbn [snd].
    rewrite (getNextToken_at_end t E). reflexivity.
Qed.

Lemma tokens_fuel_stream fuel : forall t tokens,
  tokens_fuel fuel t = Return tokens -> stream t tokens.
Proof.
  induction fuel as [|fuel IH]; intros t tokens H; [discriminate|].
  cbn [tokens_fuel] in H.
  destruct (getNextToken t) as [[[token|]|e|] t'] eqn:G; try discriminate.
  - destruct (tokens_fuel fuel t') as [l| |] eqn:L; try discriminate.
    inversion H; subst.
    apply stream_token; rewrite G; [reflexivity | apply IH, L].
  - inversion H; subst. apply stream_end. rewrite G. reflexivity.
Qed.

Lemma stream_tokens_fuel t tokens :
  stream t tokens ->
  forall fuel, tokens_fuel fuel t <> OutOfFuel ->
               tokens_fuel fuel t = Return tokens.
Proof.
  induction 1 as [t H|t token tokens H _ IH]; intros [|fuel] N;
    try contradiction (N eq_refl); cbn [tokens_fuel] in *;
    destruct (getNextToken t) as [c t']; cbn [fst snd] in *; subst c.
  - reflexivity.
  - rewrite IH; [reflexivity|].
    intros E. rewrite E in N. contradiction (N eq_refl).
Qed.

Lemma tokenize_stream s tokens :
  tokenize s = Return tokens <-> stream (init s) tokens.
Proof.
  split.
  - apply tokens_fuel_stream.
  - intros H. apply (stream_tokens_fuel _ _ H), tokenize_total.
Qed.

End TokenizerFacts.

(* ================================================================== *)
(** * Properties of the parser *)
(* ================================================================== *)

Section ParserFacts.
Import JS Parser.
#[local] Open Scope parser_scope.

(** ** The parser reads its state through the lookahead and the text
    left only *)

Lemma getNextToken_rest n : forall t t',
  length (Tokenizer.rest t) <= n ->
  Tokenizer.rest t = Tokenizer.rest t' ->
  fst (Tokenizer.getNextToken t) = fst (Tokenizer.getNextToken t')
  /\ Tokenizer.rest (snd (Tokenizer.getNextToken t))
     = Tokenizer.rest (snd (Tokenizer.getNextToken t')).
Proof.
  induction n as [|n IH]; intros t t' Hn E;
    rewrite !getNextToken_unfold;
    destruct (Tokenizer.hasMoreTokens t) eqn:Hm;
    destruct (Tokenizer.hasMoreTokens t') eqn:Hm'; cbn [negb];
    try (apply hasMoreTokens_rest in Hm; rewrite E in Hm;
         apply hasMoreTokens_rest in Hm; congruence);
    try (apply hasMoreTokens_rest in Hm'; rewrite <- E in Hm';
         apply hasMoreTokens_rest in Hm'; congruence);
    try (split; [reflexivity | exact E]).
  - assert (E0 : Tokenizer.rest t = [])
      by (apply length_zero_iff_nil; lia).
    apply hasMoreTokens_rest in E0. congruence.
  - rewrite !scan_rules_first_match, <- E.
    destruct (Tokenizer.first_match Tokenizer.Spec (Tokenizer.rest t))
      as [[m [ty|]]|] eqn:F.
    + destruct (first_match_Spec _ _ _ F) as [_ [r Hr]].
      split; [reflexivity|]. cbn [snd].
      rewrite (rest_moved _ _ _ Hr). rewrite E in Hr.
      rewrite (rest_moved _ _ _ Hr). reflexivity.
    + destruct (first_match_Spec _ _ _ F) as [Hne [r Hr]].
      apply IH.
      * rewrite (rest_moved _ _ _ Hr). rewrite Hr, length_app in Hn.
        destruct m; [contradiction | simpl in Hn; lia].
      * rewrite (rest_moved _ _ _ Hr). rewrite E in Hr.
        rewrite (rest_moved _ _ _ Hr). reflexivity.
    + split; [reflexivity | exact E].
Qed.

Lemma respects_ret A (a : A) : respects (ret a).
Proof. intros p p' H. simpl. split; [reflexivity | exact H]. Qed.

Lemma respects_throw A e : respects (@throw A e).
Proof. intros p p' H. reflexivity. Qed.

Lemma respects_out_of_fuel A : respects (@out_of_fuel A).
Proof. intros p p' H. exact I. Qed.

Lemma respects_bind A B (m : M A) (k : A -> M B) :
  respects m -> (forall a, respects (k a)) -> respects (bind m k).
Proof.
  intros Hm Hk p p' H. unfold bind. specialize (Hm p p' H).
  destruct (m p) as [[a q]| |], (m p') as [[a' q']| |]; simpl in Hm;
    try contradiction; try exact Hm.
  destruct Hm as [<- Hq]. apply Hk. exact Hq.
Qed.

Lemma respects_lookahead : respects lookahead.
Proof. intros p p' H. simpl. split; [apply H | exact H]. Qed.

Lemma respects_advance : respects advance.
Proof.
  intros p p' [Hl Hr]. unfold advance.
  destruct (getNextToken_rest _ _ _ (le_n _) Hr) as [H1 H2].
  destruct (Tokenizer.getNextToken (_tokenizer p)) as [c t].
  destruct (Tokenizer.getNextToken (_tokenizer p')) as [c' t'].
  simpl in H1, H2. subst c'.
  destruct c as [next| |]; simpl; auto.
  split; [reflexivity|]. split; [reflexivity | exact H2].
Qed.

Create HintDb respects discriminated.
#[local] Hint Resolve respects_ret respects_throw respects_out_of_fuel
  respects_lookahead respects_advance : respects.

(** One step through a computation built from [bind], [ret], [throw]
    and case distinctions. *)
Ltac respects_step :=
  match goal with
  | |- respects (bind _ _) => apply respects_bind; [|intro]
  | |- respects (if ?b then _ else _) => destruct b
  | |- respects (let _ := _ in _) => cbv zeta
  | |- respects (match ?x with _ => _ end) => destruct x
  | |- respects _ => solve [auto with respects]
  end.

Ltac respects_all := repeat respects_step.

Lemma respects_lookahead_type : respects lookahead_type.
Proof. unfold lookahead_type. respects_all. Qed.

Lemma respects__eat tokenType : respects (_eat tokenType).
Proof. unfold _eat. respects_all. Qed.

Lemma respects_eat tokenType : respects (eat tokenType).
Proof. apply respects__eat. Qed.

#[local] Hint Resolve respects_lookahead_type respects__eat respects_eat
  : respects.

Lemma respects_Identifier : respects Identifier.
Proof. unfold Identifier. respects_all. Qed.

Lemma respects_EmptyStatement : respects EmptyStatement.
Proof. unfold EmptyStatement. respects_all. Qed.

#[local] Hint Resolve respects_Identifier respects_EmptyStatement : respects.

Lemma respects_ClassExtends : respects ClassExtends.
Proof. unfold ClassExtends. respects_all. Qed.

Lemma respects_ThisExpression : respects ThisExpression.
Proof. unfold ThisExpression. respects_all. Qed.

Lemma respects_Super : respects Super.
Proof. unfold Super. respects_all. Qed.

Lemma respects_Literal : respects Literal.
Proof.
  unfold Literal, NumericLiteral, StringLiteral, BooleanLiteral, NullLiteral.
  respects_all.
Qed.

Lemma respects__checkValidAssignmentTarget v :
  respects (_checkValidAssignmentTarget v).
Proof. unfold _checkValidAssignmentTarget. respects_all. Qed.

Lemma respects_AssignmentOperator : respects AssignmentOperator.
Proof. unfold AssignmentOperator. respects_all. Qed.

#[local] Hint Resolve respects_ClassExtends respects_ThisExpression
  respects_Super respects_Literal respects__checkValidAssignmentTarget
  respects_AssignmentOperator : respects.

Lemma respects_FormalParameterList fuel : forall params,
  respects (FormalParameterList_do fuel params).
Proof.
  induction fuel as [|fuel IH]; intros params; cbn [FormalParameterList_do];
    respects_all.
Qed.

Ltac unfold_expressions :=
  cbn [Expression AssignmentExpression LogicalORExpression LogicalANDExpression EqualityExpression RelationalExpression AdditiveExpression MultiplicativeExpression UnaryExpression LeftHandSideExpression CallMemberExpression MemberExpression PrimaryExpression NewExpression ParenthesizedExpression Arguments ArgumentList LogicalORExpression_while LogicalANDExpression_while EqualityExpression_while RelationalExpression_while AdditiveExpression_while MultiplicativeExpression_while _CallExpression MemberExpression_while ArgumentList_do].

Lemma respects_expressions fuel :
  respects (Expression fuel) /\
  respects (AssignmentExpression fuel) /\
  respects (LogicalORExpression fuel) /\
  respects (LogicalANDExpression fuel) /\
  respects (EqualityExpression fuel) /\
  respects (RelationalExpression fuel) /\
  respects (AdditiveExpression fuel) /\
  respects (MultiplicativeExpression fuel) /\
  respects (UnaryExpression fuel) /\
  respects (LeftHandSideExpression fuel) /\
  respects (CallMemberExpression fuel) /\
  respects (MemberExpression fuel) /\
  respects (PrimaryExpression fuel) /\
  respects (NewExpression fuel) /\
  respects (ParenthesizedExpression fuel) /\
  respects (Arguments fuel) /\
  respects (ArgumentList fuel) /\
  (forall x, respects (LogicalORExpression_while fuel x)) /\
  (forall x, respects (LogicalANDExpression_while fuel x)) /\
  (forall x, respects (EqualityExpression_while fuel x)) /\
  (forall x, respects (RelationalExpression_while fuel x)) /\
  (forall x, respects (AdditiveExpression_while fuel x)) /\
  (forall x, respects (MultiplicativeExpression_while fuel x)) /\
  (forall x, respects (_CallExpression fuel x)) /\
  (forall x, respects (MemberExpression_while fuel x)) /\
  (forall x, respects (ArgumentList_do fuel x)).
Proof.
  induction fuel as [|fuel IH].
  - unfold_expressions. repeat split; intros; apply respects_out_of_fuel.
  - repeat match type of IH with _ /\ _ => destruct IH as [? IH] end.
    repeat split; intros; unfold_expressions; respects_all.
Qed.

Lemma respects_expression fuel :
  respects (Expression fuel) /\ respects (AssignmentExpression fuel).
Proof. pose proof (respects_expressions fuel). tauto. Qed.

Lemma respects_VariableDeclarationList_do fuel : forall declarations,
  respects (VariableDeclarationList_do fuel declarations).
Proof.
  pose proof respects_expression as E.
  induction fuel as [|fuel IH]; intros declarations;
    cbn [VariableDeclarationList_do];
    unfold VariableDeclaration, VariableInitializer; respects_all;
    apply E.
Qed.

Lemma respects_VariableStatementInit fuel :
  respects (VariableStatementInit fuel).
Proof.
  pose proof respects_VariableDeclarationList_do.
  unfold VariableStatementInit, VariableDeclarationList. respects_all.
Qed.

Lemma respects_VariableStatement fuel : respects (VariableStatement fuel).
Proof.
  pose proof respects_VariableStatementInit.
  unfold VariableStatement. respects_all.
Qed.

Lemma respects_ForStatementInit fuel : respects (ForStatementInit fuel).
Proof.
  pose proof respects_VariableStatementInit.
  unfold ForStatementInit. respects_all. apply respects_expression.
Qed.

Lemma respects_ReturnStatement fuel : respects (ReturnStatement fuel).
Proof.
  unfold ReturnStatement. respects_all; apply respects_expression.
Qed.

Lemma respects_ExpressionStatement fuel : respects (ExpressionStatement fuel).
Proof.
  unfold ExpressionStatement. respects_all; apply respects_expression.
Qed.

#[local] Hint Resolve respects_VariableStatement respects_ForStatementInit
  respects_ReturnStatement respects_ExpressionStatement
  respects_FormalParameterList : respects.

Ltac unfold_statements :=
  cbn [StatementList StatementList_while Statement IfStatement
       FunctionDeclaration ClassDeclaration IterationStatement
       WhileStatement DoStatement ForStatement BlockStatement].

Lemma respects_statements fuel :
  (forall stop, respects (StatementList fuel stop)) /\
  (forall stop l, respects (StatementList_while fuel stop l)) /\
  respects (Statement fuel) /\
  respects (IfStatement fuel) /\
  respects (FunctionDeclaration fuel) /\
  respects (ClassDeclaration fuel) /\
  respects (IterationStatement fuel) /\
  respects (WhileStatement fuel) /\
  respects (DoStatement fuel) /\
  respects (ForStatement fuel) /\
  respects (BlockStatement fuel).
Proof.
  pose proof (fun fuel => proj1 (respects_expression fuel)) as E.
  induction fuel as [|fuel IH].
  - unfold_statements. repeat split; intros; apply respects_out_of_fuel.
  - repeat match type of IH with _ /\ _ => destruct IH as [? IH] end.
    repeat split; intros; unfold_statements; unfold FormalParameterList;
      respects_all.
Qed.

(** ** Every expression production returns a node *)

Lemma returns_ret A (P : A -> Prop) a : P a -> returns P (ret a).
Proof. intros H p a' p' E. inversion E; subst. exact H. Qed.

Lemma returns_throw A (P : A -> Prop) e : returns P (throw e).
Proof. intros p a p' E. discriminate. Qed.

Lemma returns_out_of_fuel A (P : A -> Prop) : returns P out_of_fuel.
Proof. intros p a p' E. discriminate. Qed.

Lemma returns_bind A B (Q : A -> Prop) (P : B -> Prop) m k :
  returns Q m -> (forall a, Q a -> returns P (k a)) -> returns P (bind m k).
Proof.
  intros Hm Hk p b p' E. unfold bind in E.
  destruct (m p) as [[a q]| |] eqn:Em; try discriminate.
  exact (Hk a (Hm _ _ _ Em) _ _ _ E).
Qed.

Lemma returns_anything A (m : M A) : returns (fun _ => True) m.
Proof. intros p a p' E. exact I. Qed.

Lemma is_node_node ty fields : is_node (node ty fields).
Proof. eexists. reflexivity. Qed.

Create HintDb returns discriminated.
#[local] Hint Resolve returns_throw returns_out_of_fuel is_node_node
  : returns.

Ltac returns_step :=
  match goal with
  | |- returns _ (bind _ _) =>
      first [ eapply (@returns_bind _ _ is_node);
                [solve [auto with returns] | intros ? ?]
            | eapply returns_bind; [apply returns_anything | intros ? _] ]
  | |- returns _ (ret _) => apply returns_ret; solve [auto with returns]
  | |- returns _ (if ?b then _ else _) => destruct b
  | |- returns _ (let _ := _ in _) => cbv zeta
  | |- returns _ (match ?x with _ => _ end) => destruct x
  | |- returns _ _ => solve [auto with returns]
  end.

Ltac returns_all := repeat returns_step.

Lemma returns_Identifier : returns is_node Identifier.
Proof. unfold Identifier. returns_all. Qed.

Lemma returns_ThisExpression : returns is_node ThisExpression.
Proof. unfold ThisExpression. returns_all. Qed.

Lemma returns_Super : returns is_node Super.
Proof. unfold Super. returns_all. Qed.

Lemma returns_Literal : returns is_node Literal.
Proof.
  unfold Literal, NumericLiteral, StringLiteral, BooleanLiteral, NullLiteral.
  returns_all.
Qed.

#[local] Hint Resolve returns_Identifier returns_ThisExpression returns_Super
  returns_Literal : returns.

Lemma returns_expressions fuel :
  returns is_node (Expression fuel) /\
  returns is_node (AssignmentExpression fuel) /\
  returns is_node (LogicalORExpression fuel) /\
  returns is_node (LogicalANDExpression fuel) /\
  returns is_node (EqualityExpression fuel) /\
  returns is_node (RelationalExpression fuel) /\
  returns is_node (AdditiveExpression fuel) /\
  returns is_node (MultiplicativeExpression fuel) /\
  returns is_node (UnaryExpression fuel) /\
  returns is_node (LeftHandSideExpression fuel) /\
  returns is_node (CallMemberExpression fuel) /\
  returns is_node (MemberExpression fuel) /\
  returns is_node (PrimaryExpression fuel) /\
  returns is_node (NewExpression fuel) /\
  returns is_node (ParenthesizedExpression fuel) /\
  (forall x, is_node x -> returns is_node (LogicalORExpression_while fuel x)) /\
  (forall x, is_node x -> returns is_node (LogicalANDExpression_while fuel x)) /\
  (forall x, is_node x -> returns is_node (EqualityExpression_while fuel x)) /\
  (forall x, is_node x -> returns is_node (RelationalExpression_while fuel x)) /\
  (forall x, is_node x -> returns is_node (AdditiveExpression_while fuel x)) /\
  (forall x, is_node x -> returns is_node (MultiplicativeExpression_while fuel x)) /\
  (forall x, is_node x -> returns is_node (MemberExpression_while fuel x)) /\
  (forall x, returns is_node (_CallExpression fuel x)).
Proof.
  induction fuel as [|fuel IH].
  - unfold_expressions. repeat split; intros; apply returns_out_of_fuel.
  - repeat match type of IH with _ /\ _ => destruct IH as [? IH] end.
    repeat split; intros; unfold_expressions; returns_all.
Qed.

(** ** The loop of [EqualityExpression] *)

(** Once the accumulated node has no [left], the loop returns a node
    without [left]. *)
Lemma EqualityExpression_while_keeps_no_left fuel : forall x p v p',
  get "left" x = None ->
  EqualityExpression_while fuel x p = Return (v, p') ->
  get "left" v = None.
Proof.
  induction fuel as [|fuel IH]; intros x p v p' Hx H;
    cbn [EqualityExpression_while] in H; [discriminate|].
  unfold bind in H.
  destruct (lookahead_type p) as [[ty q]| |]; try discriminate.
  destruct (ty === "EQUALITY_OPERATOR").
  - destruct (eat "EQUALITY_OPERATOR" q) as [[operator q1]| |];
      try discriminate.
    destruct (RelationalExpression fuel q1) as [[right q2]| |];
      try discriminate.
    eapply IH; [|exact H]. reflexivity.
  - inversion H; subst. exact Hx.
Qed.

(** Whenever the loop sees an equality operator, the node it returns
    has no [left]: the operand accumulated so far is dropped. *)
Lemma EqualityExpression_while_drops_left fuel left p operator v p' :
  _lookahead p = Some operator ->
  Tokenizer.type operator = str "EQUALITY_OPERATOR" ->
  EqualityExpression_while fuel left p = Return (v, p') ->
  get "left" v = None.
Proof.
  intros Hla Hty H. destruct fuel as [|fuel]; [discriminate|].
  cbn [EqualityExpression_while] in H. unfold bind in H.
  unfold lookahead_type, bind, lookahead in H. rewrite Hla in H.
  cbn [ret] in H. rewrite Hty in H.
  change (str "EQUALITY_OPERATOR" === "EQUALITY_OPERATOR") with true in H.
  cbv beta iota in H.
  destruct (eat "EQUALITY_OPERATOR" p) as [[op q1]| |]; try discriminate.
  destruct (RelationalExpression fuel q1) as [[right q2]| |];
    try discriminate.
  eapply EqualityExpression_while_keeps_no_left; [|exact H]. reflexivity.
Qed.

(** ** Nested [if]s *)

Lemma agree_Return A (c c' : Completion (A * Parser)) a q' :
  agree c c' -> c' = Return (a, q') ->
  exists q, c = Return (a, q) /\ related q q'.
Proof.
  intros H ->. destruct c as [[a0 q]| |]; simpl in H; try contradiction.
  destruct H as [-> H]. exists q. split; [reflexivity | exact H].
Qed.

Lemma Statement_related fuel p p' v q' :
  related p p' ->
  Statement fuel p' = Return (v, q') ->
  exists q, Statement fuel p = Return (v, q) /\ related q q'.
Proof.
  intros R E. pose proof (respects_statements fuel) as (_ & _ & H & _).
  exact (agree_Return _ _ _ _ _ (H p p' R) E).
Qed.

(** The innermost statement: the [else] goes to [if (b)], and the text
    ends there. *)
Lemma Statement_if_b_c_else_d fuel p :
  16 <= fuel ->
  _lookahead p = token "if" "if" ->
  Tokenizer.rest (_tokenizer p) = str " (b) c(); else d();" ->
  exists q,
    Statement fuel p = Return (if_b_c_else_d, q) /\ _lookahead q = None.
Proof.
  intros Hfuel Hla Hrest.
  destruct (Statement_related fuel p
              (parser_at (str " (b) c(); else d();") 0 (token "if" "if"))
              if_b_c_else_d
              (parser_at (str " (b) c(); else d();") 19 None))
    as [q [E [R _]]].
  - split; [exact Hla | exact Hrest].
  - replace fuel with (16 + (fuel - 16)) by lia.
    generalize (fuel - 16). intros k. vm_compute. reflexivity.
  - exists q. split; [exact E | exact R].
Qed.

Lemma bind_Return A B (m : M A) (k : A -> M B) p a q :
  m p = Return (a, q) -> bind m k p = k a q.
Proof. intros H. unfold bind. rewrite H. reflexivity. Qed.

(** [Statement] on the lookahead [if] is [IfStatement]. *)
Lemma Statement_if fuel p :
  _lookahead p = token "if" "if" ->
  Statement (S fuel) p = IfStatement fuel p.
Proof.
  intros H. cbn [Statement].
  rewrite (bind_Return _ _ lookahead_type _ p (str "if") p).
  - reflexivity.
  - unfold lookahead_type, bind, lookahead. rewrite H. reflexivity.
Qed.

(** The tokens of ["(a) "] before the next [if]. *)
Lemma eat_if_before_a Y :
  eat "if" (parser_at (str " (a) if (" ++ Y) 0 (token "if" "if"))
  = Return (Tokenizer.mkToken (str "if") (str "if"),
            parser_at (str " (a) if (" ++ Y) 2 (token "(" "(")).
Proof. vm_compute. reflexivity. Qed.

Lemma eat_paren_before_a Y :
  eat "(" (parser_at (str " (a) if (" ++ Y) 2 (token "(" "("))
  = Return (Tokenizer.mkToken (str "(") (str "("),
            parser_at (str " (a) if (" ++ Y) 3 (token "IDENTIFIER" "a")).
Proof. vm_compute. reflexivity. Qed.

Lemma Expression_a fuel Y :
  13 <= fuel ->
  Expression fuel
    (parser_at (str " (a) if (" ++ Y) 3 (token "IDENTIFIER" "a"))
  = Return (identifier "a",
            parser_at (str " (a) if (" ++ Y) 4 (token ")" ")")).
Proof.
  intros H. replace fuel with (13 + (fuel - 13)) by lia.
  generalize (fuel - 13). intros k. vm_compute. reflexivity.
Qed.

Lemma eat_paren_after_a Y :
  eat ")" (parser_at (str " (a) if (" ++ Y) 4 (token ")" ")"))
  = Return (Tokenizer.mkToken (str ")") (str ")"),
            parser_at (str " (a) if (" ++ Y) 7 (token "if" "if")).
Proof. vm_compute. reflexivity. Qed.

(** One level of nesting: after [if (a)] the consequent is parsed as a
    statement, and only then is an [else] looked for. *)
Lemma Statement_if_a fuel Y :
  13 <= fuel ->
  Statement (S (S fuel))
    (parser_at (str " (a) if (" ++ Y) 0 (token "if" "if"))
  = (consequent <- Statement fuel ;;
     la <- lookahead ;;
     alternate <-
       match la with
       | Some token =>
           if Tokenizer.type token === "else"
           then eat "else" ;; Statement fuel
           else ret Null
       | None => ret Null
       end ;;
     ret (if_statement (identifier "a") consequent alternate))
      (parser_at (str " (a) if (" ++ Y) 7 (token "if" "if")).
Proof.
  intros H. rewrite Statement_if by reflexivity.
  cbn [IfStatement].
  rewrite (bind_Return _ _ _ _ _ _ _ (eat_if_before_a Y)).
  rewrite (bind_Return _ _ _ _ _ _ _ (eat_paren_before_a Y)).
  rewrite (bind_Return _ _ _ _ _ _ _ (Expression_a fuel Y H)).
  rewrite (bind_Return _ _ _ _ _ _ _ (eat_paren_after_a Y)).
  reflexivity.
Qed.

Lemma first_token_if Y :
  Tokenizer.getNextToken (Tokenizer.init (str "if (" ++ Y))
  = (Return (token "if" "if"), Tokenizer.mkTokenizer (str "if (" ++ Y) 2).
Proof. vm_compute. reflexivity. Qed.

Lemma if_a_text_starts n :
  exists Y, if_a_text n (str "if (b) c(); else d();") = str "if (" ++ Y.
Proof.
  destruct n as [|n]; cbn [if_a_text].
  - exists (str "b) c(); else d();"). reflexivity.
  - exists (str "a) " ++ if_a_text n (str "if (b) c(); else d();")).
    reflexivity.
Qed.

Lemma Statement_if_a_nest n : forall fuel p,
  16 + 2 * n <= fuel ->
  _lookahead p = token "if" "if" ->
  Tokenizer.rest (_tokenizer p)
  = skipn 2 (if_a_text n (str "if (b) c(); else d();")) ->
  exists q,
    Statement fuel p = Return (if_a_nest n if_b_c_else_d, q)
    /\ _lookahead q = None.
Proof.
  induction n as [|n IH]; intros fuel p Hfuel Hla Hrest.
  - apply Statement_if_b_c_else_d; [lia | assumption | assumption].
  - destruct (if_a_text_starts n) as [Y HY].
    cbn [if_a_text] in Hrest. rewrite HY in Hrest.
    destruct fuel as [|[|fuel]]; try lia.
    destruct (IH fuel (parser_at (str " (a) if (" ++ Y) 7 (token "if" "if")))
      as [q [E Hq]].
    + lia.
    + reflexivity.
    + rewrite HY. reflexivity.
    + destruct (Statement_related (S (S fuel)) p
                  (parser_at (str " (a) if (" ++ Y) 0 (token "if" "if"))
                  (if_a_nest (S n) if_b_c_else_d) q)
        as [q' [E' [R _]]].
      * split; [exact Hla | exact Hrest].
      * rewrite Statement_if_a by lia.
        rewrite (bind_Return _ _ _ _ _ _ _ E).
        unfold bind at 1, lookahead at 1. rewrite Hq. reflexivity.
      * exists q'. split; [exact E' | congruence].
Qed.

(** The whole program is the one statement. *)
Lemma Program_one_statement fuel p v q :
  Statement (S fuel) p = Return (v, q) ->
  _lookahead q = None ->
  Program (S (S fuel)) p = Return (program [v], q).
Proof.
  intros E Hq. unfold Program. cbn [StatementList].
  unfold bind at 1. unfold bind at 1. rewrite E.
  cbn [StatementList_while]. unfold bind at 1, lookahead at 1.
  rewrite Hq. reflexivity.
Qed.

(** ** The claims about the parser, on the inputs they name *)

(** C1.  [parse] does not keep to "the Program node or a SyntaxError":
    on the empty text, and on a text that ends right after an
    expression, it throws a [TypeError], because [Statement] and the
    loops of the expression productions read [this._lookahead.type]
    while the lookahead is [null]. *)
Theorem C1_parse_throws_TypeError_at_end_of_input k :
  parse (2 + k) (str "") = Throw TypeError
  /\ parse (15 + k) (str "a") = Throw TypeError.
Proof. split; vm_compute; reflexivity. Qed.

(** C3.  Subtraction associates to the left and assignment to the
    right. *)
Theorem C3_associativity k :
  parse (17 + k) (str "a - b - c;")
  = Return
      (program
         [expression_statement
            (binary_expression "-"
               (binary_expression "-" (identifier "a") (identifier "b"))
               (identifier "c"))])
  /\ parse (17 + k) (str "a = b = c;")
     = Return
         (program
            [expression_statement
               (assignment_expression "="
                  (identifier "a")
                  (assignment_expression "="
                     (identifier "b") (identifier "c")))]).
Proof. split; vm_compute; reflexivity. Qed.

(** C2.  The node that [EqualityExpression] builds has an [operator]
    and a [right] but no [left]: the operand to the left of [==] or [!=]
    is lost, while the node of [RelationalExpression] keeps it. *)
Theorem C2_equality_node_has_no_left k :
  parse (16 + k) (str "a == b;")
  = Return
      (program
         [expression_statement (equality_expression "==" (identifier "b"))])
  /\ parse (17 + k) (str "a != b != c;")
     = Return
         (program
            [expression_statement
               (equality_expression "!=" (identifier "c"))])
  /\ (forall operator right,
        get "left" (equality_expression operator right) = None)
  /\ parse (16 + k) (str "a < b;")
     = Return
         (program
            [expression_statement
               (binary_expression "<" (identifier "a") (identifier "b"))]).
Proof. repeat split; vm_compute; reflexivity. Qed.

(** Under any number of enclosing [if (a)] without blocks, the
    statement [if (b) c(); else d();] keeps its [else], and every
    enclosing [if] has [alternate: null]. *)
Lemma parse_if_a_nest :
  (forall k,
      parse (19 + k) (str "if (a) if (b) c(); else d();")
      = Return
          (program
             [if_statement (identifier "a")
                (if_statement (identifier "b")
                   (expression_statement
                      (call_expression (identifier "c") []))
                   (expression_statement
                      (call_expression (identifier "d") [])))
                Null]))
  /\ (forall n k,
        parse (17 + 2 * n + k) (if_a_text n (str "if (b) c(); else d();"))
        = Return (program [if_a_nest n if_b_c_else_d])).
Proof.
  split; [intros k; vm_compute; reflexivity|].
  intros n k. destruct (if_a_text_starts n) as [Y HY].
  unfold parse. rewrite HY, first_token_if.
  fold (parser_at (str "if (" ++ Y) 2 (token "if" "if")).
  replace (17 + 2 * n + k) with (S (S (15 + 2 * n + k))) by lia.
  generalize (Nat.le_add_r (15 + 2 * n) k).
  generalize (15 + 2 * n + k). intros fuel Hfuel.
  destruct (Statement_if_a_nest n (S fuel)
              (parser_at (str "if (" ++ Y) 2 (token "if" "if")))
    as [q [E Hq]].
  - lia.
  - reflexivity.
  - rewrite HY. reflexivity.
  - rewrite (Program_one_statement _ _ _ _ E Hq). reflexivity.
Qed.

(** C8, as stated, fails on a stray ["@"].  The error is a
    [SyntaxError], not an error of another kind; it is the same error
    wherever the ["@"] stands, so it carries no cursor position; and it
    is of the class of the parser's own errors, such as the one [parse]
    throws on ["x y"]. *)
Lemma C8_counterexample :
  ~ (exists e,
        fst (Tokenizer.getNextToken (Tokenizer.init (str "@"))) = Throw e
        /\ forall message, e <> SyntaxError message)
  /\ fst (Tokenizer.getNextToken (Tokenizer.init (str "  @")))
     = fst (Tokenizer.getNextToken (Tokenizer.init (str "@")))
  /\ fst (Tokenizer.getNextToken (Tokenizer.init (str "@")))
     = Throw (SyntaxError (str "Unexpected token: " ++ quoted (str "@")))
  /\ parse 15 (str "x y")
     = Throw (SyntaxError
                (str "Unexpected token: " ++ quoted (str "y")
                 ++ str ", expected: " ++ quoted (str ";"))).
Proof.
  split; [|repeat split; vm_compute; reflexivity].
  intros [e [H Hkind]].
  vm_compute in H. inversion H; subst.
  eapply Hkind. reflexivity.
Qed.

(** C5.  ["5 = 3;"] is rejected with a [SyntaxError].  In general, when
    [LogicalORExpression] has returned a left side that is neither an
    [Identifier] nor a [MemberExpression] and the lookahead is an
    assignment operator, [AssignmentExpression] throws a [SyntaxError]
    and builds no node; the error is the one of the invalid target
    unless the tokenizer fails on the text after the operator. *)
Theorem C5_invalid_assignment_target :
  (forall k,
      parse (15 + k) (str "5 = 3;")
      = Throw (SyntaxError
                 (str "Invalid left-hand side in assignment expression")))
  /\ (forall fuel p left p' operator,
        LogicalORExpression fuel p = Return (left, p') ->
        _lookahead p' = Some operator ->
        _isAssignmentOperator (Tokenizer.type operator) = true ->
        is_assignment_target left = false ->
        exists message,
          AssignmentExpression (S fuel) p = Throw (SyntaxError message)
          /\ (forall next,
                fst (Tokenizer.getNextToken (_tokenizer p')) = Return next ->
                message
                = str "Invalid left-hand side in assignment expression")).
Proof.
  split; [intros k; vm_compute; reflexivity|].
  intros fuel p left p' operator Hor Hla Hop Htarget.
  assert (Hnode : is_node left).
  { pose proof (returns_expressions fuel) as R.
    destruct R as (_ & _ & R & _). exact (R _ _ _ Hor). }
  destruct Hnode as [fields ->].
  cbn [AssignmentExpression]. unfold bind at 1. rewrite Hor.
  unfold bind at 1. unfold lookahead_type at 1, bind at 1, lookahead at 1.
  rewrite Hla. cbn [ret]. rewrite Hop. cbn [negb].
  assert (Heat : AssignmentOperator p'
                 = (advance ;; ret operator) p').
  { unfold AssignmentOperator, bind at 1.
    unfold lookahead_type at 1, bind at 1, lookahead at 1.
    rewrite Hla. cbn [ret]. unfold _isAssignmentOperator in Hop.
    destruct (Tokenizer.type operator === "SIMPLE_ASSIGN") eqn:E1.
    - unfold eat, _eat, bind at 1, lookahead at 1. rewrite Hla.
      rewrite E1. reflexivity.
    - cbn [orb] in Hop.
      unfold eat, _eat, bind at 1, lookahead at 1. rewrite Hla.
      rewrite Hop. reflexivity. }
  unfold bind at 1. rewrite Heat. unfold bind at 1, advance.
  pose proof (getNextToken_total (_tokenizer p')) as Htotal.
  pose proof (getNextToken_throws (_tokenizer p')) as Hthrows.
  destruct (Tokenizer.getNextToken (_tokenizer p')) as [[next| e |] t'];
    cbn [fst] in *.
  - exists (str "Invalid left-hand side in assignment expression").
    split; [|reflexivity].
    cbn [ret]. unfold bind at 1.
    unfold is_assignment_target in Htarget.
    unfold _checkValidAssignmentTarget.
    destruct (get "type" (Obj fields)) as [[ | | |ty| | ]|];
      try reflexivity.
    rewrite Htarget. reflexivity.
  - destruct (Hthrows e eq_refl) as [message ->].
    exists message. split; [reflexivity | discriminate].
  - contradiction.
Qed.

Lemma C5_witness :
  exists message,
    AssignmentExpression 12
      {| _string := str "5 = 3;";
         _tokenizer := Tokenizer.mkTokenizer (str "5 = 3;") 1;
         _lookahead := Some (Tokenizer.mkToken (str "NUMBER") (str "5")) |}
    = Throw (SyntaxError message)
    /\ (forall next,
          fst (Tokenizer.getNextToken (Tokenizer.mkTokenizer (str "5 = 3;") 3))
          = Return next ->
          message = str "Invalid left-hand side in assignment expression").
Proof.
  apply (proj2 C5_invalid_assignment_target 11
           {| _string := str "5 = 3;";
              _tokenizer := Tokenizer.mkTokenizer (str "5 = 3;") 1;
              _lookahead := Some (Tokenizer.mkToken (str "NUMBER") (str "5")) |}
           (numeric_literal 5)
           {| _string := str "5 = 3;";
              _tokenizer := Tokenizer.mkTokenizer (str "5 = 3;") 3;
              _lookahead :=
                Some (Tokenizer.mkToken (str "SIMPLE_ASSIGN") (str "=")) |}
           (Tokenizer.mkToken (str "SIMPLE_ASSIGN") (str "="))).
  - vm_compute. reflexivity.
  - reflexivity.
  - vm_compute. reflexivity.
  - vm_compute. reflexivity.
Defined.

(* ------------------------------------------------------------------ *)
(** ** The shape of the trees the productions return *)
(* ------------------------------------------------------------------ *)

Lemma returns_weaken A (Q P : A -> Prop) (m : M A) :
  returns Q m -> (forall a, Q a -> P a) -> returns P m.
Proof. intros H HQ p a p' E. apply HQ. exact (H p a p' E). Qed.

Lemma Forall_snoc A (P : A -> Prop) l x :
  Forall P l -> P x -> Forall P (l ++ [x]).
Proof. intros Hl Hx. apply Forall_app. split; [exact Hl | auto]. Qed.

Lemma snoc_not_nil A (l : list A) x : l ++ [x] <> [].
Proof. destruct l; discriminate. Qed.

Lemma cons_not_nil A (x : A) l : x :: l <> [].
Proof. discriminate. Qed.

Lemma IsIdentifier_Expr v : IsIdentifier v -> Expr v.
Proof. intros [name ->]. constructor. Qed.

Lemma IsIdentifier_intro name :
  IsIdentifier (node "Identifier" [("name"%string, Str name)]).
Proof. exists name. reflexivity. Qed.

Lemma IsBlock_Stmt v : IsBlock v -> Stmt v.
Proof. intros [body [-> H]]. constructor. exact H. Qed.

Lemma IsBlock_intro body :
  Forall Stmt body ->
  IsBlock (node "BlockStatement" [("body"%string, Arr body)]).
Proof. intros H. exists body. split; [reflexivity | exact H]. Qed.

Lemma Decl_intro id init :
  IsIdentifier id -> OptExpr init ->
  Decl (node "VariableDeclaration"
          [("id"%string, id); ("init"%string, init)]).
Proof. intros Hid Hinit. exists id, init. auto. Qed.

Lemma VarStmt_intro declarations :
  declarations <> [] -> Forall Decl declarations ->
  VarStmt (node "VariableStatement"
             [("declarations"%string, Arr declarations)]).
Proof. intros Hne H. exists declarations. auto. Qed.

Lemma OptExpr_Null : OptExpr Null.
Proof. left. reflexivity. Qed.

Lemma OptExpr_Expr v : Expr v -> OptExpr v.
Proof. intros H. right. exact H. Qed.

(** [cond ? production : null] and [cond ? production : []]. *)
Lemma returns_or_Null (Q : value -> Prop) (b : bool) (m : M value) :
  returns Q m ->
  returns (fun v => v = Null \/ Q v) (if b then m else ret Null).
Proof.
  intros H. destruct b.
  - intros p a p' E. right. exact (H p a p' E).
  - apply returns_ret. left. reflexivity.
Qed.

Lemma returns_or_nil (Q : list value -> Prop) (b : bool) m :
  returns Q m -> Q [] -> returns Q (if b then m else ret []).
Proof. intros H Hnil. destruct b; [exact H | apply returns_ret; exact Hnil]. Qed.

(** [lookahead is else ? (eat else, Statement) : null] *)
Lemma returns_else (Q : value -> Prop) (m : M value)
    (la : option Tokenizer.Token) :
  returns Q m ->
  returns (fun v => v = Null \/ Q v)
    (match la with
     | Some token =>
         if Tokenizer.type token === "else" then eat "else" ;; m
         else ret Null
     | None => ret Null
     end).
Proof.
  intros H. destruct la as [token|].
  - destruct (Tokenizer.type token === "else").
    + eapply returns_bind; [apply returns_anything|].
      intros _ _ p a p' E. right. exact (H p a p' E).
    + apply returns_ret. left. reflexivity.
  - apply returns_ret. left. reflexivity.
Qed.

Lemma OptExpr_intro v : v = Null \/ Expr v -> OptExpr v.
Proof. intros H. exact H. Qed.

Create HintDb shapes discriminated.
#[local] Hint Constructors Expr Stmt Forall : shapes.
#[local] Hint Resolve Forall_snoc snoc_not_nil cons_not_nil IsIdentifier_Expr
  IsIdentifier_intro IsBlock_Stmt IsBlock_intro Decl_intro VarStmt_intro
  OptExpr_Null OptExpr_Expr OptExpr_intro : shapes.

(** Opens up what is known of the values bound so far, then builds the
    shape of the value returned. *)
Ltac shape_leaf :=
  cbv beta in *;
  repeat match goal with
         | H : _ /\ _ |- _ => destruct H
         | H : IsBlock _ |- _ => destruct H as [? [-> ?]]
         | H : IsSuper _ |- _ => unfold IsSuper in H; subst
         end;
  subst;
  try solve [eauto 6 with shapes];
  try solve [split; eauto 6 with shapes];
  try solve [unfold IsSuper; eauto 6 with shapes].

Ltac shape_call :=
  first [ eassumption
        | solve [eauto 6 with shape_lemmas shapes] ].

Ltac shape_step :=
  match goal with
  | |- returns _ (bind (if _ then _ else ret Null) _) =>
      eapply returns_bind;
      [ eapply returns_or_Null; shape_call | cbv beta; intros ? ? ]
  | |- returns _ (bind (match _ with Some _ => _ | None => ret Null end) _) =>
      eapply returns_bind;
      [ eapply returns_else; shape_call | cbv beta; intros ? ? ]
  | |- returns _ (bind (if _ then _ else ret []) _) =>
      eapply returns_bind;
      [ eapply returns_or_nil; [shape_call | solve [eauto with shapes]]
      | cbv beta; intros ? ? ]
  | |- returns _ (bind _ _) =>
      eapply returns_bind;
      [ first [ shape_call | apply returns_anything ]
      | cbv beta; intros ? ? ]
  | |- returns _ (ret _) => apply returns_ret; shape_leaf
  | |- returns _ (throw _) => apply returns_throw
  | |- returns _ out_of_fuel => apply returns_out_of_fuel
  | |- returns _ (if ?b then _ else _) => destruct b
  | |- returns _ (let _ := _ in _) => cbv zeta
  | |- returns _ (match ?x with _ => _ end) => destruct x
  | |- returns _ _ =>
      eapply returns_weaken; [ shape_call | cbv beta; intros; shape_leaf ]
  end.

Ltac shape_all := repeat shape_step.

Create HintDb shape_lemmas discriminated.

Lemma shape_Identifier : returns IsIdentifier Identifier.
Proof. unfold Identifier. shape_all. Qed.

Lemma shape_Super : returns IsSuper Super.
Proof. unfold Super. shape_all. Qed.

Lemma shape_ThisExpression : returns Expr ThisExpression.
Proof. unfold ThisExpression. shape_all. Qed.

Lemma shape_Literal : returns Expr Literal.
Proof.
  unfold Literal, NumericLiteral, StringLiteral, BooleanLiteral, NullLiteral.
  shape_all.
Qed.

Lemma shape_ClassExtends : returns IsIdentifier ClassExtends.
Proof. pose proof shape_Identifier. unfold ClassExtends. shape_all. Qed.

Lemma shape_EmptyStatement : returns Stmt EmptyStatement.
Proof. unfold EmptyStatement. shape_all. Qed.

(** The check returns its argument, and only when it is a target. *)
Lemma shape__checkValidAssignmentTarget left :
  returns (fun v => v = left /\ is_assignment_target v = true)
    (_checkValidAssignmentTarget left).
Proof.
  intros p v p' H. unfold _checkValidAssignmentTarget in H.
  destruct left; try discriminate;
    match type of H with
    | context [get "type" ?x] =>
        destruct (get "type" x) as [[ | | |ty| | ]|] eqn:G
    end; try discriminate;
    destruct ((ty === "Identifier") || (ty === "MemberExpression")) eqn:E;
    try discriminate;
    inversion H; subst; split; [reflexivity|];
    unfold is_assignment_target; rewrite G; exact E.
Qed.

#[local] Hint Resolve shape_Identifier shape_Super shape_ThisExpression
  shape_Literal shape_ClassExtends shape_EmptyStatement
  shape__checkValidAssignmentTarget : shape_lemmas.

Lemma shape_FormalParameterList_do fuel : forall params,
  Forall IsIdentifier params ->
  returns (Forall IsIdentifier) (FormalParameterList_do fuel params).
Proof.
  induction fuel as [|fuel IH]; intros params H;
    cbn [FormalParameterList_do]; shape_all.
Qed.

Lemma shape_expressions fuel :
  returns Expr (Expression fuel) /\
  returns Expr (AssignmentExpression fuel) /\
  returns Expr (LogicalORExpression fuel) /\
  returns Expr (LogicalANDExpression fuel) /\
  returns Expr (EqualityExpression fuel) /\
  returns Expr (RelationalExpression fuel) /\
  returns Expr (AdditiveExpression fuel) /\
  returns Expr (MultiplicativeExpression fuel) /\
  returns Expr (UnaryExpression fuel) /\
  returns Expr (LeftHandSideExpression fuel) /\
  returns Expr (CallMemberExpression fuel) /\
  returns Expr (MemberExpression fuel) /\
  returns Expr (PrimaryExpression fuel) /\
  returns Expr (NewExpression fuel) /\
  returns Expr (ParenthesizedExpression fuel) /\
  (forall x, Expr x -> returns Expr (LogicalORExpression_while fuel x)) /\
  (forall x, Expr x -> returns Expr (LogicalANDExpression_while fuel x)) /\
  (forall x, Expr x -> returns Expr (EqualityExpression_while fuel x)) /\
  (forall x, Expr x -> returns Expr (RelationalExpression_while fuel x)) /\
  (forall x, Expr x -> returns Expr (AdditiveExpression_while fuel x)) /\
  (forall x, Expr x -> returns Expr (MultiplicativeExpression_while fuel x)) /\
  (forall x, Expr x -> returns Expr (MemberExpression_while fuel x)) /\
  (forall x, Expr x \/ IsSuper x -> returns Expr (_CallExpression fuel x)) /\
  returns (Forall Expr) (Arguments fuel) /\
  returns (Forall Expr) (ArgumentList fuel) /\
  (forall l, Forall Expr l -> returns (Forall Expr) (ArgumentList_do fuel l)).
Proof.
  induction fuel as [|fuel IH].
  - unfold_expressions. repeat split; intros; apply returns_out_of_fuel.
  - repeat match type of IH with _ /\ _ => destruct IH as [? IH] end.
    repeat split; intros; unfold_expressions; shape_all.
Qed.

Lemma shape_expression fuel :
  returns Expr (Expression fuel) /\ returns Expr (AssignmentExpression fuel).
Proof. pose proof (shape_expressions fuel). tauto. Qed.

Lemma shape_VariableInitializer fuel :
  returns Expr (VariableInitializer fuel).
Proof.
  destruct (shape_expression fuel) as [_ A].
  unfold VariableInitializer. shape_all.
Qed.

Lemma shape_VariableDeclaration fuel :
  returns Decl (VariableDeclaration fuel).
Proof.
  pose proof (shape_VariableInitializer fuel) as A.
  unfold VariableDeclaration. shape_all.
Qed.

Lemma shape_VariableDeclarationList_do fuel : forall declarations,
  Forall Decl declarations ->
  returns (fun l => l <> [] /\ Forall Decl l)
    (VariableDeclarationList_do fuel declarations).
Proof.
  pose proof shape_VariableDeclaration as D.
  induction fuel as [|fuel IH]; intros declarations H;
    cbn [VariableDeclarationList_do]; shape_all.
Qed.

Lemma shape_VariableStatementInit fuel :
  returns VarStmt (VariableStatementInit fuel).
Proof.
  pose proof shape_VariableDeclarationList_do as D.
  unfold VariableStatementInit, VariableDeclarationList. shape_all.
Qed.

Lemma shape_VariableStatement fuel : returns VarStmt (VariableStatement fuel).
Proof.
  pose proof shape_VariableStatementInit as V.
  unfold VariableStatement. shape_all.
Qed.

Lemma shape_ForStatementInit fuel :
  returns (fun v => Expr v \/ VarStmt v) (ForStatementInit fuel).
Proof.
  pose proof shape_VariableStatementInit as V.
  destruct (shape_expression fuel) as [E _].
  unfold ForStatementInit. shape_all.
Qed.

Lemma shape_ReturnStatement fuel : returns Stmt (ReturnStatement fuel).
Proof.
  destruct (shape_expression fuel) as [E _].
  unfold ReturnStatement. shape_all.
Qed.

Lemma shape_ExpressionStatement fuel :
  returns Stmt (ExpressionStatement fuel).
Proof.
  destruct (shape_expression fuel) as [E _].
  unfold ExpressionStatement. shape_all.
Qed.

Lemma lookahead_type_inv p ty q :
  lookahead_type p = Return (ty, q) ->
  q = p /\ exists token, _lookahead p = Some token
                         /\ Tokenizer.type token = ty.
Proof.
  unfold lookahead_type, bind, lookahead. destruct (_lookahead p) as [token|].
  - intros H. inversion H; subst. eauto.
  - discriminate.
Qed.

(** On the lookahead [while], [do] or [for], [IterationStatement] is one
    of the three loops: its [default] branch is not taken. *)
Lemma IterationStatement_dispatch fuel p ty :
  lookahead_type p = Return (ty, p) ->
  (ty === "while") || (ty === "do") || (ty === "for") = true ->
  IterationStatement (S fuel) p
  = if ty === "while" then WhileStatement fuel p
    else if ty === "do" then DoStatement fuel p
    else ForStatement fuel p.
Proof.
  intros L H. cbn [IterationStatement].
  rewrite (bind_Return _ _ _ _ _ _ _ L).
  destruct (ty === "while"); [reflexivity|].
  destruct (ty === "do"); [reflexivity|].
  destruct (ty === "for"); [reflexivity | discriminate].
Qed.

Lemma shape_statements fuel :
  (forall p ty v p',
      lookahead_type p = Return (ty, p) ->
      (ty === "while") || (ty === "do") || (ty === "for") = true ->
      IterationStatement fuel p = Return (v, p') -> Stmt v) /\
  returns Stmt (Statement fuel) /\
  (forall stop,
      returns (fun l => l <> [] /\ Forall Stmt l) (StatementList fuel stop)) /\
  (forall stop l,
      l <> [] -> Forall Stmt l ->
      returns (fun l' => l' <> [] /\ Forall Stmt l')
        (StatementList_while fuel stop l)) /\
  returns IsBlock (BlockStatement fuel) /\
  returns Stmt (IfStatement fuel) /\
  returns Stmt (FunctionDeclaration fuel) /\
  returns Stmt (ClassDeclaration fuel) /\
  returns Stmt (WhileStatement fuel) /\
  returns Stmt (DoStatement fuel) /\
  returns Stmt (ForStatement fuel).
Proof.
  pose proof (fun fuel => proj1 (shape_expression fuel)) as E.
  pose proof shape_VariableStatement as V.
  pose proof shape_ForStatementInit as FI.
  pose proof shape_ReturnStatement as R.
  pose proof shape_ExpressionStatement as ES.
  pose proof shape_FormalParameterList_do as FP.
  induction fuel as [|fuel IH].
  - unfold_statements.
    repeat split; intros; try apply returns_out_of_fuel; discriminate.
  - destruct IH as (HI & HS & HL & HLW & HB & HIf & HF & HC & HW & HD & HFor).
    split; [|split].
    + intros p ty v p' L T H.
      rewrite (IterationStatement_dispatch _ _ _ L T) in H.
      destruct (ty === "while"); [exact (HW _ _ _ H)|].
      destruct (ty === "do"); [exact (HD _ _ _ H) | exact (HFor _ _ _ H)].
    + intros p v p' H. cbn [Statement] in H. unfold bind at 1 in H.
      destruct (lookahead_type p) as [[ty q]| |] eqn:L; try discriminate.
      destruct (lookahead_type_inv _ _ _ L) as [-> _].
      destruct (ty === "{"); [exact (IsBlock_Stmt _ (HB _ _ _ H))|].
      destruct (ty === ";"); [exact (shape_EmptyStatement _ _ _ H)|].
      destruct (ty === "let");
        [apply Stmt_Variable; eapply V; exact H|].
      destruct (ty === "if"); [exact (HIf _ _ _ H)|].
      destruct (ty === "def"); [exact (HF _ _ _ H)|].
      destruct (ty === "return"); [exact (R _ _ _ _ H)|].
      destruct (ty === "class"); [exact (HC _ _ _ H)|].
      destruct ((ty === "while") || (ty === "do") || (ty === "for")) eqn:T;
        [exact (HI _ _ _ _ L T H) | exact (ES _ _ _ _ H)].
    + assert (HL' : forall stop,
                 returns (Forall Stmt) (StatementList fuel stop)).
      { intros stop. eapply returns_weaken; [apply HL|].
        intros l [_ Hl]. exact Hl. }
      clear HL.
      repeat match goal with |- _ /\ _ => split end;
        intros; unfold_statements; unfold FormalParameterList; shape_all.
Qed.

(** X13.  Whatever [parse] returns is a [Program] node over at least
    one statement, and all its nodes have the shape of their
    production: statements hold statements and expressions where the
    grammar puts them, the left side of every assignment is an
    [Identifier] or a [MemberExpression], a [Super] node occurs only as
    the callee of a call, and absent parts are [null]. *)
Theorem parse_returns_a_Program fuel s ast :
  parse fuel s = Return ast -> IsProgram ast.
Proof.
  unfold parse.
  destruct (Tokenizer.getNextToken (Tokenizer.init s)) as [[first| |] t];
    try discriminate.
  destruct (Program fuel _) as [[v q]| |] eqn:E; try discriminate.
  intros H. inversion H; subst. clear H.
  unfold Program, bind in E.
  destruct (StatementList fuel None _) as [[body q']| |] eqn:L;
    try discriminate.
  inversion E; subst.
  destruct (shape_statements fuel) as (_ & _ & HL & _).
  destruct (HL None _ _ _ L) as [Hne Hall].
  exists body. auto.
Qed.

Lemma parse_returns_a_Program_witness :
  IsProgram
    (program
       [node "VariableStatement"
          [("declarations"%string,
            Arr [node "VariableDeclaration"
                   [("id"%string, identifier "x");
                    ("init"%string,
                     assignment_expression "="
                       (identifier "y") (numeric_literal 1))]])]]).
Proof.
  apply (parse_returns_a_Program 40 (str "let x = y = 1;")).
  vm_compute. reflexivity.
Defined.

(** ** The parser terminates

    Every call of [_eat] that returns shortens what is left to read,
    every loop of the parser eats a token in each round, and between
    two tokens the productions call one another fewer than twenty
    levels deep. *)

Lemma within_ret A n (Q : A -> nat -> Prop) a :
  (forall k, k <= n -> Q a k) -> within n Q (ret a).
Proof.
  intros H p Hp. split; [discriminate|].
  intros a' p' E. inversion E; subst. apply H, Hp.
Qed.

Lemma within_throw A n (Q : A -> nat -> Prop) e : within n Q (throw e).
Proof. intros p Hp. split; discriminate. Qed.

Lemma within_bind A B n (Q1 : A -> nat -> Prop) (Q2 : B -> nat -> Prop)
    (m : M A) (k : A -> M B) :
  within n Q1 m ->
  (forall a j, Q1 a j -> within j Q2 (k a)) ->
  within n Q2 (bind m k).
Proof.
  intros Hm Hk p Hp. unfold bind. destruct (Hm p Hp) as [H1 H2].
  destruct (m p) as [[a q]| |].
  - apply (Hk a (left_to_read q)); [apply H2; reflexivity | apply le_n].
  - split; discriminate.
  - contradiction (H1 eq_refl).
Qed.

Lemma within_post A n (Q Q' : A -> nat -> Prop) (m : M A) :
  within n Q m -> (forall a k, Q a k -> Q' a k) -> within n Q' m.
Proof.
  intros Hm HQ p Hp. destruct (Hm p Hp) as [H1 H2].
  split; [exact H1|]. intros a p' E. apply HQ, (H2 _ _ E).
Qed.

Lemma within_lookahead n : within n (fun _ k => k <= n) lookahead.
Proof.
  intros p Hp. split; [discriminate|].
  intros a p' E. inversion E; subst. exact Hp.
Qed.

Lemma within_lookahead_type n : within n (fun _ k => k <= n) lookahead_type.
Proof.
  intros p Hp. unfold lookahead_type, bind, lookahead.
  destruct (_lookahead p); (split; [discriminate|]).
  - intros a p' E. inversion E; subst. exact Hp.
  - discriminate.
Qed.

(** A token that is eaten is gone from what is left to read. *)
Lemma within__eat n tokenType : within n (fun _ k => k < n) (_eat tokenType).
Proof.
  intros p Hp. unfold _eat, bind, lookahead. unfold left_to_read in Hp.
  destruct (_lookahead p) as [token|]; [|split; discriminate].
  destruct (negb _); [split; discriminate|].
  unfold advance.
  pose proof (getNextToken_total (_tokenizer p)) as T.
  pose proof (getNextToken_token (_tokenizer p)) as K.
  destruct (Tokenizer.getNextToken (_tokenizer p)) as [[next|e|] t'];
    cbn [fst snd] in *; [|split; discriminate|contradiction (T eq_refl)].
  split; [discriminate|]. intros a p' E. inversion E; subst. clear E.
  unfold left_to_read. cbn [_lookahead _tokenizer].
  destruct next as [tok|]; [|lia].
  destruct (K tok eq_refl) as (skipped & _ & Hne & Hsplit & _).
  rewrite Hsplit, !length_app in Hp.
  destruct (Tokenizer.value tok); [contradiction | simpl in Hp; lia].
Qed.

Lemma within_eat n tokenType : within n (fun _ k => k < n) (eat tokenType).
Proof. apply within__eat. Qed.

Create HintDb within discriminated.
#[local] Hint Resolve within_lookahead within_lookahead_type within_eat
  within__eat : within.
#[local] Hint Extern 1 (_ <= _) => lia : within.

Ltac within_call := solve [eauto 3 with within].

(** One step through a computation.  A part that may be left out reads
    on; the operator of a unary expression is eaten when there is one. *)
Ltac within_step :=
  match goal with
  | |- within ?n _ (bind (if _ then _ else if _ then _ else ret None) _) =>
      apply (within_bind _ _ n
               (fun o k => match o with Some _ => k < n | None => k <= n end));
      [|cbv beta; intros ? ? ?]
  | |- within ?n _ (bind (if _ then _ else _) _) =>
      apply (within_bind _ _ n (fun _ k => k <= n)); [|cbv beta; intros ? ? ?]
  | |- within ?n _ (bind (match _ with _ => _ end) _) =>
      apply (within_bind _ _ n (fun _ k => k <= n)); [|cbv beta; intros ? ? ?]
  | |- within _ _ (bind _ _) =>
      eapply within_bind; [within_call | cbv beta; intros ? ? ?]
  | |- within _ _ (ret _) =>
      apply within_ret; intros; cbv beta iota; lia
  | |- within _ _ (throw _) => apply within_throw
  | |- within _ _ (if ?b then _ else _) => destruct b
  | |- within _ _ (let _ := _ in _) => cbv zeta
  | |- within _ _ (match ?x with _ => _ end) => destruct x; cbv beta iota in *
  | |- within _ _ _ =>
      eapply within_post; [within_call | cbv beta; intros; cbv beta iota; lia]
  end.

Ltac within_all := repeat within_step.

Ltac within_start :=
  repeat match goal with
         | |- _ /\ _ => split
         | |- forall _, _ => intro
         | |- consumes _ _ _ => intros ? ?
         | |- reads_on _ _ _ => intros ? ?
         end.

Lemma within_Identifier n : within n (fun _ k => k < n) Identifier.
Proof. unfold Identifier. within_all. Qed.

Lemma within_Super n : within n (fun _ k => k < n) Super.
Proof. unfold Super. within_all. Qed.

Lemma within_ThisExpression n : within n (fun _ k => k < n) ThisExpression.
Proof. unfold ThisExpression. within_all. Qed.

Lemma within_EmptyStatement n : within n (fun _ k => k < n) EmptyStatement.
Proof. unfold EmptyStatement. within_all. Qed.

#[local] Hint Resolve within_Identifier within_Super within_ThisExpression
  within_EmptyStatement : within.

Lemma within_ClassExtends n : within n (fun _ k => k < n) ClassExtends.
Proof. unfold ClassExtends. within_all. Qed.

Lemma within_Literal n : within n (fun _ k => k < n) Literal.
Proof.
  unfold Literal, NumericLiteral, StringLiteral, BooleanLiteral, NullLiteral.
  within_all.
Qed.

Lemma within_AssignmentOperator n :
  within n (fun _ k => k < n) AssignmentOperator.
Proof. unfold AssignmentOperator. within_all. Qed.

Lemma within__checkValidAssignmentTarget n v :
  within n (fun _ k => k <= n) (_checkValidAssignmentTarget v).
Proof.
  unfold _checkValidAssignmentTarget.
  destruct v; try apply within_throw;
    repeat match goal with
           | |- within _ _ (match ?x with _ => _ end) => destruct x
           | |- within _ _ (if ?b then _ else _) => destruct b
           | |- within _ _ (throw _) => apply within_throw
           | |- within _ _ (ret _) => apply within_ret; intros; lia
           end.
Qed.

#[local] Hint Resolve within_ClassExtends within_Literal
  within_AssignmentOperator within__checkValidAssignmentTarget : within.

Lemma within_FormalParameterList_do fuel : forall params,
  consumes 1 fuel (FormalParameterList_do fuel params).
Proof.
  induction fuel as [|fuel IH]; intros params n Hn; [lia|].
  unfold consumes in IH. cbn [FormalParameterList_do]. within_all.
Qed.

Lemma within_expressions fuel :
  consumes 14 fuel (Expression fuel) /\
  consumes 13 fuel (AssignmentExpression fuel) /\
  consumes 12 fuel (LogicalORExpression fuel) /\
  consumes 11 fuel (LogicalANDExpression fuel) /\
  consumes 10 fuel (EqualityExpression fuel) /\
  consumes 9 fuel (RelationalExpression fuel) /\
  consumes 8 fuel (AdditiveExpression fuel) /\
  consumes 7 fuel (MultiplicativeExpression fuel) /\
  consumes 6 fuel (UnaryExpression fuel) /\
  consumes 5 fuel (LeftHandSideExpression fuel) /\
  consumes 4 fuel (CallMemberExpression fuel) /\
  consumes 3 fuel (MemberExpression fuel) /\
  consumes 2 fuel (PrimaryExpression fuel) /\
  consumes 1 fuel (NewExpression fuel) /\
  consumes 1 fuel (ParenthesizedExpression fuel) /\
  consumes 1 fuel (Arguments fuel) /\
  consumes 15 fuel (ArgumentList fuel) /\
  (forall x, reads_on 1 fuel (LogicalORExpression_while fuel x)) /\
  (forall x, reads_on 1 fuel (LogicalANDExpression_while fuel x)) /\
  (forall x, reads_on 1 fuel (EqualityExpression_while fuel x)) /\
  (forall x, reads_on 1 fuel (RelationalExpression_while fuel x)) /\
  (forall x, reads_on 1 fuel (AdditiveExpression_while fuel x)) /\
  (forall x, reads_on 1 fuel (MultiplicativeExpression_while fuel x)) /\
  (forall x, consumes 2 fuel (_CallExpression fuel x)) /\
  (forall x, reads_on 1 fuel (MemberExpression_while fuel x)) /\
  (forall x, consumes 14 fuel (ArgumentList_do fuel x)).
Proof.
  induction fuel as [|fuel IH].
  - within_start; lia.
  - repeat match type of IH with _ /\ _ => destruct IH as [? IH] end.
    unfold consumes, reads_on in *.
    within_start; unfold_expressions; within_all.
Qed.

Lemma within_expression fuel :
  consumes 14 fuel (Expression fuel)
  /\ consumes 13 fuel (AssignmentExpression fuel).
Proof. pose proof (within_expressions fuel). tauto. Qed.

Lemma within_VariableDeclaration fuel :
  consumes 0 fuel (VariableDeclaration fuel).
Proof.
  destruct (within_expression fuel) as [_ A]. unfold consumes in *.
  intros n Hn. unfold VariableDeclaration, VariableInitializer. within_all.
Qed.

Lemma within_VariableDeclarationList_do fuel : forall declarations,
  consumes 1 fuel (VariableDeclarationList_do fuel declarations).
Proof.
  induction fuel as [|fuel IH]; intros declarations n Hn; [lia|].
  pose proof (within_VariableDeclaration fuel) as D.
  unfold consumes in *. cbn [VariableDeclarationList_do]. within_all.
Qed.

Lemma within_VariableStatementInit fuel :
  consumes 0 fuel (VariableStatementInit fuel).
Proof.
  pose proof (within_VariableDeclarationList_do fuel) as D.
  unfold consumes in *. intros n Hn.
  unfold VariableStatementInit, VariableDeclarationList. within_all.
Qed.

Lemma within_VariableStatement fuel :
  consumes 0 fuel (VariableStatement fuel).
Proof.
  pose proof (within_VariableStatementInit fuel) as D.
  unfold consumes in *. intros n Hn. unfold VariableStatement. within_all.
Qed.

Lemma within_ForStatementInit fuel :
  consumes 14 fuel (ForStatementInit fuel).
Proof.
  pose proof (within_VariableStatementInit fuel) as D.
  destruct (within_expression fuel) as [E _].
  unfold consumes in *. intros n Hn. unfold ForStatementInit. within_all.
Qed.

Lemma within_ReturnStatement fuel : consumes 0 fuel (ReturnStatement fuel).
Proof.
  destruct (within_expression fuel) as [E _].
  unfold consumes in *. intros n Hn. unfold ReturnStatement. within_all.
Qed.

Lemma within_ExpressionStatement fuel :
  consumes 14 fuel (ExpressionStatement fuel).
Proof.
  destruct (within_expression fuel) as [E _].
  unfold consumes in *. intros n Hn. unfold ExpressionStatement. within_all.
Qed.

(** [Statement] calls [IterationStatement] on the lookahead [while],
    [do] or [for] only, where it is one of the three loops. *)
Lemma within_statements fuel :
  (forall n p ty,
      20 * n + 2 <= fuel ->
      left_to_read p <= n ->
      lookahead_type p = Return (ty, p) ->
      (ty === "while") || (ty === "do") || (ty === "for") = true ->
      IterationStatement fuel p <> OutOfFuel
      /\ forall v p', IterationStatement fuel p = Return (v, p') ->
                      left_to_read p' < n) /\
  consumes 15 fuel (Statement fuel) /\
  (forall stop, consumes 16 fuel (StatementList fuel stop)) /\
  (forall stop l, reads_on 16 fuel (StatementList_while fuel stop l)) /\
  consumes 1 fuel (BlockStatement fuel) /\
  consumes 1 fuel (IfStatement fuel) /\
  consumes 1 fuel (FunctionDeclaration fuel) /\
  consumes 1 fuel (ClassDeclaration fuel) /\
  consumes 1 fuel (WhileStatement fuel) /\
  consumes 1 fuel (DoStatement fuel) /\
  consumes 1 fuel (ForStatement fuel).
Proof.
  pose proof (fun fuel => proj1 (within_expression fuel)) as E.
  pose proof within_VariableStatement as V.
  pose proof within_ForStatementInit as FI.
  pose proof within_ReturnStatement as R.
  pose proof within_ExpressionStatement as ES.
  pose proof within_FormalParameterList_do as FP.
  induction fuel as [|fuel IH].
  - split; [intros; lia|]. within_start; lia.
  - destruct IH as (HI & HS & HL & HLW & HB & HIf & HF & HC & HW & HD & HFor).
    unfold consumes, reads_on in *.
    split; [|split].
    + intros n p ty Hn Hp L T.
      rewrite (IterationStatement_dispatch _ _ _ L T).
      destruct (ty === "while"); [apply (HW n); [lia | exact Hp]|].
      destruct (ty === "do");
        [apply (HD n); [lia | exact Hp] | apply (HFor n); [lia | exact Hp]].
    + intros n Hn p Hp. cbn [Statement]. unfold bind.
      destruct (lookahead_type p) as [[ty q]| |] eqn:L;
        [|split; discriminate
         |destruct (within_lookahead_type n p Hp) as [N _];
          contradiction (N L)].
      destruct (lookahead_type_inv _ _ _ L) as [-> _].
      destruct (ty === "{"); [apply (HB n); [lia | exact Hp]|].
      destruct (ty === ";"); [apply within_EmptyStatement; exact Hp|].
      destruct (ty === "let"); [apply (V fuel n); [lia | exact Hp]|].
      destruct (ty === "if"); [apply (HIf n); [lia | exact Hp]|].
      destruct (ty === "def"); [apply (HF n); [lia | exact Hp]|].
      destruct (ty === "return"); [apply (R fuel n); [lia | exact Hp]|].
      destruct (ty === "class"); [apply (HC n); [lia | exact Hp]|].
      destruct ((ty === "while") || (ty === "do") || (ty === "for")) eqn:T;
        [apply (HI n p ty); [lia | exact Hp | exact L | exact T]
        |apply (ES fuel n); [lia | exact Hp]].
    + clear HI.
      within_start; unfold_statements; unfold FormalParameterList;
        within_all.
Qed.

(** ** More fuel does not change what a computation does *)

Lemma extends_refl A (c : M A) : extends c c.
Proof. intros p _. reflexivity. Qed.

Lemma extends_out_of_fuel A (c : M A) : extends out_of_fuel c.
Proof. intros p H. contradiction (H eq_refl). Qed.

Lemma extends_bind A B (m m' : M A) (k k' : A -> M B) :
  extends m m' -> (forall a, extends (k a) (k' a)) ->
  extends (bind m k) (bind m' k').
Proof.
  intros Hm Hk p. unfold bind. intros H.
  rewrite (Hm p) by (intros E; rewrite E in H; contradiction (H eq_refl)).
  destruct (m p) as [[a q]| |]; try reflexivity.
  apply Hk. exact H.
Qed.

Create HintDb extends discriminated.
#[local] Hint Resolve extends_refl extends_out_of_fuel : extends.

Ltac extends_step :=
  match goal with
  | |- extends ?c ?c => apply extends_refl
  | |- extends (bind _ _) (bind _ _) => apply extends_bind; [|intro]
  | |- extends (if ?b then _ else _) (if ?b then _ else _) => destruct b
  | |- extends (let _ := _ in _) _ => cbv zeta
  | |- extends (match ?x with _ => _ end) (match ?x with _ => _ end) =>
      destruct x
  | |- extends _ _ => solve [eauto with extends]
  end.

Ltac extends_all := repeat extends_step.

Ltac extends_induction fuel :=
  induction fuel as [|fuel IH]; intros fuel' Hle;
  [ repeat match goal with |- _ /\ _ => split end; intros;
    apply extends_out_of_fuel
  | destruct fuel' as [|fuel']; [lia|];
    specialize (IH fuel' (le_S_n _ _ Hle));
    repeat match type of IH with _ /\ _ => destruct IH as [? IH] end;
    repeat match goal with |- _ /\ _ => split end; intros ].

Lemma extends_FormalParameterList_do fuel : forall fuel',
  fuel <= fuel' ->
  forall params,
    extends (FormalParameterList_do fuel params)
      (FormalParameterList_do fuel' params).
Proof.
  extends_induction fuel; cbn [FormalParameterList_do]; extends_all.
Qed.

Lemma extends_expressions fuel : forall fuel',
  fuel <= fuel' ->
  extends (Expression fuel) (Expression fuel') /\
  extends (AssignmentExpression fuel) (AssignmentExpression fuel') /\
  extends (LogicalORExpression fuel) (LogicalORExpression fuel') /\
  extends (LogicalANDExpression fuel) (LogicalANDExpression fuel') /\
  extends (EqualityExpression fuel) (EqualityExpression fuel') /\
  extends (RelationalExpression fuel) (RelationalExpression fuel') /\
  extends (AdditiveExpression fuel) (AdditiveExpression fuel') /\
  extends (MultiplicativeExpression fuel) (MultiplicativeExpression fuel') /\
  extends (UnaryExpression fuel) (UnaryExpression fuel') /\
  extends (LeftHandSideExpression fuel) (LeftHandSideExpression fuel') /\
  extends (CallMemberExpression fuel) (CallMemberExpression fuel') /\
  extends (MemberExpression fuel) (MemberExpression fuel') /\
  extends (PrimaryExpression fuel) (PrimaryExpression fuel') /\
  extends (NewExpression fuel) (NewExpression fuel') /\
  extends (ParenthesizedExpression fuel) (ParenthesizedExpression fuel') /\
  extends (Arguments fuel) (Arguments fuel') /\
  extends (ArgumentList fuel) (ArgumentList fuel') /\
  (forall x, extends (LogicalORExpression_while fuel x)
               (LogicalORExpression_while fuel' x)) /\
  (forall x, extends (LogicalANDExpression_while fuel x)
               (LogicalANDExpression_while fuel' x)) /\
  (forall x, extends (EqualityExpression_while fuel x)
               (EqualityExpression_while fuel' x)) /\
  (forall x, extends (RelationalExpression_while fuel x)
               (RelationalExpression_while fuel' x)) /\
  (forall x, extends (AdditiveExpression_while fuel x)
               (AdditiveExpression_while fuel' x)) /\
  (forall x, extends (MultiplicativeExpression_while fuel x)
               (MultiplicativeExpression_while fuel' x)) /\
  (forall x, extends (_CallExpression fuel x) (_CallExpression fuel' x)) /\
  (forall x, extends (MemberExpression_while fuel x)
               (MemberExpression_while fuel' x)) /\
  (forall x, extends (ArgumentList_do fuel x) (ArgumentList_do fuel' x)).
Proof.
  extends_induction fuel; unfold_expressions; extends_all.
Qed.

Lemma extends_expression fuel fuel' :
  fuel <= fuel' ->
  extends (Expression fuel) (Expression fuel')
  /\ extends (AssignmentExpression fuel) (AssignmentExpression fuel').
Proof. intros H. pose proof (extends_expressions fuel fuel' H). tauto. Qed.

Lemma extends_VariableDeclaration fuel fuel' :
  fuel <= fuel' ->
  extends (VariableDeclaration fuel) (VariableDeclaration fuel').
Proof.
  intros H. destruct (extends_expression fuel fuel' H) as [_ A].
  unfold VariableDeclaration, VariableInitializer. extends_all.
Qed.

Lemma extends_VariableDeclarationList_do fuel : forall fuel',
  fuel <= fuel' ->
  forall declarations,
    extends (VariableDeclarationList_do fuel declarations)
      (VariableDeclarationList_do fuel' declarations).
Proof.
  extends_induction fuel; cbn [VariableDeclarationList_do].
  pose proof (extends_VariableDeclaration fuel fuel' (le_S_n _ _ Hle)).
  extends_all.
Qed.

Lemma extends_VariableStatementInit fuel fuel' :
  fuel <= fuel' ->
  extends (VariableStatementInit fuel) (VariableStatementInit fuel').
Proof.
  intros H. pose proof (extends_VariableDeclarationList_do fuel fuel' H).
  unfold VariableStatementInit, VariableDeclarationList. extends_all.
Qed.

Lemma extends_VariableStatement fuel fuel' :
  fuel <= fuel' ->
  extends (VariableStatement fuel) (VariableStatement fuel').
Proof.
  intros H. pose proof (extends_VariableStatementInit fuel fuel' H).
  unfold VariableStatement. extends_all.
Qed.

Lemma extends_ForStatementInit fuel fuel' :
  fuel <= fuel' ->
  extends (ForStatementInit fuel) (ForStatementInit fuel').
Proof.
  intros H. pose proof (extends_VariableStatementInit fuel fuel' H).
  destruct (extends_expression fuel fuel' H) as [E _].
  unfold ForStatementInit. extends_all.
Qed.

Lemma extends_ReturnStatement fuel fuel' :
  fuel <= fuel' ->
  extends (ReturnStatement fuel) (ReturnStatement fuel').
Proof.
  intros H. destruct (extends_expression fuel fuel' H) as [E _].
  unfold ReturnStatement. extends_all.
Qed.

Lemma extends_ExpressionStatement fuel fuel' :
  fuel <= fuel' ->
  extends (ExpressionStatement fuel) (ExpressionStatement fuel').
Proof.
  intros H. destruct (extends_expression fuel fuel' H) as [E _].
  unfold ExpressionStatement. extends_all.
Qed.

Lemma extends_statements fuel : forall fuel',
  fuel <= fuel' ->
  (forall stop, extends (StatementList fuel stop) (StatementList fuel' stop)) /\
  (forall stop l, extends (StatementList_while fuel stop l)
                    (StatementList_while fuel' stop l)) /\
  extends (Statement fuel) (Statement fuel') /\
  extends (IfStatement fuel) (IfStatement fuel') /\
  extends (FunctionDeclaration fuel) (FunctionDeclaration fuel') /\
  extends (ClassDeclaration fuel) (ClassDeclaration fuel') /\
  extends (IterationStatement fuel) (IterationStatement fuel') /\
  extends (WhileStatement fuel) (WhileStatement fuel') /\
  extends (DoStatement fuel) (DoStatement fuel') /\
  extends (ForStatement fuel) (ForStatement fuel') /\
  extends (BlockStatement fuel) (BlockStatement fuel').
Proof.
  extends_induction fuel;
    pose proof (proj1 (extends_expression fuel fuel' (le_S_n _ _ Hle)));
    pose proof (extends_VariableStatement fuel fuel' (le_S_n _ _ Hle));
    pose proof (extends_ForStatementInit fuel fuel' (le_S_n _ _ Hle));
    pose proof (extends_ReturnStatement fuel fuel' (le_S_n _ _ Hle));
    pose proof (extends_ExpressionStatement fuel fuel' (le_S_n _ _ Hle));
    pose proof (extends_FormalParameterList_do fuel fuel' (le_S_n _ _ Hle));
    unfold_statements; unfold FormalParameterList; extends_all.
Qed.

Lemma parse_extends fuel fuel' s :
  fuel <= fuel' -> parse fuel s <> OutOfFuel -> parse fuel' s = parse fuel s.
Proof.
  intros Hle. unfold parse.
  destruct (Tokenizer.getNextToken (Tokenizer.init s)) as [[first| |] t];
    try reflexivity.
  intros H. unfold Program in *.
  destruct (extends_statements fuel fuel' Hle) as [HL _].
  rewrite (extends_bind _ _ _ _ _ _ (HL None) (fun a => extends_refl _ _));
    [reflexivity|].
  intros E. rewrite E in H. contradiction (H eq_refl).
Qed.

Lemma parse_enough_fuel s : parse (enough_fuel s) s <> OutOfFuel.
Proof.
  unfold parse.
  pose proof (getNextToken_total (Tokenizer.init s)) as T.
  pose proof (getNextToken_token (Tokenizer.init s)) as K.
  destruct (Tokenizer.getNextToken (Tokenizer.init s)) as [[first|e|] t];
    cbn [fst snd] in *; [|discriminate|contradiction (T eq_refl)].
  destruct (within_statements (enough_fuel s)) as (_ & _ & HL & _).
  assert (W : within (length s) (fun _ k => k <= length s)
                (Program (enough_fuel s))).
  { unfold Program. unfold consumes in HL.
    eapply within_bind; [apply (HL None (length s)); unfold enough_fuel; lia|].
    cbv beta. intros a j Hj. apply within_ret. intros. lia. }
  match goal with
  | |- match Program _ ?p with _ => _ end <> _ =>
      assert (Hp : left_to_read p <= length s)
  end.
  { unfold left_to_read. cbn [_lookahead _tokenizer].
    destruct first as [tok|]; [|lia].
    destruct (K tok eq_refl) as (skipped & _ & Hne & Hsplit & _).
    assert (Hs : Tokenizer.rest (Tokenizer.init s) = s) by reflexivity.
    rewrite Hs in Hsplit.
    apply (f_equal (@length N)) in Hsplit. rewrite !length_app in Hsplit.
    destruct (Tokenizer.value tok); [contradiction | simpl in Hsplit; lia]. }
  destruct (W _ Hp) as [N _].
  destruct (Program _ _) as [[ast q]| |]; [discriminate | discriminate|].
  contradiction (N eq_refl).
Qed.

(** X14.  The parser terminates on every text: with twenty units of
    fuel for each character and sixteen more, [parse] returns a tree or
    throws, and more fuel changes nothing. *)
Theorem parse_terminates s fuel :
  enough_fuel s <= fuel ->
  parse fuel s <> OutOfFuel /\ parse fuel s = parse (enough_fuel s) s.
Proof.
  intros H. pose proof (parse_enough_fuel s) as N.
  rewrite (parse_extends _ _ s H N). split; [exact N | reflexivity].
Qed.

Lemma parse_terminates_witness :
  parse 200 (str "a = b;") <> OutOfFuel
  /\ parse 200 (str "a = b;") = parse (enough_fuel (str "a = b;")) (str "a = b;").
Proof. apply (parse_terminates (str "a = b;") 200). vm_compute. lia. Defined.

(** ** What the productions depend on

    The productions reach the parser's state through [_lookahead] and
    through the calls of [getNextToken] in [_eat] only.  So a relation
    between states that these two keep is kept by every production. *)

Lemma returns_LogicalORExpression fuel :
  returns is_node (LogicalORExpression fuel).
Proof. pose proof (returns_expressions fuel). tauto. Qed.

Section Simulation.

Variable R : Parser -> Parser -> Prop.
Variable E : Error -> Prop.

Hypothesis R_lookahead : forall p p', R p p' -> _lookahead p = _lookahead p'.
Hypothesis R_advance : forall p p', R p p' -> agree_by R E (advance p) (advance p').
Hypothesis E_TypeError :
  forall p p', R p p' -> _lookahead p = None -> E TypeError.
Hypothesis E_SyntaxError : forall message, E (SyntaxError message).

Lemma simulates_ret A (a : A) : simulates R E (ret a).
Proof. intros p p' H. split; [reflexivity | exact H]. Qed.

Lemma simulates_SyntaxError A message :
  simulates R E (@throw A (SyntaxError message)).
Proof. intros p p' H. split; [reflexivity | apply E_SyntaxError]. Qed.

Lemma simulates_out_of_fuel A : simulates R E (@out_of_fuel A).
Proof. intros p p' H. exact I. Qed.

Lemma simulates_bind A B (m : M A) (k : A -> M B) :
  simulates R E m -> (forall a, simulates R E (k a)) ->
  simulates R E (bind m k).
Proof.
  intros Hm Hk p p' H. unfold bind. specialize (Hm p p' H).
  destruct (m p) as [[a q]| |], (m p') as [[a' q']| |]; simpl in Hm;
    try contradiction; try exact Hm.
  destruct Hm as [<- Hq]. apply Hk. exact Hq.
Qed.

Lemma simulates_bind_returns A B (P : A -> Prop) (m : M A) (k : A -> M B) :
  returns P m ->
  simulates R E m -> (forall a, P a -> simulates R E (k a)) ->
  simulates R E (bind m k).
Proof.
  intros HP Hm Hk p p' H. unfold bind. specialize (Hm p p' H).
  destruct (m p) as [[a q]| |] eqn:Ea, (m p') as [[a' q']| |];
    simpl in Hm; try contradiction; try exact Hm.
  destruct Hm as [<- Hq]. apply Hk; [exact (HP _ _ _ Ea) | exact Hq].
Qed.

Lemma simulates_lookahead : simulates R E lookahead.
Proof.
  intros p p' H. split; [apply R_lookahead, H | exact H].
Qed.

Lemma simulates_lookahead_type : simulates R E lookahead_type.
Proof.
  intros p p' H. unfold lookahead_type, bind, lookahead.
  rewrite <- (R_lookahead _ _ H).
  destruct (_lookahead p) eqn:L.
  - split; [reflexivity | exact H].
  - split; [reflexivity | exact (E_TypeError _ _ H L)].
Qed.

Create HintDb simulates discriminated.
#[local] Hint Resolve simulates_ret simulates_SyntaxError
  simulates_out_of_fuel simulates_lookahead simulates_lookahead_type
  R_advance : simulates.

Ltac simulates_step :=
  match goal with
  | |- simulates _ _ (bind (LogicalORExpression ?fuel) _) =>
      apply (simulates_bind_returns _ _ _ _ _
               (returns_LogicalORExpression fuel)); [|intros ? ?]
  | |- simulates _ _ (bind _ _) => apply simulates_bind; [|intro]
  | |- simulates _ _ (if ?b then _ else _) => destruct b
  | |- simulates _ _ (let _ := _ in _) => cbv zeta
  | |- simulates _ _ (match ?x with _ => _ end) => destruct x
  | |- simulates _ _ _ => solve [auto with simulates]
  end.

Ltac simulates_all := repeat simulates_step.

Lemma simulates_advance : simulates R E advance.
Proof. exact R_advance. Qed.

Lemma simulates__eat tokenType : simulates R E (_eat tokenType).
Proof. unfold _eat. simulates_all. Qed.

Lemma simulates_eat tokenType : simulates R E (eat tokenType).
Proof. apply simulates__eat. Qed.

#[local] Hint Resolve simulates_advance simulates__eat simulates_eat
  : simulates.

Lemma simulates_Identifier : simulates R E Identifier.
Proof. unfold Identifier. simulates_all. Qed.

Lemma simulates_EmptyStatement : simulates R E EmptyStatement.
Proof. unfold EmptyStatement. simulates_all. Qed.

#[local] Hint Resolve simulates_Identifier simulates_EmptyStatement
  : simulates.

Lemma simulates_ClassExtends : simulates R E ClassExtends.
Proof. unfold ClassExtends. simulates_all. Qed.

Lemma simulates_ThisExpression : simulates R E ThisExpression.
Proof. unfold ThisExpression. simulates_all. Qed.

Lemma simulates_Super : simulates R E Super.
Proof. unfold Super. simulates_all. Qed.

Lemma simulates_Literal : simulates R E Literal.
Proof.
  unfold Literal, NumericLiteral, StringLiteral, BooleanLiteral, NullLiteral.
  simulates_all.
Qed.

(** The node that is checked is an object: the check reads no property
    of [null]. *)
Lemma simulates__checkValidAssignmentTarget v :
  is_node v -> simulates R E (_checkValidAssignmentTarget v).
Proof.
  intros [fields ->]. unfold _checkValidAssignmentTarget. simulates_all.
Qed.

Lemma simulates_AssignmentOperator : simulates R E AssignmentOperator.
Proof. unfold AssignmentOperator. simulates_all. Qed.

#[local] Hint Resolve simulates_ClassExtends simulates_ThisExpression
  simulates_Super simulates_Literal simulates__checkValidAssignmentTarget
  simulates_AssignmentOperator : simulates.

Lemma simulates_FormalParameterList fuel : forall params,
  simulates R E (FormalParameterList_do fuel params).
Proof.
  induction fuel as [|fuel IH]; intros params; cbn [FormalParameterList_do];
    simulates_all.
Qed.

Lemma simulates_expressions fuel :
  simulates R E (Expression fuel) /\
  simulates R E (AssignmentExpression fuel) /\
  simulates R E (LogicalORExpression fuel) /\
  simulates R E (LogicalANDExpression fuel) /\
  simulates R E (EqualityExpression fuel) /\
  simulates R E (RelationalExpression fuel) /\
  simulates R E (AdditiveExpression fuel) /\
  simulates R E (MultiplicativeExpression fuel) /\
  simulates R E (UnaryExpression fuel) /\
  simulates R E (LeftHandSideExpression fuel) /\
  simulates R E (CallMemberExpression fuel) /\
  simulates R E (MemberExpression fuel) /\
  simulates R E (PrimaryExpression fuel) /\
  simulates R E (NewExpression fuel) /\
  simulates R E (ParenthesizedExpression fuel) /\
  simulates R E (Arguments fuel) /\
  simulates R E (ArgumentList fuel) /\
  (forall x, simulates R E (LogicalORExpression_while fuel x)) /\
  (forall x, simulates R E (LogicalANDExpression_while fuel x)) /\
  (forall x, simulates R E (EqualityExpression_while fuel x)) /\
  (forall x, simulates R E (RelationalExpression_while fuel x)) /\
  (forall x, simulates R E (AdditiveExpression_while fuel x)) /\
  (forall x, simulates R E (MultiplicativeExpression_while fuel x)) /\
  (forall x, simulates R E (_CallExpression fuel x)) /\
  (forall x, simulates R E (MemberExpression_while fuel x)) /\
  (forall x, simulates R E (ArgumentList_do fuel x)).
Proof.
  induction fuel as [|fuel IH].
  - unfold_expressions. repeat split; intros; apply simulates_out_of_fuel.
  - repeat match type of IH with _ /\ _ => destruct IH as [? IH] end.
    repeat match goal with |- _ /\ _ => split end; intros;
      unfold_expressions; simulates_all.
Qed.

Lemma simulates_expression fuel :
  simulates R E (Expression fuel)
  /\ simulates R E (AssignmentExpression fuel).
Proof. pose proof (simulates_expressions fuel). tauto. Qed.

Lemma simulates_VariableDeclarationList_do fuel : forall declarations,
  simulates R E (VariableDeclarationList_do fuel declarations).
Proof.
  induction fuel as [|fuel IH]; intros declarations;
    cbn [VariableDeclarationList_do]; [apply simulates_out_of_fuel|].
  destruct (simulates_expression fuel) as [_ A].
  unfold VariableDeclaration, VariableInitializer. simulates_all.
Qed.

Lemma simulates_VariableStatementInit fuel :
  simulates R E (VariableStatementInit fuel).
Proof.
  pose proof (simulates_VariableDeclarationList_do fuel).
  unfold VariableStatementInit, VariableDeclarationList. simulates_all.
Qed.

Lemma simulates_VariableStatement fuel :
  simulates R E (VariableStatement fuel).
Proof.
  pose proof (simulates_VariableStatementInit fuel).
  unfold VariableStatement. simulates_all.
Qed.

Lemma simulates_ForStatementInit fuel :
  simulates R E (ForStatementInit fuel).
Proof.
  pose proof (simulates_VariableStatementInit fuel).
  destruct (simulates_expression fuel) as [X _].
  unfold ForStatementInit. simulates_all.
Qed.

Lemma simulates_ReturnStatement fuel : simulates R E (ReturnStatement fuel).
Proof.
  destruct (simulates_expression fuel) as [X _].
  unfold ReturnStatement. simulates_all.
Qed.

Lemma simulates_ExpressionStatement fuel :
  simulates R E (ExpressionStatement fuel).
Proof.
  destruct (simulates_expression fuel) as [X _].
  unfold ExpressionStatement. simulates_all.
Qed.

#[local] Hint Resolve simulates_VariableStatement simulates_ForStatementInit
  simulates_ReturnStatement simulates_ExpressionStatement
  simulates_FormalParameterList : simulates.

Lemma simulates_statements fuel :
  (forall stop, simulates R E (StatementList fuel stop)) /\
  (forall stop l, simulates R E (StatementList_while fuel stop l)) /\
  simulates R E (Statement fuel) /\
  simulates R E (IfStatement fuel) /\
  simulates R E (FunctionDeclaration fuel) /\
  simulates R E (ClassDeclaration fuel) /\
  simulates R E (IterationStatement fuel) /\
  simulates R E (WhileStatement fuel) /\
  simulates R E (DoStatement fuel) /\
  simulates R E (ForStatement fuel) /\
  simulates R E (BlockStatement fuel).
Proof.
  pose proof (fun fuel => proj1 (simulates_expression fuel)) as X.
  induction fuel as [|fuel IH].
  - unfold_statements. repeat split; intros; apply simulates_out_of_fuel.
  - repeat match type of IH with _ /\ _ => destruct IH as [? IH] end.
    repeat match goal with |- _ /\ _ => split end; intros;
      unfold_statements; unfold FormalParameterList; simulates_all.
Qed.

Lemma simulates_Program fuel : simulates R E (Program fuel).
Proof.
  destruct (simulates_statements fuel) as [L _].
  unfold Program. simulates_all.
Qed.

End Simulation.

(** ** The parser depends on the tokens only *)

Lemma same_tokens_advance p p' :
  same_tokens p p' ->
  agree_by same_tokens (fun _ => True) (advance p) (advance p').
Proof.
  intros [_ (tokens & H & H')]. unfold advance.
  inversion H as [t G|t token l G S]; subst;
    inversion H' as [t' G'|t' token' l' G' S']; subst;
    pose proof (getNextToken_sentinel_stable (_tokenizer p)) as T;
    pose proof (getNextToken_sentinel_stable (_tokenizer p')) as T';
    destruct (Tokenizer.getNextToken (_tokenizer p)) as [c t1];
    destruct (Tokenizer.getNextToken (_tokenizer p')) as [c' t1'];
    cbn [fst snd] in *; subst c c';
    (split; [reflexivity|]); (split; [reflexivity|]);
    cbn [_tokenizer].
  - exists []. split; apply Tokenizer.stream_end; auto.
  - exists l. split; assumption.
Qed.

(** X15.  The parser depends on the tokens of a text only: two texts
    with the same tokens, whatever white space and comments lie between
    them, give the same tree or the same error. *)
Theorem parse_depends_on_the_tokens_only fuel s s' tokens :
  Tokenizer.tokenize s = Return tokens ->
  Tokenizer.tokenize s' = Return tokens ->
  parse fuel s = parse fuel s'.
Proof.
  intros H H'. apply tokenize_stream in H, H'. unfold parse.
  assert (X : forall p p', same_tokens p p' ->
                agree_by same_tokens (fun _ => True)
                  (Program fuel p) (Program fuel p')).
  { apply simulates_Program.
    - intros p p' [L _]. exact L.
    - exact same_tokens_advance.
    - intros. exact I.
    - intros. exact I. }
  pose proof (getNextToken_sentinel_stable (Tokenizer.init s)) as T.
  pose proof (getNextToken_sentinel_stable (Tokenizer.init s')) as T'.
  inversion H as [t G|t token l G S]; subst;
    inversion H' as [t' G'|t' token' l' G' S']; subst;
    destruct (Tokenizer.getNextToken (Tokenizer.init s)) as [c t1];
    destruct (Tokenizer.getNextToken (Tokenizer.init s')) as [c' t1'];
    cbn [fst snd] in *; subst c c';
    match goal with
    | |- match Program _ ?p with _ => _ end
         = match Program _ ?p' with _ => _ end =>
        assert (Hp : same_tokens p p');
        [ split; [reflexivity|]; cbn [_tokenizer]
        | specialize (X p p' Hp);
          destruct (Program fuel p) as [[a q]| |],
                   (Program fuel p') as [[a' q']| |];
          simpl in X; try contradiction; try reflexivity;
          destruct X as [-> _]; reflexivity ]
    end.
  - exists []. split; apply Tokenizer.stream_end; auto.
  - exists l. split; assumption.
Qed.

Lemma parse_depends_on_the_tokens_only_witness :
  parse 40 (str "a=b;") = parse 40 (str " a = /* to */ b ; // end").
Proof.
  apply (parse_depends_on_the_tokens_only 40 (str "a=b;")
           (str " a = /* to */ b ; // end")
           [ {| Tokenizer.type := str "IDENTIFIER"; Tokenizer.value := str "a" |};
             {| Tokenizer.type := str "SIMPLE_ASSIGN"; Tokenizer.value := str "=" |};
             {| Tokenizer.type := str "IDENTIFIER"; Tokenizer.value := str "b" |};
             {| Tokenizer.type := str ";"; Tokenizer.value := str ";" |} ]);
    vm_compute; reflexivity.
Defined.

(** ** The parser reads the whole text *)

Lemma on_the_way_advance s p :
  on_the_way s p ->
  agree_by (same_on_the_way s) (TypeError_at_end s) (advance p) (advance p).
Proof.
  intros [_ H2]. unfold advance.
  pose proof (getNextToken_sentinel_stable (_tokenizer p)) as T.
  pose proof (getNextToken_throws (_tokenizer p)) as Th.
  pose proof (Tokenizer.stream_end (_tokenizer p)) as SE.
  pose proof (Tokenizer.stream_token (_tokenizer p)) as ST.
  destruct (Tokenizer.getNextToken (_tokenizer p)) as [[next|e|] t1];
    cbn [fst snd] in *.
  - split; [reflexivity|]. split; [reflexivity|].
    split; cbn [_lookahead _tokenizer].
    + intros ->. apply T. reflexivity.
    + intros [l Hl]. apply H2. destruct next as [token|].
      * exists (token :: l). apply ST; [reflexivity | exact Hl].
      * exists []. apply SE. reflexivity.
  - split; [reflexivity|]. intros ->.
    destruct (Th _ eq_refl) as [message Hm]. discriminate.
  - exact I.
Qed.

(** The loop of [Program] goes on until the lookahead is [null]. *)
Lemma StatementList_while_until_the_end fuel : forall l p v q,
  StatementList_while fuel None l p = Return (v, q) -> _lookahead q = None.
Proof.
  induction fuel as [|fuel IH]; intros l p v q H;
    cbn [StatementList_while] in H; [discriminate|].
  unfold bind at 1, lookahead at 1 in H.
  destruct (_lookahead p) as [token|] eqn:L.
  - unfold bind at 1 in H.
    destruct (Statement fuel p) as [[next p1]| |]; try discriminate.
    exact (IH _ _ _ _ H).
  - inversion H; subst. exact L.
Qed.

Lemma Program_until_the_end fuel p ast q :
  Program fuel p = Return (ast, q) -> _lookahead q = None.
Proof.
  unfold Program, bind. destruct fuel as [|fuel]; [discriminate|].
  cbn [StatementList]. unfold bind at 1.
  destruct (Statement fuel p) as [[first p1]| |]; try discriminate.
  destruct (StatementList_while fuel None [first] p1) as [[l p2]| |] eqn:W;
    try discriminate.
  intros H. inversion H; subst.
  exact (StatementList_while_until_the_end _ _ _ _ _ W).
Qed.

Lemma parse_on_the_way fuel s :
  match parse fuel s with
  | Return _ | Throw TypeError =>
      exists tokens, Tokenizer.tokenize s = Return tokens
  | _ => True
  end.
Proof.
  unfold parse.
  assert (X : forall p p', same_on_the_way s p p' ->
                agree_by (same_on_the_way s) (TypeError_at_end s)
                  (Program fuel p) (Program fuel p')).
  { apply simulates_Program.
    - intros p p' [-> _]. reflexivity.
    - intros p p' [<- H]. apply on_the_way_advance, H.
    - intros p p' [<- [H1 H2]] L e.
      apply H2. exists []. apply Tokenizer.stream_end, H1, L.
    - intros message e. discriminate. }
  pose proof (getNextToken_sentinel_stable (Tokenizer.init s)) as T.
  pose proof (getNextToken_throws (Tokenizer.init s)) as Th.
  pose proof (Tokenizer.stream_end (Tokenizer.init s)) as SE.
  pose proof (Tokenizer.stream_token (Tokenizer.init s)) as ST.
  destruct (Tokenizer.getNextToken (Tokenizer.init s)) as [[first|e|] t1];
    cbn [fst snd] in *.
  - match goal with
    | |- match match Program _ ?p with _ => _ end with _ => _ end =>
        assert (Hp : on_the_way s p)
    end.
    { split; cbn [_lookahead _tokenizer].
      - intros ->. apply T. reflexivity.
      - intros [l Hl]. destruct first as [token|].
        + exists (token :: l). apply tokenize_stream.
          apply ST; [reflexivity | exact Hl].
        + exists []. apply tokenize_stream, SE. reflexivity. }
    specialize (X _ _ (conj eq_refl Hp)).
    pose proof (Program_until_the_end fuel
                  {| _string := s; _tokenizer := t1; _lookahead := first |})
      as End.
    destruct (Program fuel _) as [[ast q]|e|]; simpl in X.
    + destruct X as [_ [_ [H1 H2]]]. apply H2.
      exists []. apply Tokenizer.stream_end, H1. exact (End _ _ eq_refl).
    + destruct X as [_ X]. destruct e; [exact I | exact (X eq_refl)].
    + exact I.
  - destruct (Th _ eq_refl) as [message ->]. exact I.
  - exact I.
Qed.

(** X16.  [parse] returns a tree, or throws a [TypeError], only once
    the whole text has been tokenized: a character that no rule of the
    tokenizer matches, wherever it stands, never goes unnoticed and
    never shows as a [TypeError]. *)
Theorem parse_reads_the_whole_text fuel s ast :
  parse fuel s = Return ast \/ parse fuel s = Throw TypeError ->
  exists tokens, Tokenizer.tokenize s = Return tokens.
Proof.
  intros H. pose proof (parse_on_the_way fuel s) as X.
  destruct H as [H|H]; rewrite H in X; exact X.
Qed.

Lemma parse_reads_the_whole_text_witness :
  exists tokens, Tokenizer.tokenize (str "a;") = Return tokens.
Proof.
  apply (parse_reads_the_whole_text 40 (str "a;")
           (program [expression_statement (identifier "a")])).
  left. vm_compute. reflexivity.
Defined.

(** X17.  A text of white space and comments only is no empty program:
    [Statement] reads the type of the [null] lookahead, and [parse]
    throws a [TypeError]. *)
Theorem parse_of_comments_only_throws_TypeError fuel s :
  Tokenizer.Skippable s ->
  2 <= fuel ->
  parse fuel s = Throw TypeError.
Proof.
  intros H Hfuel. unfold parse.
  assert (G : fst (Tokenizer.getNextToken (Tokenizer.init s)) = Return None)
    by (apply getNextToken_sentinel; exact H).
  destruct (Tokenizer.getNextToken (Tokenizer.init s)) as [c t1].
  cbn [fst] in G. subst c.
  destruct fuel as [|[|fuel]]; [lia | lia | reflexivity].
Qed.

Lemma parse_of_comments_only_throws_TypeError_witness :
  parse 2 (str " /* nothing */ ") = Throw TypeError.
Proof.
  apply (parse_of_comments_only_throws_TypeError 2 (str " /* nothing */ ")).
  - apply Tokenizer.skip_space; [reflexivity|].
    apply (@Tokenizer.skip_block_comment (str " nothing ") (str " ")).
    + intros a b E.
      repeat (destruct a as [|? a]; [discriminate E|];
              injection E as _ E).
      destruct a; discriminate E.
    + apply Tokenizer.skip_space; [reflexivity | apply Tokenizer.skip_nothing].
  - lia.
Defined.

(** ** The tokens a tree is made of *)

Lemma jsstring_eqb_true a b : jsstring_eqb a b = true -> a = b.
Proof.
  unfold jsstring_eqb. destruct (list_eq_dec N.eq_dec a b); [auto|discriminate].
Qed.

Lemma Reads_app p c p1 c' q :
  Reads p c p1 -> Reads p1 c' q -> Reads p (c ++ c') q.
Proof.
  induction 1 as [p|p token p1 tokens p2 L A _ IH]; intros H;
    [exact H|].
  simpl. eapply reads_token; [exact L | exact A | exact (IH H)].
Qed.

Lemma eats_ret A pre (P : A -> list Tokenizer.Token -> Prop) a :
  P a (pre ++ []) -> eats pre P (ret a).
Proof.
  intros H p a' q E. inversion E; subst.
  exists []. split; [apply reads_nothing | exact H].
Qed.

Lemma eats_throw A pre (P : A -> list Tokenizer.Token -> Prop) e :
  eats pre P (throw e).
Proof. intros p a q E. discriminate. Qed.

Lemma eats_out_of_fuel A pre (P : A -> list Tokenizer.Token -> Prop) :
  eats pre P out_of_fuel.
Proof. intros p a q E. discriminate. Qed.

Lemma eats_bind A B pre (P1 : A -> list Tokenizer.Token -> Prop)
    (P2 : B -> list Tokenizer.Token -> Prop) (m : M A) (k : A -> M B) :
  eats [] P1 m ->
  (forall a c, P1 a c -> eats (pre ++ c) P2 (k a)) ->
  eats pre P2 (bind m k).
Proof.
  intros Hm Hk p b q E. unfold bind in E.
  destruct (m p) as [[a p1]| |] eqn:Em; try discriminate.
  destruct (Hm _ _ _ Em) as (c & R & H).
  destruct (Hk a c H _ _ _ E) as (c' & R' & H').
  exists (c ++ c'). split; [exact (Reads_app _ _ _ _ _ R R')|].
  rewrite app_assoc. exact H'.
Qed.

Lemma eats_tail A pre (P1 P : A -> list Tokenizer.Token -> Prop) (m : M A) :
  eats [] P1 m -> (forall a c, P1 a c -> P a (pre ++ c)) -> eats pre P m.
Proof.
  intros Hm HP p a q E. destruct (Hm _ _ _ E) as (c & R & H).
  exists c. split; [exact R | exact (HP _ _ H)].
Qed.

Lemma eats_lookahead : eats [] (fun _ c => c = []) lookahead.
Proof.
  intros p a q E. inversion E; subst.
  exists []. split; [apply reads_nothing | reflexivity].
Qed.

Lemma eats_lookahead_type : eats [] (fun _ c => c = []) lookahead_type.
Proof.
  intros p a q E. destruct (lookahead_type_inv _ _ _ E) as [-> _].
  exists []. split; [apply reads_nothing | reflexivity].
Qed.

Lemma eats__eat tokenType :
  eats [] (fun token c => c = [token] /\ Tokenizer.type token = tokenType)
    (_eat tokenType).
Proof.
  intros p a q E. unfold _eat, bind, lookahead in E.
  destruct (_lookahead p) as [token|] eqn:L; [|discriminate].
  destruct (jsstring_eqb (Tokenizer.type token) tokenType) eqn:T;
    cbn [negb] in E; [|discriminate].
  destruct (advance p) as [[[] p1]| |] eqn:Ad; try discriminate.
  inversion E; subst.
  exists [a]. split.
  - eapply reads_token; [exact L | exact Ad | apply reads_nothing].
  - split; [reflexivity | apply jsstring_eqb_true, T].
Qed.

Lemma eats_eat tokenType :
  eats [] (fun token c => c = [token] /\ is_a tokenType token)
    (eat tokenType).
Proof. apply eats__eat. Qed.

(** *** Parts that may be missing *)

Lemma eats_optional (Y : value -> list Tokenizer.Token -> Prop)
    (b : bool) (m : M value) :
  eats [] Y m -> eats [] (Optional Y) (if b then m else ret Null).
Proof.
  intros H. destruct b.
  - eapply eats_tail; [exact H|]. intros a c Ha. right. exact Ha.
  - apply eats_ret. left. split; reflexivity.
Qed.

Lemma eats_optional_list (Y : list value -> list Tokenizer.Token -> Prop)
    (b : bool) (m : M (list value)) :
  eats [] Y m -> eats [] (OptionalList Y) (if b then m else ret []).
Proof.
  intros H. destruct b.
  - eapply eats_tail; [exact H|]. intros a c Ha. right. exact Ha.
  - apply eats_ret. left. split; reflexivity.
Qed.

Lemma eats_else (Y : value -> list Tokenizer.Token -> Prop)
    (la : option Tokenizer.Token) (f : Tokenizer.Token -> bool)
    (m : M value) :
  eats [] Y m ->
  eats [] (Optional Y)
    (match la with
     | Some token => if f token then m else ret Null
     | None => ret Null
     end).
Proof.
  intros H. destruct la as [token|]; [apply eats_optional; exact H|].
  apply eats_ret. left. split; reflexivity.
Qed.

Lemma After_intro ty (Y : value -> list Tokenizer.Token -> Prop) t v c :
  is_a ty t -> Y v c -> After ty Y v (t :: c).
Proof. intros Ht Hv. exists t, c. auto. Qed.

Lemma Separated_snoc (Y : value -> list Tokenizer.Token -> Prop) sep
    l pre v c :
  SoFar Y sep l pre -> Y v c -> Separated Y sep (l ++ [v]) (pre ++ c).
Proof.
  intros [[-> ->]|(c0 & t & H & Ht & ->)] Hv.
  - apply separated_one. exact Hv.
  - rewrite <- app_assoc. apply separated_more; assumption.
Qed.

Lemma SoFar_nothing (Y : value -> list Tokenizer.Token -> Prop) sep :
  SoFar Y sep [] [].
Proof. left. split; reflexivity. Qed.

Lemma SoFar_more (Y : value -> list Tokenizer.Token -> Prop) sep
    l pre v c t :
  SoFar Y sep l pre -> Y v c -> is_a sep t ->
  SoFar Y sep (l ++ [v]) (pre ++ c ++ [t]).
Proof.
  intros H Hv Ht. right. exists (pre ++ c), t.
  split; [exact (Separated_snoc _ _ _ _ _ _ H Hv)|].
  split; [exact Ht | apply app_assoc].
Qed.

Lemma IdentifierOf_intro t :
  is_a "IDENTIFIER" t ->
  IdentifierOf
    (node "Identifier" [("name"%string, Str (Tokenizer.value t))]) [t].
Proof. intros H. exists t. auto. Qed.

Lemma SuperOf_intro t : is_a "super" t -> SuperOf (node "Super" []) [t].
Proof. intros H. exists t. auto. Qed.

Lemma ForInitOf_Variable v c : VariableOf v c -> ForInitOf v c.
Proof. intros H. left. exact H. Qed.

Lemma ForInitOf_Expr v c : ExprOf Assignment v c -> ForInitOf v c.
Proof. intros H. right. exact H. Qed.

Create HintDb yields discriminated.
#[local] Hint Constructors Below ExprOf ArgumentsOf DeclarationOf VariableOf
  StmtOf BlockOf Sequence : yields.
#[local] Hint Resolve After_intro Separated_snoc SoFar_nothing SoFar_more
  ForInitOf_Variable ForInitOf_Expr IdentifierOf_intro SuperOf_intro : yields.

Create HintDb eats discriminated.
#[local] Hint Resolve eats_lookahead eats_lookahead_type eats_eat eats__eat
  : eats.

Ltac list_norm :=
  repeat first [ rewrite <- app_assoc
               | rewrite app_nil_r
               | progress cbn [app] ].

Ltac list_norm_in H :=
  repeat first [ rewrite <- app_assoc in H
               | rewrite app_nil_r in H
               | progress cbn [app] in H ].

Ltac eats_clean :=
  repeat match goal with
         | H : _ /\ _ |- _ => destruct H
         | H : exists _, _ |- _ => destruct H
         | H : ?c = _ |- _ => is_var c; subst c
         end.

(** The end of a step: what is to hold of the value and of the tokens. *)
Ltac eats_leaf :=
  cbv beta; eats_clean; list_norm;
  first [ assumption
        | reflexivity
        | match goal with
          | H : ?P ?v ?c |- ?P ?v _ => list_norm_in H; exact H
          end
        | solve [eauto 7 with yields] ].

Ltac eats_call := solve [eauto 3 with eats].

Ltac eats_step :=
  match goal with
  | |- eats _ _ (bind (if _ then _ else ret Null) _) =>
      eapply eats_bind;
      [apply eats_optional; eats_call | cbv beta; intros ? ? ?]
  | |- eats _ _ (bind (if _ then _ else ret []) _) =>
      eapply eats_bind;
      [apply eats_optional_list; eats_call | cbv beta; intros ? ? ?]
  | |- eats _ _ (bind (match _ with Some _ => _ | None => ret Null end) _) =>
      eapply eats_bind;
      [apply (eats_else (After "else" StmtOf)) | cbv beta; intros ? ? ?]
  | |- eats ?pre _ (bind (if _ then _ else if _ then _ else ret None) _) =>
      apply (eats_bind _ _ pre
               (fun o c =>
                  match o with
                  | Some operator =>
                      exists t,
                        (is_a "ADDITIVE_OPERATOR" t \/ is_a "LOGICAL_NOT" t)
                        /\ operator = Tokenizer.value t /\ c = [t]
                  | None => c = []
                  end));
      [|cbv beta; intros ? ? ?]
  | |- eats _ _ (bind _ _) =>
      eapply eats_bind; [eats_call | cbv beta; intros ? ? ?]
  | |- eats _ _ (ret _) =>
      apply eats_ret; first [solve [eats_leaf] | eats_clean; list_norm]
  | |- eats _ _ (throw _) => apply eats_throw
  | |- eats _ _ out_of_fuel => apply eats_out_of_fuel
  | |- eats _ _ (if ?b then _ else _) => destruct b
  | |- eats _ _ (let _ := _ in _) => cbv zeta
  | |- eats _ _ (match ?x with _ => _ end) => destruct x; cbv beta iota in *
  | |- eats _ _ _ =>
      first [ eassumption
            | match goal with
              | H : forall _, _ |- _ => eapply H; solve [eats_leaf]
              end
            | eapply eats_tail;
              [eats_call | cbv beta; intros ? ? ?; solve [eats_leaf]] ]
  end.

Ltac eats_all := repeat eats_step.

Lemma eats_Identifier : eats [] IdentifierOf Identifier.
Proof. unfold Identifier. eats_all. Qed.

Lemma eats_Super : eats [] SuperOf Super.
Proof. unfold Super. eats_all. Qed.

Lemma eats_ThisExpression : eats [] (ExprOf Primary) ThisExpression.
Proof. unfold ThisExpression. eats_all. Qed.

Lemma eats_EmptyStatement : eats [] StmtOf EmptyStatement.
Proof. unfold EmptyStatement. eats_all. Qed.

#[local] Hint Resolve eats_Identifier eats_Super eats_ThisExpression
  eats_EmptyStatement : eats.

Lemma eats_ClassExtends :
  eats [] (After "extends" IdentifierOf) ClassExtends.
Proof. unfold ClassExtends. eats_all. Qed.

Lemma eats_Literal : eats [] (ExprOf Primary) Literal.
Proof.
  unfold Literal, NumericLiteral, StringLiteral, BooleanLiteral, NullLiteral.
  eats_all.
Qed.

Lemma eats_AssignmentOperator :
  eats []
    (fun token c =>
       c = [token]
       /\ (is_a "SIMPLE_ASSIGN" token \/ is_a "COMPLEX_ASSIGN" token))
    AssignmentOperator.
Proof. unfold AssignmentOperator. eats_all. Qed.

Lemma eats__checkValidAssignmentTarget left :
  eats []
    (fun target c =>
       c = [] /\ target = left /\ is_assignment_target left = true)
    (_checkValidAssignmentTarget left).
Proof.
  intros p a q E. unfold _checkValidAssignmentTarget in E.
  unfold is_assignment_target.
  destruct left; try discriminate;
    destruct (get "type" _) as [[]|]; try discriminate;
    match type of E with
    | (if ?b then _ else _) _ = _ => destruct b eqn:T; try discriminate
    end;
    inversion E; subst;
    (exists []; split; [apply reads_nothing | auto]).
Qed.

#[local] Hint Resolve eats_ClassExtends eats_Literal eats_AssignmentOperator
  eats__checkValidAssignmentTarget : eats.


Lemma eats_FormalParameterList_do fuel : forall params pre,
  SoFar IdentifierOf "," params pre ->
  eats pre (Separated IdentifierOf ",") (FormalParameterList_do fuel params).
Proof.
  induction fuel as [|fuel IH]; intros params pre H;
    cbn [FormalParameterList_do]; eats_all.
Qed.

Lemma eats_expressions fuel :
  eats [] (ExprOf Assignment) (Expression fuel) /\
  eats [] (ExprOf Assignment) (AssignmentExpression fuel) /\
  eats [] (ExprOf LogicalOR) (LogicalORExpression fuel) /\
  eats [] (ExprOf LogicalAND) (LogicalANDExpression fuel) /\
  eats [] (ExprOf Equality) (EqualityExpression fuel) /\
  eats [] (ExprOf Relational) (RelationalExpression fuel) /\
  eats [] (ExprOf Additive) (AdditiveExpression fuel) /\
  eats [] (ExprOf Multiplicative) (MultiplicativeExpression fuel) /\
  eats [] (ExprOf Unary) (UnaryExpression fuel) /\
  eats [] (ExprOf CallMember) (LeftHandSideExpression fuel) /\
  eats [] (ExprOf CallMember) (CallMemberExpression fuel) /\
  eats [] (ExprOf Member) (MemberExpression fuel) /\
  eats [] (ExprOf Primary) (PrimaryExpression fuel) /\
  eats [] (ExprOf Primary) (NewExpression fuel) /\
  eats [] (ExprOf Primary) (ParenthesizedExpression fuel) /\
  eats [] ArgumentsOf (Arguments fuel) /\
  eats [] (Separated (ExprOf Assignment) ",") (ArgumentList fuel) /\
  (forall x c, ExprOf LogicalOR x c ->
               eats c (ExprOf LogicalOR) (LogicalORExpression_while fuel x)) /\
  (forall x c, ExprOf LogicalAND x c ->
               eats c (ExprOf LogicalAND)
                 (LogicalANDExpression_while fuel x)) /\
  (forall x c, ExprOf Equality x c ->
               eats c (ExprOf Equality) (EqualityExpression_while fuel x)) /\
  (forall x c, ExprOf Relational x c ->
               eats c (ExprOf Relational)
                 (RelationalExpression_while fuel x)) /\
  (forall x c, ExprOf Additive x c ->
               eats c (ExprOf Additive) (AdditiveExpression_while fuel x)) /\
  (forall x c, ExprOf Multiplicative x c ->
               eats c (ExprOf Multiplicative)
                 (MultiplicativeExpression_while fuel x)) /\
  (forall x c, ExprOf CallMember x c \/ SuperOf x c ->
               eats c (ExprOf CallMember) (_CallExpression fuel x)) /\
  (forall x c, ExprOf Member x c ->
               eats c (ExprOf Member) (MemberExpression_while fuel x)) /\
  (forall x c, SoFar (ExprOf Assignment) "," x c ->
               eats c (Separated (ExprOf Assignment) ",")
                 (ArgumentList_do fuel x)).
Proof.
  induction fuel as [|fuel IH].
  - unfold_expressions.
    repeat match goal with |- _ /\ _ => split end; intros;
      apply eats_out_of_fuel.
  - repeat match type of IH with _ /\ _ => destruct IH as [? IH] end.
    repeat match goal with |- _ /\ _ => split end; intros;
      unfold_expressions; eats_all.
Qed.

Lemma eats_expression fuel :
  eats [] (ExprOf Assignment) (Expression fuel)
  /\ eats [] (ExprOf Assignment) (AssignmentExpression fuel).
Proof. pose proof (eats_expressions fuel). tauto. Qed.

Lemma eats_VariableInitializer fuel :
  eats [] (After "SIMPLE_ASSIGN" (ExprOf Assignment))
    (VariableInitializer fuel).
Proof.
  destruct (eats_expression fuel) as [_ A].
  unfold VariableInitializer. eats_all.
Qed.

Lemma eats_VariableDeclaration fuel :
  eats [] DeclarationOf (VariableDeclaration fuel).
Proof.
  pose proof (eats_VariableInitializer fuel).
  unfold VariableDeclaration. eats_all.
Qed.

Lemma eats_VariableDeclarationList_do fuel : forall declarations pre,
  SoFar DeclarationOf "," declarations pre ->
  eats pre (Separated DeclarationOf ",")
    (VariableDeclarationList_do fuel declarations).
Proof.
  induction fuel as [|fuel IH]; intros declarations pre H;
    cbn [VariableDeclarationList_do]; [apply eats_out_of_fuel|].
  pose proof (eats_VariableDeclaration fuel).
  eats_all.
Qed.

Lemma eats_VariableStatementInit fuel :
  eats [] VariableOf (VariableStatementInit fuel).
Proof.
  pose proof (eats_VariableDeclarationList_do fuel [] []
                (SoFar_nothing _ _)).
  unfold VariableStatementInit, VariableDeclarationList. eats_all.
Qed.

Lemma eats_VariableStatement fuel :
  eats [] StmtOf (VariableStatement fuel).
Proof.
  pose proof (eats_VariableStatementInit fuel).
  unfold VariableStatement. eats_all.
Qed.

Lemma eats_ForStatementInit fuel :
  eats [] ForInitOf (ForStatementInit fuel).
Proof.
  pose proof (eats_VariableStatementInit fuel).
  destruct (eats_expression fuel) as [X _].
  unfold ForStatementInit. eats_all.
Qed.

Lemma eats_ReturnStatement fuel : eats [] StmtOf (ReturnStatement fuel).
Proof.
  destruct (eats_expression fuel) as [X _].
  unfold ReturnStatement. eats_all.
Qed.

Lemma eats_ExpressionStatement fuel :
  eats [] StmtOf (ExpressionStatement fuel).
Proof.
  destruct (eats_expression fuel) as [X _].
  unfold ExpressionStatement. eats_all.
Qed.

Lemma eats_statements fuel :
  (forall p ty v q,
      lookahead_type p = Return (ty, p) ->
      (ty === "while") || (ty === "do") || (ty === "for") = true ->
      IterationStatement fuel p = Return (v, q) ->
      exists c, Reads p c q /\ StmtOf v c) /\
  eats [] StmtOf (Statement fuel) /\
  (forall stop, eats [] (Sequence StmtOf) (StatementList fuel stop)) /\
  (forall stop l c,
      Sequence StmtOf l c ->
      eats c (Sequence StmtOf) (StatementList_while fuel stop l)) /\
  eats [] BlockOf (BlockStatement fuel) /\
  eats [] StmtOf (IfStatement fuel) /\
  eats [] StmtOf (FunctionDeclaration fuel) /\
  eats [] StmtOf (ClassDeclaration fuel) /\
  eats [] StmtOf (WhileStatement fuel) /\
  eats [] StmtOf (DoStatement fuel) /\
  eats [] StmtOf (ForStatement fuel).
Proof.
  pose proof (fun fuel => proj1 (eats_expression fuel)) as X.
  pose proof eats_VariableStatement as V.
  pose proof eats_ForStatementInit as FI.
  pose proof eats_ReturnStatement as R.
  pose proof eats_ExpressionStatement as ES.
  pose proof (fun fuel => eats_FormalParameterList_do fuel [] []
                            (SoFar_nothing _ _)) as FP.
  induction fuel as [|fuel IH].
  - unfold_statements.
    split; [intros; discriminate|].
    repeat match goal with |- _ /\ _ => split end; intros;
      apply eats_out_of_fuel.
  - destruct IH as (HI & HS & HL & HLW & HB & HIf & HF & HC & HW & HD & HFor).
    split; [|split].
    + intros p ty v q L T H.
      rewrite (IterationStatement_dispatch _ _ _ L T) in H.
      destruct (ty === "while"); [exact (HW _ _ _ H)|].
      destruct (ty === "do"); [exact (HD _ _ _ H) | exact (HFor _ _ _ H)].
    + intros p v q H. cbn [Statement] in H. unfold bind at 1 in H.
      destruct (lookahead_type p) as [[ty p1]| |] eqn:L; try discriminate.
      destruct (lookahead_type_inv _ _ _ L) as [-> _].
      destruct (ty === "{").
      { destruct (HB _ _ _ H) as (c & Hc & Y).
        exists c. split; [exact Hc | apply of_Block; exact Y]. }
      destruct (ty === ";"); [exact (eats_EmptyStatement _ _ _ H)|].
      destruct (ty === "let"); [exact (V _ _ _ _ H)|].
      destruct (ty === "if"); [exact (HIf _ _ _ H)|].
      destruct (ty === "def"); [exact (HF _ _ _ H)|].
      destruct (ty === "return"); [exact (R _ _ _ _ H)|].
      destruct (ty === "class"); [exact (HC _ _ _ H)|].
      destruct ((ty === "while") || (ty === "do") || (ty === "for")) eqn:T;
        [exact (HI _ _ _ _ L T H) | exact (ES _ _ _ _ H)].
    + clear HI.
      repeat match goal with |- _ /\ _ => split end; intros;
        unfold_statements; unfold FormalParameterList; eats_all.
Qed.

Lemma eats_Program fuel : eats [] ProgramOf (Program fuel).
Proof.
  destruct (eats_statements fuel) as (_ & _ & HL & _).
  unfold Program. eapply eats_bind; [apply (HL None)|].
  intros body c H. apply eats_ret. exists body.
  rewrite app_nil_r. auto.
Qed.

(** The tokens eaten up to the end of the text are the lookahead and
    the tokens that the tokenizer had still to give. *)
Lemma Reads_to_the_end p c q :
  Reads p c q ->
  _lookahead q = None ->
  match _lookahead p with
  | Some token =>
      exists l, c = token :: l /\ Tokenizer.stream (_tokenizer p) l
  | None => c = []
  end.
Proof.
  induction 1 as [p|p token p1 tokens q L A _ IH]; intros End.
  - rewrite End. reflexivity.
  - rewrite L. exists tokens. split; [reflexivity|].
    specialize (IH End). unfold advance in A.
    destruct (Tokenizer.getNextToken (_tokenizer p)) as [[next|e|] t'] eqn:G;
      try discriminate.
    inversion A; subst p1. cbn [_lookahead _tokenizer] in IH.
    destruct next as [token'|].
    + destruct IH as (l & -> & S).
      apply Tokenizer.stream_token; rewrite G; [reflexivity | exact S].
    + subst tokens. apply Tokenizer.stream_end. rewrite G. reflexivity.
Qed.

Lemma parse_ProgramOf fuel s ast :
  parse fuel s = Return ast ->
  exists tokens,
    Tokenizer.tokenize s = Return tokens /\ ProgramOf ast tokens.
Proof.
  unfold parse.
  destruct (Tokenizer.getNextToken (Tokenizer.init s)) as [[first|e|] t1]
    eqn:G; try discriminate.
  destruct (Program fuel _) as [[v q]|e|] eqn:E; try discriminate.
  intros H. inversion H; subst v. clear H.
  destruct (eats_Program _ _ _ _ E) as (c & R & Y).
  pose proof (Reads_to_the_end _ _ _ R (Program_until_the_end _ _ _ _ E))
    as T.
  cbn [_lookahead _tokenizer] in T.
  exists c. split; [|exact Y].
  apply tokenize_stream. destruct first as [token|].
  - destruct T as (l & -> & S).
    apply Tokenizer.stream_token; rewrite G; [reflexivity | exact S].
  - subst c. apply Tokenizer.stream_end. rewrite G. reflexivity.
Qed.

(** X18.  The tree that [parse] returns is a derivation of the tokens
    of the text, all of them and in their order, by the grammar in the
    comments of the source: every node stands for the tokens of its
    production, and each operand is of the level that the production
    asks for.  So an operator that binds tighter stands lower in the
    tree, operators of one level nest to the left and assignments to
    the right.  Only parentheses leave no node, and the left operand of
    an equality is read but not kept.  The value of a numeric literal
    is stated for literals below 2^53 only. *)
Theorem parse_tree_is_made_of_the_tokens fuel s ast :
  parse fuel s = Return ast ->
  exists tokens,
    Tokenizer.tokenize s = Return tokens /\ ProgramOf ast tokens.
Proof. exact (parse_ProgramOf fuel s ast). Qed.

Lemma parse_tree_is_made_of_the_tokens_witness :
  exists tokens,
    Tokenizer.tokenize (str "a - b * c - (d);") = Return tokens
    /\ ProgramOf
         (program
            [expression_statement
               (binary_expression "-"
                  (binary_expression "-"
                     (identifier "a")
                     (binary_expression "*"
                        (identifier "b") (identifier "c")))
                  (identifier "d"))])
         tokens.
Proof.
  apply (parse_tree_is_made_of_the_tokens 40 (str "a - b * c - (d);")).
  vm_compute. reflexivity.
Defined.

(** ** The last token of a program *)

Lemma Ends_app c c' : Ends c' -> Ends (c ++ c').
Proof.
  intros (front & t & -> & H). exists (c ++ front), t.
  split; [apply app_assoc | exact H].
Qed.

Lemma Ends_cons t c : Ends c -> Ends (t :: c).
Proof. apply (Ends_app [t]). Qed.

Lemma Ends_one t : is_a ";" t \/ is_a "}" t -> Ends [t].
Proof. intros H. exists [], t. auto. Qed.

Lemma BlockOf_Ends v c : BlockOf v c -> Ends c.
Proof.
  intros H. destruct H as [l body c r _ _ Hr].
  apply Ends_cons, Ends_app, Ends_one. right. exact Hr.
Qed.

Lemma StmtOf_Ends : forall v c, StmtOf v c -> Ends c.
Proof.
  fix IH 3. intros v c H.
  destruct H as [t Ht
                |expression c t _ Ht
                |v c t _ Ht
                |v c Hb
                |i l test c r consequent c' alternate c'' _ _ _ _ Hc Ha
                |w l test c r body c' _ _ _ _ Hb
                |d body c w l test c' r s _ _ _ _ _ _ Hs
                |f l init c s test c' s' update c'' r body c''' _ _ _ _ _ _ _ _ Hb
                |d name c l params c' r body c'' _ _ _ _ _ Hb
                |k id c superClass c' body c'' _ _ _ Hb
                |r argument c s _ _ Hs].
  - apply Ends_one. left. exact Ht.
  - apply Ends_app, Ends_one. left. exact Ht.
  - apply Ends_app, Ends_one. left. exact Ht.
  - exact (BlockOf_Ends _ _ Hb).
  - do 2 apply Ends_cons. apply Ends_app, Ends_cons.
    destruct Ha as [[_ ->]|(e & c3 & _ & Halt & ->)].
    + rewrite app_nil_r. exact (IH _ _ Hc).
    + apply Ends_app, Ends_cons. exact (IH _ _ Halt).
  - do 2 apply Ends_cons. apply Ends_app, Ends_cons. exact (IH _ _ Hb).
  - apply Ends_cons, Ends_app. do 2 apply Ends_cons.
    apply Ends_app, Ends_cons, Ends_one. left. exact Hs.
  - do 2 apply Ends_cons. apply Ends_app, Ends_cons, Ends_app, Ends_cons.
    apply Ends_app, Ends_cons. exact (IH _ _ Hb).
  - apply Ends_cons, Ends_app, Ends_cons, Ends_app, Ends_cons.
    exact (BlockOf_Ends _ _ Hb).
  - apply Ends_cons. do 2 apply Ends_app. exact (BlockOf_Ends _ _ Hb).
  - apply Ends_cons, Ends_app, Ends_one. left. exact Hs.
Qed.

Lemma Sequence_Ends body c : Sequence StmtOf body c -> Ends c.
Proof.
  induction 1 as [v c H|l c v c' _ _ H].
  - exact (StmtOf_Ends _ _ H).
  - apply Ends_app. exact (StmtOf_Ends _ _ H).
Qed.

(** X19.  A text that [parse] accepts ends, white space and comments
    apart, with a [;] or a [}]: the semicolon of the last statement
    cannot be left out. *)
Theorem parsed_text_ends_with_semicolon_or_brace fuel s ast tokens :
  parse fuel s = Return ast ->
  Tokenizer.tokenize s = Return tokens ->
  exists front t,
    tokens = front ++ [t]
    /\ (Tokenizer.type t = str ";" \/ Tokenizer.type t = str "}").
Proof.
  intros H T. destruct (parse_ProgramOf _ _ _ H) as (c & T' & body & _ & Y).
  rewrite T in T'. inversion T'; subst c.
  exact (Sequence_Ends _ _ Y).
Qed.

Lemma parsed_text_ends_with_semicolon_or_brace_witness :
  exists front t,
    [ {| Tokenizer.type := str "IDENTIFIER"; Tokenizer.value := str "a" |};
      {| Tokenizer.type := str ";"; Tokenizer.value := str ";" |} ]
    = front ++ [t]
    /\ (Tokenizer.type t = str ";" \/ Tokenizer.type t = str "}").
Proof.
  apply (parsed_text_ends_with_semicolon_or_brace 40 (str "a; // done")
           (program [expression_statement (identifier "a")]));
    vm_compute; reflexivity.
Defined.

(** ** Where an [else] goes *)

Lemma Dangling_inv v :
  Dangling v ->
  (exists test consequent alternate,
      v = if_statement test consequent alternate
      /\ (alternate = Null \/ Dangling alternate))
  \/ (exists test body,
        v = node "WhileStatement"
              [("test"%string, test); ("body"%string, body)]
        /\ Dangling body)
  \/ (exists init test update body,
        v = node "ForStatement"
              [("init"%string, init);
               ("test"%string, test);
               ("update"%string, update);
               ("body"%string, body)]
        /\ Dangling body).
Proof.
  intros [test consequent|test consequent alternate H|test body H
         |init test update body H]; eauto 10.
Qed.

Lemma Inside_inv u v :
  Inside u v ->
  u = v
  \/ (exists test consequent alternate,
        v = if_statement test consequent alternate
        /\ (Inside u consequent \/ Inside u alternate))
  \/ (exists test body,
        v = node "WhileStatement"
              [("test"%string, test); ("body"%string, body)]
        /\ Inside u body)
  \/ (exists body test,
        v = node "DoStatement"
              [("body"%string, body); ("test"%string, test)]
        /\ Inside u body)
  \/ (exists init test update body,
        v = node "ForStatement"
              [("init"%string, init);
               ("test"%string, test);
               ("update"%string, update);
               ("body"%string, body)]
        /\ Inside u body)
  \/ (exists body statement,
        v = node "BlockStatement" [("body"%string, Arr body)]
        /\ In statement body /\ Inside u statement)
  \/ (exists name params body,
        v = node "FunctionDeclaration"
              [("name"%string, name);
               ("params"%string, Arr params);
               ("body"%string, body)]
        /\ Inside u body)
  \/ (exists id superClass body,
        v = node "ClassDeclaration"
              [("id"%string, id);
               ("superClass"%string, superClass);
               ("body"%string, body)]
        /\ Inside u body)
  \/ (exists body statement,
        v = program body /\ In statement body /\ Inside u statement).
Proof.
  intros H. destruct H; eauto 15.
Qed.

(** The cases of [Dangling_inv] and [Inside_inv] on a node. *)
Ltac node_cases H :=
  repeat match type of H with
         | _ \/ _ => destruct H as [H|H]
         | exists _, _ => let x := fresh "x" in destruct H as [x H]
         | _ /\ _ => let E := fresh "E" in destruct H as [E H];
                     try discriminate E
         end.

Ltac not_dangling :=
  let D := fresh "D" in
  intros D; apply Dangling_inv in D; node_cases D.

Lemma not_Dangling_Null : ~ Dangling Null.
Proof. not_dangling. Qed.

Lemma not_Dangling_Block fields : ~ Dangling (node "BlockStatement" fields).
Proof. not_dangling. Qed.

Lemma not_Dangling_Empty fields : ~ Dangling (node "EmptyStatement" fields).
Proof. not_dangling. Qed.

Lemma not_Dangling_Expression fields :
  ~ Dangling (node "ExpressionStatement" fields).
Proof. not_dangling. Qed.

Lemma not_Dangling_Variable fields :
  ~ Dangling (node "VariableStatement" fields).
Proof. not_dangling. Qed.

Lemma not_Dangling_Return fields :
  ~ Dangling (node "ReturnStatement" fields).
Proof. not_dangling. Qed.

Lemma not_Dangling_Do fields : ~ Dangling (node "DoStatement" fields).
Proof. not_dangling. Qed.

Lemma not_Dangling_Function fields :
  ~ Dangling (node "FunctionDeclaration" fields).
Proof. not_dangling. Qed.

Lemma not_Dangling_Class fields :
  ~ Dangling (node "ClassDeclaration" fields).
Proof. not_dangling. Qed.

Lemma Dangling_if test consequent alternate :
  Dangling (if_statement test consequent alternate) ->
  alternate = Null \/ Dangling alternate.
Proof.
  intros D. apply Dangling_inv in D. node_cases D.
  - injection E as _ _ <-. left. exact D.
  - injection E as _ _ <-. right. exact D.
Qed.

Lemma Dangling_while test body :
  Dangling (node "WhileStatement"
              [("test"%string, test); ("body"%string, body)]) ->
  Dangling body.
Proof.
  intros D. apply Dangling_inv in D. node_cases D.
  injection E as _ <-. exact D.
Qed.

Lemma Dangling_for init test update body :
  Dangling (node "ForStatement"
              [("init"%string, init);
               ("test"%string, test);
               ("update"%string, update);
               ("body"%string, body)]) ->
  Dangling body.
Proof.
  intros D. apply Dangling_inv in D. node_cases D.
  injection E as _ _ _ <-. exact D.
Qed.

Ltac nearest_leaf :=
  let t := fresh "t" in let c := fresh "c" in let a := fresh "a" in
  let H := fresh "H" in
  intros t c a H _; apply Inside_inv in H; node_cases H; discriminate H.

Lemma Nearest_Null : Nearest Null.
Proof. nearest_leaf. Qed.

Lemma Nearest_Empty fields : Nearest (node "EmptyStatement" fields).
Proof. nearest_leaf. Qed.

Lemma Nearest_Expression fields :
  Nearest (node "ExpressionStatement" fields).
Proof. nearest_leaf. Qed.

Lemma Nearest_Variable fields : Nearest (node "VariableStatement" fields).
Proof. nearest_leaf. Qed.

Lemma Nearest_Return fields : Nearest (node "ReturnStatement" fields).
Proof. nearest_leaf. Qed.

Lemma Nearest_if test consequent alternate :
  Nearest consequent -> Nearest alternate ->
  (alternate <> Null -> ~ Dangling consequent) ->
  Nearest (if_statement test consequent alternate).
Proof.
  intros Hc Ha Hd t c a H Hn. apply Inside_inv in H. node_cases H.
  - injection H as _ <- <-. exact (Hd Hn).
  - injection E as _ <- _. exact (Hc _ _ _ H Hn).
  - injection E as _ _ <-. exact (Ha _ _ _ H Hn).
Qed.

Lemma Nearest_while test body :
  Nearest body ->
  Nearest (node "WhileStatement"
             [("test"%string, test); ("body"%string, body)]).
Proof.
  intros Hb t c a H Hn. apply Inside_inv in H. node_cases H.
  - discriminate H.
  - injection E as _ <-. exact (Hb _ _ _ H Hn).
Qed.

Lemma Nearest_do body test :
  Nearest body ->
  Nearest (node "DoStatement"
             [("body"%string, body); ("test"%string, test)]).
Proof.
  intros Hb t c a H Hn. apply Inside_inv in H. node_cases H.
  - discriminate H.
  - injection E as <- _. exact (Hb _ _ _ H Hn).
Qed.

Lemma Nearest_for init test update body :
  Nearest body ->
  Nearest (node "ForStatement"
             [("init"%string, init);
              ("test"%string, test);
              ("update"%string, update);
              ("body"%string, body)]).
Proof.
  intros Hb t c a H Hn. apply Inside_inv in H. node_cases H.
  - discriminate H.
  - injection E as _ _ _ <-. exact (Hb _ _ _ H Hn).
Qed.

Lemma Nearest_block body :
  Forall Nearest body ->
  Nearest (node "BlockStatement" [("body"%string, Arr body)]).
Proof.
  intros Hb t c a H Hn. apply Inside_inv in H. node_cases H.
  - discriminate H.
  - injection E as <-.
    rewrite Forall_forall in Hb. exact (Hb _ E0 _ _ _ H Hn).
Qed.

Lemma Nearest_function name params body :
  Nearest body ->
  Nearest (node "FunctionDeclaration"
             [("name"%string, name);
              ("params"%string, Arr params);
              ("body"%string, body)]).
Proof.
  intros Hb t c a H Hn. apply Inside_inv in H. node_cases H.
  - discriminate H.
  - injection E as _ _ <-. exact (Hb _ _ _ H Hn).
Qed.

Lemma Nearest_class id superClass body :
  Nearest body ->
  Nearest (node "ClassDeclaration"
             [("id"%string, id);
              ("superClass"%string, superClass);
              ("body"%string, body)]).
Proof.
  intros Hb t c a H Hn. apply Inside_inv in H. node_cases H.
  - discriminate H.
  - injection E as _ _ <-. exact (Hb _ _ _ H Hn).
Qed.

Lemma Nearest_program body : Forall Nearest body -> Nearest (program body).
Proof.
  intros Hb t c a H Hn. apply Inside_inv in H. node_cases H.
  - discriminate H.
  - injection E as <-.
    rewrite Forall_forall in Hb. exact (Hb _ E0 _ _ _ H Hn).
Qed.

(** One call after the other of a production that returned. *)
Ltac run H :=
  repeat (cbv beta zeta in H;
          match type of H with
          | bind ?m _ ?p = Return _ =>
              let E := fresh "E" in
              unfold bind at 1 in H;
              destruct (m p) as [[? ?]| |] eqn:E;
              [|discriminate H|discriminate H]
          end);
  cbv beta zeta in H.

Ltac returned H :=
  match type of H with
  | ret _ _ = Return _ => unfold ret in H; injection H as <- <-
  end.

Lemma jsstring_eqb_refl a : jsstring_eqb a a = true.
Proof.
  unfold jsstring_eqb. destruct (list_eq_dec N.eq_dec a a); congruence.
Qed.

Lemma else_next_lookahead p token :
  _lookahead p = Some token ->
  else_next p <-> (Tokenizer.type token === "else") = true.
Proof.
  intros L. split.
  - intros (token' & L' & T). rewrite L in L'. injection L' as <-.
    rewrite T. apply jsstring_eqb_refl.
  - intros T. exists token. split; [exact L | apply jsstring_eqb_true, T].
Qed.

Lemma Settled_EmptyStatement p v q :
  EmptyStatement p = Return (v, q) -> Settled v q.
Proof.
  intros H. unfold EmptyStatement in H. run H. returned H.
  split; [discriminate|].
  split; [apply Nearest_Empty | intros _; apply not_Dangling_Empty].
Qed.

Lemma Settled_VariableStatement fuel p v q :
  VariableStatement fuel p = Return (v, q) -> Settled v q.
Proof.
  intros H. unfold VariableStatement in H. run H. returned H.
  unfold VariableStatementInit in E. run E. returned E.
  split; [discriminate|].
  split; [apply Nearest_Variable | intros _; apply not_Dangling_Variable].
Qed.

Lemma Settled_ReturnStatement fuel p v q :
  ReturnStatement fuel p = Return (v, q) -> Settled v q.
Proof.
  intros H. unfold ReturnStatement in H. run H. returned H.
  split; [discriminate|].
  split; [apply Nearest_Return | intros _; apply not_Dangling_Return].
Qed.

Lemma Settled_ExpressionStatement fuel p v q :
  ExpressionStatement fuel p = Return (v, q) -> Settled v q.
Proof.
  intros H. unfold ExpressionStatement in H. run H. returned H.
  split; [discriminate|].
  split; [apply Nearest_Expression
         |intros _; apply not_Dangling_Expression].
Qed.

Lemma Settled_statements fuel :
  (forall p ty v q,
      lookahead_type p = Return (ty, p) ->
      (ty === "while") || (ty === "do") || (ty === "for") = true ->
      IterationStatement fuel p = Return (v, q) -> Settled v q) /\
  (forall p v q, Statement fuel p = Return (v, q) -> Settled v q) /\
  (forall stop p l q,
      StatementList fuel stop p = Return (l, q) -> Forall Nearest l) /\
  (forall stop acc p l q,
      Forall Nearest acc ->
      StatementList_while fuel stop acc p = Return (l, q) ->
      Forall Nearest l) /\
  (forall p v q, BlockStatement fuel p = Return (v, q) -> Settled v q) /\
  (forall p v q,
      IfStatement fuel p = Return (v, q) ->
      (exists test consequent alternate,
          v = if_statement test consequent alternate
          /\ (alternate = Null -> ~ else_next q)
          /\ (alternate <> Null -> ~ Dangling consequent))
      /\ Settled v q) /\
  (forall p v q, FunctionDeclaration fuel p = Return (v, q) -> Settled v q) /\
  (forall p v q, ClassDeclaration fuel p = Return (v, q) -> Settled v q) /\
  (forall p v q, WhileStatement fuel p = Return (v, q) -> Settled v q) /\
  (forall p v q, DoStatement fuel p = Return (v, q) -> Settled v q) /\
  (forall p v q, ForStatement fuel p = Return (v, q) -> Settled v q).
Proof.
  induction fuel as [|fuel IH].
  - unfold_statements.
    repeat match goal with |- _ /\ _ => split end; intros; discriminate.
  - destruct IH as (HI & HS & HL & HLW & HB & HIf & HF & HC & HW & HD & HFor).
    repeat match goal with |- _ /\ _ => split end.
    + (* IterationStatement *)
      intros p ty v q L T H.
      rewrite (IterationStatement_dispatch _ _ _ L T) in H.
      destruct (ty === "while"); [exact (HW _ _ _ H)|].
      destruct (ty === "do"); [exact (HD _ _ _ H) | exact (HFor _ _ _ H)].
    + (* Statement *)
      intros p v q H. cbn [Statement] in H. unfold bind at 1 in H.
      destruct (lookahead_type p) as [[ty p1]| |] eqn:L; try discriminate.
      destruct (lookahead_type_inv _ _ _ L) as [-> _].
      destruct (ty === "{"); [exact (HB _ _ _ H)|].
      destruct (ty === ";"); [exact (Settled_EmptyStatement _ _ _ H)|].
      destruct (ty === "let"); [exact (Settled_VariableStatement _ _ _ _ H)|].
      destruct (ty === "if"); [exact (proj2 (HIf _ _ _ H))|].
      destruct (ty === "def"); [exact (HF _ _ _ H)|].
      destruct (ty === "return"); [exact (Settled_ReturnStatement _ _ _ _ H)|].
      destruct (ty === "class"); [exact (HC _ _ _ H)|].
      destruct ((ty === "while") || (ty === "do") || (ty === "for")) eqn:T;
        [exact (HI _ _ _ _ L T H)
        |exact (Settled_ExpressionStatement _ _ _ _ H)].
    + (* StatementList *)
      intros stop p l q H. cbn [StatementList] in H. run H.
      match goal with
      | E : Statement fuel _ = Return (_, _) |- _ =>
          apply (HLW _ _ _ _ _ (Forall_cons _ (proj1 (proj2 (HS _ _ _ E)))
                                  (Forall_nil _)) H)
      end.
    + (* the loop of StatementList *)
      intros stop acc p l q Hacc H. cbn [StatementList_while] in H.
      run H.
      match goal with
      | E : lookahead _ = Return (_, _) |- _ =>
          unfold lookahead in E; injection E as <- <-
      end.
      destruct (_lookahead p) as [token|]; [|returned H; exact Hacc].
      match type of H with
      | (if ?b then _ else _) _ = _ => destruct b
      end; [|returned H; exact Hacc].
      run H.
      match goal with
      | E : Statement fuel _ = Return (_, _) |- _ =>
          apply (HLW _ _ _ _ _ (Forall_snoc _ _ _ _ Hacc
                                  (proj1 (proj2 (HS _ _ _ E)))) H)
      end.
    + (* BlockStatement *)
      intros p v q H. cbn [BlockStatement] in H. run H. returned H.
      split; [discriminate|].
      split; [|intros _; apply not_Dangling_Block].
      apply Nearest_block.
      match goal with
      | E : (if ?b then _ else _) _ = Return (_, _) |- _ =>
          destruct b; [exact (HL _ _ _ _ E) | returned E; constructor]
      end.
    + (* IfStatement *)
      intros p v q H. cbn [IfStatement] in H. run H. returned H.
      match goal with
      | E : lookahead _ = Return (_, _) |- _ =>
          unfold lookahead in E; injection E as <- <-
      end.
      match goal with
      | E : Statement fuel _ = Return (_, ?p2) |- _ =>
          destruct (HS _ _ _ E) as (Nc & Gc & Dc); set (p' := p2) in *
      end.
      destruct (_lookahead p') as [token|] eqn:L.
      * pose proof (else_next_lookahead _ _ L) as EN.
        destruct (Tokenizer.type token === "else") eqn:T.
        -- match goal with
           | E : bind _ _ _ = Return (_, _) |- _ => run E; rename E into Ea
           end.
           destruct (HS _ _ _ Ea) as (Na & Ga & Da).
           pose proof (Dc (proj2 EN eq_refl)) as Dc'.
           split.
           ++ eexists _, _, _. split; [reflexivity|].
              split; [intros N; contradiction | intros _; exact Dc'].
           ++ split; [discriminate|]. split.
              ** apply Nearest_if; auto.
              ** intros En D. apply Dangling_if in D.
                 destruct D as [D|D]; [contradiction | exact (Da En D)].
        -- match goal with
           | E : ret _ _ = Return (_, _) |- _ => returned E
           end.
           assert (En : ~ else_next p')
             by (intros En; apply EN in En; discriminate).
           split.
           ++ eexists _, _, _. split; [reflexivity|].
              split; [intros _; exact En | intros N; contradiction].
           ++ split; [discriminate|]. split.
              ** apply Nearest_if; [exact Gc | apply Nearest_Null|].
                 intros N. contradiction.
              ** intros En'. contradiction.
      * match goal with
        | E : ret _ _ = Return (_, _) |- _ => returned E
        end.
        assert (En : ~ else_next p').
        { intros (token & L' & _). rewrite L in L'. discriminate. }
        split.
        -- eexists _, _, _. split; [reflexivity|].
           split; [intros _; exact En | intros N; contradiction].
        -- split; [discriminate|]. split.
           ++ apply Nearest_if; [exact Gc | apply Nearest_Null|].
              intros N. contradiction.
           ++ intros En'. contradiction.
    + (* FunctionDeclaration *)
      intros p v q H. cbn [FunctionDeclaration] in H. run H. returned H.
      split; [discriminate|].
      split; [|intros _; apply not_Dangling_Function].
      apply Nearest_function.
      match goal with
      | E : BlockStatement fuel _ = Return (_, _) |- _ =>
          exact (proj1 (proj2 (HB _ _ _ E)))
      end.
    + (* ClassDeclaration *)
      intros p v q H. cbn [ClassDeclaration] in H. run H. returned H.
      split; [discriminate|].
      split; [|intros _; apply not_Dangling_Class].
      apply Nearest_class.
      match goal with
      | E : BlockStatement fuel _ = Return (_, _) |- _ =>
          exact (proj1 (proj2 (HB _ _ _ E)))
      end.
    + (* WhileStatement *)
      intros p v q H. cbn [WhileStatement] in H. run H. returned H.
      match goal with
      | E : Statement fuel _ = Return (_, _) |- _ =>
          destruct (HS _ _ _ E) as (Nb & Gb & Db)
      end.
      split; [discriminate|].
      split; [apply Nearest_while, Gb|].
      intros En D. apply Dangling_while in D. exact (Db En D).
    + (* DoStatement *)
      intros p v q H. cbn [DoStatement] in H. run H. returned H.
      split; [discriminate|].
      split; [|intros _; apply not_Dangling_Do].
      apply Nearest_do.
      match goal with
      | E : Statement fuel _ = Return (_, _) |- _ =>
          exact (proj1 (proj2 (HS _ _ _ E)))
      end.
    + (* ForStatement *)
      intros p v q H. cbn [ForStatement] in H. run H. returned H.
      match goal with
      | E : Statement fuel _ = Return (_, _) |- _ =>
          destruct (HS _ _ _ E) as (Nb & Gb & Db)
      end.
      split; [discriminate|].
      split; [apply Nearest_for, Gb|].
      intros En D. apply Dangling_for in D. exact (Db En D).
Qed.

Lemma parse_Nearest fuel s ast : parse fuel s = Return ast -> Nearest ast.
Proof.
  unfold parse.
  destruct (Tokenizer.getNextToken (Tokenizer.init s)) as [[first| |] t];
    try discriminate.
  destruct (Program fuel _) as [[v q]| |] eqn:E; try discriminate.
  intros H. injection H as <-.
  unfold Program in E. run E. returned E.
  destruct (Settled_statements fuel) as (_ & _ & HL & _).
  apply Nearest_program.
  match goal with
  | E : StatementList fuel _ _ = Return (_, _) |- _ => exact (HL _ _ _ _ E)
  end.
Qed.

(** The tree with the [else] of ["if (a) if (b) ; else d();"] on the
    outer [if] is not one of them. *)
Lemma else_on_the_outer_if_is_not_Nearest :
  ~ Nearest
      (program
         [if_statement (identifier "a")
            (if_statement (identifier "b") (node "EmptyStatement" []) Null)
            (expression_statement (call_expression (identifier "d") []))]).
Proof.
  intros N.
  apply (N (identifier "a")
           (if_statement (identifier "b") (node "EmptyStatement" []) Null)
           (expression_statement (call_expression (identifier "d") []))).
  - eapply inside_program; [left; reflexivity | apply inside_here].
  - discriminate.
  - apply dangling_if.
Qed.



End ParserFacts.
